(** * TextTrinity NLP core (server/nlp.ts): a shallow embedding

    Modelling conventions.
    - A JavaScript string is a [string]: a sequence of code units, each an
      [ascii] read as a code point below 256.
    - A JavaScript [number] holding a count, a length or an index is a [nat];
      a cluster label is a [Z] (the source uses -1 for "not yet assigned").
    - A score is a [Num.t]: a real number or NaN.  The formulas of the
      scoring functions are read in exact arithmetic ([Math.log10 x] is
      [ln x / ln 10], [Math.log] is [ln]); every divisor on the paths from
      the entry points is a positive constant, a positive score or the
      length of a list that is not empty.  The recommender's scores are sums of the constants 0.5, 1,
      1.5, 2 and 3 and are kept in [Q].
    - The cosine similarity of the clusterer is compared with a threshold
      and is a binary64 value ([Double.t]), computed with the IEEE 754
      operations.
    - A [Record<string, number>] used as a map is a plain object: its own
      properties are an association list in the order of their creation
      ([Rec.t]); a read that finds no own property falls through to the
      members inherited from [Object.prototype] ([Rec.lookup]), and a
      counter that starts from such a member holds a string
      ([Rec.increment]).
    - [Array.prototype.sort] is a stable sort.
    - A function that can throw returns an [Outcome]. *)

From Stdlib Require Import Bool Arith List String Ascii ZArith QArith Qround Qminmax Reals.
From Stdlib Require Import SpecFloat.
From Stdlib Require Import Lia Lra Psatz Permutation Sorted.
Import ListNotations.

Open Scope string_scope.
Open Scope list_scope.
Open Scope nat_scope.

(** ** Outcomes of the exported (async) entry points *)

Inductive Outcome (A : Type) : Type :=
| Returned (a : A)
| Thrown (message : string)
| Running.

Arguments Returned {A} a.
Arguments Thrown {A} message.
Arguments Running {A}.

Definition isThrown {A} (o : Outcome A) : bool :=
  match o with Thrown _ => true | _ => false end.

(** [try { body } catch (error) { throw new Error(message) }] *)
Definition tryCatchRethrow {A} (body : Outcome A) (message : string) : Outcome A :=
  match body with
  | Thrown _ => Thrown message
  | other => other
  end.

(** ** Characters and strings *)

Module Js.

Definition chars (s : string) : list ascii := list_ascii_of_string s.
Definition str (cs : list ascii) : string := string_of_list_ascii cs.

Definition code (c : ascii) : nat := nat_of_ascii c.

Definition between (lo hi : nat) (c : ascii) : bool :=
  (lo <=? code c) && (code c <=? hi).

Definition isUpper : ascii -> bool := between 65 90.
Definition isLower : ascii -> bool := between 97 122.
Definition isDigit : ascii -> bool := between 48 57.
Definition isLetter (c : ascii) : bool := isUpper c || isLower c.

(** [\w] *)
Definition isWordChar (c : ascii) : bool :=
  isLetter c || isDigit c || (code c =? 95).

(** [\s], and the characters [trim] strips: TAB, LF, VT, FF, CR, SP, NBSP. *)
Definition isSpace (c : ascii) : bool :=
  existsb (Nat.eqb (code c)) [9; 10; 11; 12; 13; 32; 160].

Definition newline : ascii := ascii_of_nat 10.
Definition space : ascii := ascii_of_nat 32.
Definition backslash : ascii := ascii_of_nat 92.

Definition isNewline (c : ascii) : bool := code c =? 10.

(** [toLowerCase] on one code unit.  Only A-Z are mapped: the other cased
    letters below 256 are not [\w] and every caller replaces them by a space
    right after lowering. *)
Definition lowerChar (c : ascii) : ascii :=
  if isUpper c then ascii_of_nat (code c + 32) else c.

Definition toLowerCase (s : string) : string := str (map lowerChar (chars s)).

Fixpoint dropSpaces (cs : list ascii) : list ascii :=
  match cs with
  | c :: rest => if isSpace c then dropSpaces rest else cs
  | [] => []
  end.

Definition trimChars (cs : list ascii) : list ascii :=
  rev (dropSpaces (rev (dropSpaces cs))).

Definition trim (s : string) : string := str (trimChars (chars s)).

(** [s.length] *)
Definition len (s : string) : nat := String.length s.

(** JavaScript truthiness of a string: [!s] is [isEmpty s]. *)
Definition isEmpty (s : string) : bool := len s =? 0.

Fixpoint startsWith (p cs : list ascii) : bool :=
  match p, cs with
  | [], _ => true
  | a :: p', b :: cs' => Ascii.eqb a b && startsWith p' cs'
  | _ :: _, [] => false
  end.

Fixpoint includesChars (cs p : list ascii) : bool :=
  startsWith p cs ||
  match cs with
  | [] => false
  | _ :: rest => includesChars rest p
  end.

(** [s.includes(p)] *)
Definition includes (s p : string) : bool := includesChars (chars s) (chars p).

(** [pieces.join(sep)] *)
Fixpoint join (sep : string) (pieces : list string) : string :=
  match pieces with
  | [] => ""
  | [p] => p
  | p :: rest => p ++ sep ++ join sep rest
  end.

(** [s.split(/\s+/)]: the pieces between maximal runs of white space; a run
    at either end leaves an empty piece there. *)
Fixpoint splitSpaceRuns (cur cs : list ascii) : list (list ascii) :=
  match cs with
  | [] => [rev cur]
  | c :: rest =>
      if isSpace c then
        match rest with
        | c' :: _ =>
            if isSpace c' then splitSpaceRuns cur rest
            else rev cur :: splitSpaceRuns [] rest
        | [] => rev cur :: splitSpaceRuns [] rest
        end
      else splitSpaceRuns (c :: cur) rest
  end.

Definition splitWhitespace (s : string) : list string :=
  map str (splitSpaceRuns [] (chars s)).

(** [s.split(/\n/)] and [s.split(' ')]: every separator character cuts. *)
Fixpoint splitAtChar (sep : ascii -> bool) (cur cs : list ascii)
  : list (list ascii) :=
  match cs with
  | [] => [rev cur]
  | c :: rest =>
      if sep c then rev cur :: splitAtChar sep [] rest
      else splitAtChar sep (c :: cur) rest
  end.

Definition splitLines (s : string) : list string :=
  map str (splitAtChar isNewline [] (chars s)).

Definition splitSingleSpace (s : string) : list string :=
  map str (splitAtChar (Ascii.eqb space) [] (chars s)).

(** [s.split(/\n\n+/)]: a run of two or more line feeds cuts, a single line
    feed stays inside its piece.  [inRun] holds while the run being skipped
    has already been recognised. *)
Fixpoint splitBlankLines (inRun : bool) (cur cs : list ascii)
  : list (list ascii) :=
  match cs with
  | [] => [rev cur]
  | c :: rest =>
      if isNewline c then
        match rest with
        | c' :: _ =>
            if isNewline c' then splitBlankLines true cur rest
            else if inRun then rev cur :: splitBlankLines false [] rest
            else splitBlankLines false (c :: cur) rest
        | [] =>
            if inRun then rev cur :: splitBlankLines false [] rest
            else splitBlankLines false (c :: cur) rest
        end
      else splitBlankLines false (c :: cur) rest
  end.

Definition splitParagraphs (s : string) : list string :=
  map str (splitBlankLines false [] (chars s)).

(** [s.split(/\\s+/)]: the separator is a backslash followed by one or more
    letters [s].  [afterMatch] holds while the letters [s] of a recognised
    separator are being skipped. *)
Definition isLetterS (c : ascii) : bool := code c =? 115.

Fixpoint splitBackslashS (afterMatch : bool) (cur cs : list ascii)
  : list (list ascii) :=
  match cs with
  | [] => [rev cur]
  | c :: rest =>
      if afterMatch && isLetterS c then splitBackslashS true cur rest
      else if code c =? 92 then
        match rest with
        | c' :: rest' =>
            if isLetterS c' then rev cur :: splitBackslashS true [] rest'
            else splitBackslashS false (c :: cur) rest
        | [] => splitBackslashS false (c :: cur) rest
        end
      else splitBackslashS false (c :: cur) rest
  end.

Definition splitLiteralBackslashS (s : string) : list string :=
  map str (splitBackslashS false [] (chars s)).

End Js.

(** ** Stop words and tokenizers *)

Definition STOPWORDS : list string :=
  [ "a"; "about"; "above"; "after"; "again"; "against"; "all"; "am"; "an";
    "and"; "any"; "are"; "aren't"; "as"; "at";
    "be"; "because"; "been"; "before"; "being"; "below"; "between"; "both";
    "but"; "by"; "can't"; "cannot"; "could";
    "couldn't"; "did"; "didn't"; "do"; "does"; "doesn't"; "doing"; "don't";
    "down"; "during"; "each"; "few"; "for";
    "from"; "further"; "had"; "hadn't"; "has"; "hasn't"; "have"; "haven't";
    "having"; "he"; "he'd"; "he'll"; "he's";
    "her"; "here"; "here's"; "hers"; "herself"; "him"; "himself"; "his";
    "how"; "how's"; "i"; "i'd"; "i'll"; "i'm";
    "i've"; "if"; "in"; "into"; "is"; "isn't"; "it"; "it's"; "its"; "itself";
    "let's"; "me"; "more"; "most"; "mustn't";
    "my"; "myself"; "no"; "nor"; "not"; "of"; "off"; "on"; "once"; "only";
    "or"; "other"; "ought"; "our"; "ours"; "ourselves";
    "out"; "over"; "own"; "same"; "shan't"; "she"; "she'd"; "she'll";
    "she's"; "should"; "shouldn't"; "so"; "some";
    "such"; "than"; "that"; "that's"; "the"; "their"; "theirs"; "them";
    "themselves"; "then"; "there"; "there's"; "these";
    "they"; "they'd"; "they'll"; "they're"; "they've"; "this"; "those";
    "through"; "to"; "too"; "under"; "until"; "up";
    "very"; "was"; "wasn't"; "we"; "we'd"; "we'll"; "we're"; "we've"; "were";
    "weren't"; "what"; "what's"; "when";
    "when's"; "where"; "where's"; "which"; "while"; "who"; "who's"; "whom";
    "why"; "why's"; "with"; "won't"; "would";
    "wouldn't"; "you"; "you'd"; "you'll"; "you're"; "you've"; "your";
    "yours"; "yourself"; "yourselves" ].

(** [STOPWORDS.has(w)] *)
Definition isStopword (w : string) : bool := existsb (String.eqb w) STOPWORDS.

(** The filter [w => !STOPWORDS.has(w) && w.length > 2] the scoring functions
    apply to the tokens. *)
Definition keepWord (w : string) : bool :=
  negb (isStopword w) && (2 <? Js.len w).

Module Tokenizer.
Import Js.

Definition isTerminator (c : ascii) : bool :=
  existsb (Nat.eqb (code c)) [46; 63; 33].

Definition isDot (c : ascii) : bool := code c =? 46.

(** The three [replace] calls of [tokenizeSentences] are read as
    left-to-right transducers: [step] gives, for the state of the scan and
    the next character, the characters written and the next state; [flush]
    what is written at the end of the input. *)
Section Transducer.
Context {St : Type}.
Variable step : St -> ascii -> list ascii * St.
Variable flush : St -> list ascii.

Fixpoint transduce (st : St) (cs : list ascii) : list ascii :=
  match cs with
  | [] => flush st
  | c :: rest => fst (step st c) ++ transduce (snd (step st c)) rest
  end.
End Transducer.

(** [.replace(/([.?!])\s*([A-Z])/g, "$1\n$2")].  The state is [Some buf]
    after a terminator, [buf] being the white space read since (latest
    first): an upper-case letter next completes the match and the white space
    is replaced by a line feed, anything else gives it back unchanged. *)
Definition afterPlain (c : ascii) : option (list ascii) :=
  if isTerminator c then Some [] else None.

Definition terminatorStep (pending : option (list ascii)) (c : ascii)
  : list ascii * option (list ascii) :=
  match pending with
  | None => ([c], afterPlain c)
  | Some buf =>
      if isSpace c then ([], Some (c :: buf))
      else if isUpper c then ([newline; c], None)
      else (rev buf ++ [c], afterPlain c)
  end.

Definition terminatorFlush (pending : option (list ascii)) : list ascii :=
  match pending with Some buf => rev buf | None => [] end.

Definition breakAfterTerminators : list ascii -> list ascii :=
  transduce terminatorStep terminatorFlush None.

(** Where the scan stands with respect to a match of a pattern that starts
    with a word boundary. *)
Inductive Scan : Type :=
| AfterNonWord
| AfterWord
| InHead
| AfterDot (ws : list ascii).

Definition afterWordOrNot (c : ascii) : Scan :=
  if isWordChar c then AfterWord else AfterNonWord.

(** The second replacement, of every match of [\b[A-Z]\.\s*] (one capture
    group around the whole pattern, flag g) by "$1 ": one upper-case letter
    at a word start, a dot and the white space after it get a space
    appended.  [InHead] is the state after that letter; in [AfterDot] the
    white space is copied as it is read. *)
Definition initialStart (c : ascii) : Scan :=
  if isUpper c then InHead else afterWordOrNot c.

Definition initialStep (st : Scan) (c : ascii) : list ascii * Scan :=
  match st with
  | AfterNonWord => ([c], initialStart c)
  | AfterWord => ([c], afterWordOrNot c)
  | InHead => ([c], if isDot c then AfterDot [] else afterWordOrNot c)
  | AfterDot _ =>
      if isSpace c then ([c], AfterDot [])
      else ([space; c], initialStart c)
  end.

Definition initialFlush (st : Scan) : list ascii :=
  match st with AfterDot _ => [space] | _ => [] end.

Definition padInitials : list ascii -> list ascii :=
  transduce initialStep initialFlush AfterNonWord.

(** [.replace(/(\b[A-Za-z]+\.)\s+(?=[A-Z])/g, "$1\n")]: a run of letters at
    a word start, a dot, at least one white space and an upper-case letter
    ahead: the white space is replaced by a line feed.  [InHead] is the state
    inside the letters, [AfterDot ws] the state after the dot and the white
    space [ws] (latest first), which is held back until the next character
    decides. *)
Definition abbreviationStart (c : ascii) : Scan :=
  if isLetter c then InHead else afterWordOrNot c.

Definition abbreviationStep (st : Scan) (c : ascii) : list ascii * Scan :=
  match st with
  | AfterNonWord => ([c], abbreviationStart c)
  | AfterWord => ([c], afterWordOrNot c)
  | InHead =>
      ([c], if isLetter c then InHead
            else if isDot c then AfterDot [] else afterWordOrNot c)
  | AfterDot ws =>
      if isSpace c then ([], AfterDot (c :: ws))
      else
        match ws with
        | _ :: _ =>
            if isUpper c then ([newline; c], abbreviationStart c)
            else (rev ws ++ [c], abbreviationStart c)
        | [] => ([c], abbreviationStart c)
        end
  end.

Definition abbreviationFlush (st : Scan) : list ascii :=
  match st with AfterDot ws => rev ws | _ => [] end.

Definition breakAfterAbbreviations : list ascii -> list ascii :=
  transduce abbreviationStep abbreviationFlush AfterNonWord.

Definition prepare (text : string) : string :=
  str (breakAfterAbbreviations
         (padInitials (breakAfterTerminators (chars text)))).

Definition tokenizeSentences (text : string) : list string :=
  filter (fun s => 0 <? len (trim s)) (splitLines (prepare text)).

(** [.replace(/[^\w\s']|\d+/g, ' ')]: a run of digits becomes one space, any
    other character outside [\w], [\s] and the apostrophe becomes a space. *)
Fixpoint blankOut (inDigits : bool) (cs : list ascii) : list ascii :=
  match cs with
  | [] => []
  | c :: rest =>
      if isDigit c then
        if inDigits then blankOut true rest else space :: blankOut true rest
      else if isWordChar c || isSpace c || (code c =? 39) then
        c :: blankOut false rest
      else space :: blankOut false rest
  end.

Definition tokenizeWords (text : string) : list string :=
  let cleaned := str (blankOut false (chars (toLowerCase text))) in
  filter (fun w => 0 <? len w) (splitWhitespace cleaned).

End Tokenizer.
Export Tokenizer.

(** ** Sorting *)

(** [xs.sort(compare)], stable: [inOrder a b] says [compare(a, b) <= 0], so
    that [a], met first, stays before [b].  The comparators of the source
    are differences of two numbers; when one of them is NaN the difference
    is NaN, which [sort] reads as 0: the comparator is then no order and the
    engine is free in what it leaves.  What is proved about an order
    therefore assumes that no compared number is NaN. *)
Section StableSort.
Context {A : Type}.
Variable inOrder : A -> A -> bool.

Fixpoint insertSorted (a : A) (sorted : list A) : list A :=
  match sorted with
  | [] => [a]
  | b :: rest =>
      if inOrder a b then a :: sorted else b :: insertSorted a rest
  end.

Definition stableSort (xs : list A) : list A :=
  fold_right insertSorted [] xs.
End StableSort.

(** ** Records used as maps *)

Module Rec.

(** The own properties of a plain object ([{}]) in the order they were
    created.  The objects of the program are filled by assignments, so the
    keys are distinct and none of them is [__proto__]. *)
Definition t (V : Type) : Type := list (string * V).

(** The own property [k], [None] when there is none. *)
Fixpoint get {V} (r : t V) (k : string) : option V :=
  match r with
  | [] => None
  | (k', v) :: rest => if String.eqb k k' then Some v else get rest k
  end.

(** [r[k] = v]: an existing key keeps its place, a new key goes last. *)
Fixpoint set {V} (r : t V) (k : string) (v : V) : t V :=
  match r with
  | [] => [(k, v)]
  | (k', v') :: rest =>
      if String.eqb k k' then (k', v) :: rest else (k', v') :: set rest k v
  end.

Definition keys {V} (r : t V) : list string := map fst r.

(** The members every plain object inherits from [Object.prototype]. *)
Definition objectPrototype : list string :=
  [ "constructor"; "__defineGetter__"; "__defineSetter__"; "hasOwnProperty";
    "__lookupGetter__"; "__lookupSetter__"; "isPrototypeOf";
    "propertyIsEnumerable"; "toString"; "valueOf"; "__proto__";
    "toLocaleString" ].

Definition inherited (k : string) : bool :=
  existsb (String.eqb k) objectPrototype.

(** What the read [r[k]] finds: an own property, else the inherited member
    of that name (a function, or the prototype object for [__proto__]:
    truthy, and NaN where a number is needed), else [undefined]. *)
Inductive Lookup (V : Type) : Type :=
| Own (v : V)
| Inherited
| Missing.

Arguments Own {V} v.
Arguments Inherited {V}.
Arguments Missing {V}.

Definition lookup {V} (r : t V) (k : string) : Lookup V :=
  match get r k with
  | Some v => Own v
  | None => if inherited k then Inherited else Missing
  end.

(** The value of a counter [r[k]] that is filled by
    [r[k] = (r[k] || 0) + 1]: a number of times or, once the read has found
    an inherited member, the text of that member with a digit appended per
    turn, a string that is no numeral. *)
Inductive Counter : Type :=
| Times (n : nat)
| Garbled.

(** [r[k] = (r[k] || 0) + 1].  An assignment to [__proto__] goes to the
    inherited setter, which ignores a value that is not an object. *)
Definition increment (r : t Counter) (k : string) : t Counter :=
  if String.eqb k "__proto__" then r
  else
    set r k
      match lookup r k with
      | Own (Times n) => Times (S n)
      | Own Garbled => Garbled
      | Inherited => Garbled
      | Missing => Times 1
      end.

(** [r[k] || 0] and [r[k] = (r[k] || 0) + 1] for a key that is no member of
    [Object.prototype]; the phrases of [extractPhrases] are such keys. *)
Definition count (r : t nat) (k : string) : nat :=
  match get r k with Some n => n | None => 0 end.

Definition bump (r : t nat) (k : string) : t nat := set r k (S (count r k)).

(** [{ ...a }] followed by assignments of the entries of [b]. *)
Definition assign {V} (a b : t V) : t V :=
  fold_left (fun r kv => set r (fst kv) (snd kv)) b a.

(** An array index: the decimal numeral, without a leading zero, of an
    integer below 2^32 - 1. *)
Fixpoint numeral (acc : N) (cs : list ascii) : option N :=
  match cs with
  | [] => Some acc
  | c :: rest =>
      if Js.isDigit c
      then numeral (10 * acc + N.of_nat (Js.code c - 48)) rest
      else None
  end.

Definition arrayIndex (k : string) : option N :=
  match Js.chars k with
  | [] => None
  | c :: rest =>
      if (Js.code c =? 48) && (0 <? List.length rest) then None
      else
        match numeral 0 (c :: rest) with
        | Some n => if (n <? 4294967295)%N then Some n else None
        | None => None
        end
  end.

Definition isIndex {V} (kv : string * V) : bool :=
  match arrayIndex (fst kv) with Some _ => true | None => false end.

Definition indexOf {V} (kv : string * V) : N :=
  match arrayIndex (fst kv) with Some n => n | None => 0%N end.

(** The order in which [for ... in], [Object.keys] and [Object.entries] list
    the own properties: array indices in ascending order, then the other
    keys in the order of their creation.  A token or a phrase holds no
    digit, so for the maps keyed by them this is the order of creation. *)
Definition enumerate {V} (r : t V) : t V :=
  stableSort (fun a b => (indexOf a <=? indexOf b)%N) (filter isIndex r)
  ++ filter (fun kv => negb (isIndex kv)) r.

End Rec.

(** [new Set(ws)], in insertion order. *)
Fixpoint uniqueOf (seen ws : list string) : list string :=
  match ws with
  | [] => []
  | w :: rest =>
      if existsb (String.eqb w) seen then uniqueOf seen rest
      else w :: uniqueOf (w :: seen) rest
  end.

Definition newSet (ws : list string) : list string := uniqueOf [] ws.

(** ** Numbers of the scoring functions *)

Open Scope R_scope.

(** A score: a real number or NaN. *)
Module Num.

Inductive t : Type :=
| Fin (x : R)
| NaN.

Definition add (a b : t) : t :=
  match a, b with Fin x, Fin y => Fin (x + y) | _, _ => NaN end.

Definition mul (a b : t) : t :=
  match a, b with Fin x, Fin y => Fin (x * y) | _, _ => NaN end.

Definition div (a b : t) : t :=
  match a, b with Fin x, Fin y => Fin (x / y) | _, _ => NaN end.

(** [Math.max(a, b)] and [Math.min(a, b)] *)
Definition max (a b : t) : t :=
  match a, b with Fin x, Fin y => Fin (Rmax x y) | _, _ => NaN end.

Definition min (a b : t) : t :=
  match a, b with Fin x, Fin y => Fin (Rmin x y) | _, _ => NaN end.

(** Truthiness: 0 and NaN are falsy. *)
Definition truthy (a : t) : bool :=
  match a with
  | Fin x => if Req_dec_T x 0 then false else true
  | NaN => false
  end.

(** [a < b] *)
Definition lt (a b : t) : bool :=
  match a, b with
  | Fin x, Fin y => if Rlt_dec x y then true else false
  | _, _ => false
  end.

(** [compare(a, b) <= 0] for the comparator [(a, b) => b - a]. *)
Definition descending (a b : t) : bool :=
  match a, b with
  | Fin x, Fin y => if Rle_dec y x then true else false
  | _, _ => true
  end.

(** A counter where a number is needed. *)
Definition ofCounter (c : Rec.Counter) : t :=
  match c with
  | Rec.Times n => Fin (INR n)
  | Rec.Garbled => NaN
  end.

End Num.

Coercion Num.Fin : R >-> Num.t.

(** ** Frequency engine *)

Definition log10 (x : R) : R := ln x / ln 10.

(** [r[k] || d] on numbers *)
Definition orElse (x : Rec.Lookup Num.t) (d : R) : Num.t :=
  match x with
  | Rec.Own v => if Num.truthy v then v else Num.Fin d
  | Rec.Inherited => Num.NaN
  | Rec.Missing => Num.Fin d
  end.

Definition countWords (ws : list string) : Rec.t Rec.Counter :=
  fold_left Rec.increment ws [].

Definition calculateTF (text : string) : Rec.t Num.t :=
  let words := tokenizeWords text in
  let totalWords := List.length words in
  let wordCount := countWords (filter keepWord words) in
  map (fun wc =>
         (fst wc, Num.div (Num.ofCounter (snd wc)) (INR totalWords)))
      wordCount.

(** The first loop of [calculateIDF]: in how many documents each kept word
    occurs. *)
Definition documentCounts (documents : list string) : Rec.t Rec.Counter :=
  fold_left
    (fun wordDocs doc =>
       fold_left Rec.increment (newSet (filter keepWord (tokenizeWords doc)))
         wordDocs)
    documents [].

(** [Math.log10((totalDocs + 1) / (wordDocs[word] + 1)) + 1] *)
Definition idfOf (totalDocs : nat) (wordDocs : Rec.Counter) : Num.t :=
  match wordDocs with
  | Rec.Times df => Num.Fin (log10 ((INR totalDocs + 1) / (INR df + 1)) + 1)
  | Rec.Garbled => Num.NaN
  end.

Definition calculateIDF (documents : list string) : Rec.t Num.t :=
  let totalDocs := List.length documents in
  map (fun wd => (fst wd, idfOf totalDocs (snd wd)))
      (documentCounts documents).

Definition calculateTFIDF (tf idf : Rec.t Num.t) : Rec.t Num.t :=
  map (fun wv =>
         (fst wv, Num.mul (snd wv) (orElse (Rec.lookup idf (fst wv)) 1)))
      tf.

(** [words.slice(i, i + n)] for [i = 0 .. words.length - n]. *)
Fixpoint windows (n : nat) (ws : list string) : list (list string) :=
  match ws with
  | [] => []
  | _ :: rest =>
      if (n <=? List.length ws)%nat then firstn n ws :: windows n rest else []
  end.

Definition countPhrases (phrases : list string) : Rec.t nat :=
  fold_left Rec.bump phrases [].

(** [extractPhrases].  The callers pass 2 and 3 for [n]: a key then holds a
    space, so it is no member of [Object.prototype] and its counter is a
    number.  For [n = 0] the source's loop also runs at
    [i = words.length]. *)
Definition extractPhrases (text : string) (n : nat) : Rec.t nat :=
  let words := filter keepWord (tokenizeWords text) in
  countPhrases (map (Js.join " ") (windows n words)).

(** [if (keywords[word]) score += keywords[word]] skips a word that is
    absent or weighs 0 or NaN; an inherited member is truthy and turns the
    score into a string, which is NaN when it is divided. *)
Definition scoreSentence (keywords : Rec.t Num.t) (sentence : string)
  : Num.t :=
  let words := tokenizeWords sentence in
  let score :=
    fold_left
      (fun score word =>
         match Rec.lookup keywords word with
         | Rec.Own v => if Num.truthy v then Num.add score v else score
         | Rec.Inherited => Num.NaN
         | Rec.Missing => score
         end)
      words (Num.Fin 0) in
  Num.div score (INR (List.length words) + 0.1).

Definition scoreSentences (sentences : list string) (keywords : Rec.t Num.t)
  : list Num.t :=
  map (scoreSentence keywords) sentences.

Definition getPositionWeight (index total : nat) : R :=
  if Rlt_dec (INR index) (INR total * 0.2) then 1.25
  else if Rgt_dec (INR index) (INR total * 0.8) then 1.15
  else 1.0.

(** The first loop of [calculateIDFWithSmoothing]: in how many documents each
    word occurs. *)
Definition wordInDocCount (documents : list string) : Rec.t Rec.Counter :=
  fold_left
    (fun counts doc =>
       fold_left Rec.increment (newSet (tokenizeWords doc)) counts)
    documents [].

(** [Math.log((docCount + 1) / (wordInDocCount[word] + 1) + 1)] *)
Definition smoothedIdfOf (docCount : nat) (wordDocs : Rec.Counter) : Num.t :=
  match wordDocs with
  | Rec.Times df => Num.Fin (ln ((INR docCount + 1) / (INR df + 1) + 1))
  | Rec.Garbled => Num.NaN
  end.

Definition calculateIDFWithSmoothing (documents : list string)
  : Rec.t Num.t :=
  let docCount := List.length documents in
  map (fun wd => (fst wd, smoothedIdfOf docCount (snd wd)))
      (wordInDocCount documents).

(** ** Cosine similarity, in binary64 *)

(** The similarity is compared with a threshold, where the last digit
    decides; it is computed from word counts with additions,
    multiplications, a square root and a division, which IEEE 754 defines
    bit for bit.  These numbers are therefore binary64 values. *)
Module Double.

Definition t : Type := spec_float.

Definition add : t -> t -> t := SFadd 53 1024.
Definition mul : t -> t -> t := SFmul 53 1024.
Definition div : t -> t -> t := SFdiv 53 1024.
Definition sqrt : t -> t := SFsqrt 53 1024.

Definition zero : t := S754_zero false.
Definition nan : t := S754_nan.
Definition ofZ (z : Z) : t := binary_normalize 53 1024 z 0 false.
Definition ofNat (n : nat) : t := ofZ (Z.of_nat n).

(** 0.5 *)
Definition half : t := binary_normalize 53 1024 1 (-1) false.

(** Truthiness: 0, -0 and NaN are falsy. *)
Definition truthy (x : t) : bool :=
  match x with
  | S754_zero _ | S754_nan => false
  | _ => true
  end.

(** [x === y] *)
Definition eqb (x y : t) : bool := SFeqb x y.

(** [x === 0] *)
Definition isZero (x : t) : bool := eqb x zero.

(** [x > y] *)
Definition gt (x y : t) : bool := SFltb y x.

End Double.

(** What an entry of a vector holds: a number or, for a garbled counter or
    an inherited member, a value that is truthy and NaN as a number. *)
Inductive Value : Type :=
| Numeric (x : Double.t)
| Other.

Definition toNumber (v : Value) : Double.t :=
  match v with
  | Numeric x => x
  | Other => Double.nan
  end.

Definition isTruthy (v : Value) : bool :=
  match v with
  | Numeric x => Double.truthy x
  | Other => true
  end.

(** The sums [cosineSimilarity] accumulates; [if (vectorB[key])] skips a
    key that [vectorB] does not have or where it holds 0 or NaN. *)
Definition dotProduct (vectorA vectorB : Rec.t Value) : Double.t :=
  fold_left
    (fun dot kv =>
       match Rec.lookup vectorB (fst kv) with
       | Rec.Own b =>
           if isTruthy b
           then Double.add dot (Double.mul (toNumber (snd kv)) (toNumber b))
           else dot
       | Rec.Inherited =>
           Double.add dot (Double.mul (toNumber (snd kv)) Double.nan)
       | Rec.Missing => dot
       end)
    (Rec.enumerate vectorA) Double.zero.

Definition squaredMagnitude (vector : Rec.t Value) : Double.t :=
  fold_left
    (fun m kv =>
       Double.add m (Double.mul (toNumber (snd kv)) (toNumber (snd kv))))
    (Rec.enumerate vector) Double.zero.

Definition cosineSimilarity (vectorA vectorB : Rec.t Value) : Double.t :=
  let dot := dotProduct vectorA vectorB in
  let magnitudeA := Double.sqrt (squaredMagnitude vectorA) in
  let magnitudeB := Double.sqrt (squaredMagnitude vectorB) in
  if Double.isZero magnitudeA || Double.isZero magnitudeB then Double.zero
  else Double.div dot (Double.mul magnitudeA magnitudeB).

Definition valueOf (c : Rec.Counter) : Value :=
  match c with
  | Rec.Times n => Numeric (Double.ofNat n)
  | Rec.Garbled => Other
  end.

Definition wordVector (sentence : string) : Rec.t Value :=
  map (fun wc => (fst wc, valueOf (snd wc)))
      (countWords (tokenizeWords sentence)).

Definition calculateSentenceSimilarity (sentA sentB : string) : Double.t :=
  cosineSimilarity (wordVector sentA) (wordVector sentB).

(** ** Sorting and rounding helpers *)

(** [Math.ceil(n * q)] for a count [n] and a decimal constant [q], on the
    exact product. *)
Definition ceilTimes (n : nat) (q : Q) : nat :=
  Z.to_nat (Qceiling (inject_Z (Z.of_nat n) * q)).

(** ** Sentence clusterer *)

(** [calculateSentenceSimilarity(a, b) > 0.5] *)
Definition similar (sentA sentB : string) : bool :=
  Double.gt (calculateSentenceSimilarity sentA sentB) Double.half.

Definition unassigned : Z := (-1)%Z.

(** The two loops of [clusterSimilarSentences] run over the sentences and the
    label array side by side: [clusterFrom] is the loop over [i], entered
    with the sentences and labels from index [i] on, and [markSimilar] is the
    loop over [j > i], on those after index [i]. *)
Section Clusterer.
Variable similarTo : string -> string -> bool.

Fixpoint markSimilar (opener : string) (clusterCount : Z)
  (sentences : list string) (clusters : list Z) : list Z :=
  match sentences, clusters with
  | sentence :: sentences', label :: clusters' =>
      (if (label =? unassigned)%Z && similarTo opener sentence
       then clusterCount else label)
      :: markSimilar opener clusterCount sentences' clusters'
  | _, _ => clusters
  end.

Fixpoint clusterFrom (clusterCount : Z) (sentences : list string)
  (clusters : list Z) : list Z :=
  match sentences, clusters with
  | sentence :: sentences', label :: clusters' =>
      if (label =? unassigned)%Z then
        clusterCount
        :: clusterFrom (clusterCount + 1)%Z sentences'
             (markSimilar sentence clusterCount sentences' clusters')
      else label :: clusterFrom clusterCount sentences' clusters'
  | _, _ => clusters
  end.

Definition clusterWith (sentences : list string) : list Z :=
  clusterFrom 0%Z sentences (repeat unassigned (List.length sentences)).
End Clusterer.

Definition clusterSimilarSentences : list string -> list Z :=
  clusterWith similar.

(** ** Summarizer *)

Inductive SummaryLength : Type := short | medium | long.
Inductive SummaryStyle : Type := informative | bullet_points | simplified.

Record SummarizationRequest : Type := {
  sumText : string;
  sumLength : SummaryLength;
  sumStyle : option SummaryStyle
}.

Record SummarizationResponse : Type := { summary : string }.

Record ScoredSentence : Type := {
  sentence : string;
  originalIndex : nat;
  score : Num.t;
  cluster : Z
}.

Definition lengthRatio (length : SummaryLength) : Q :=
  match length with
  | short => 0.15
  | medium => 0.3
  | long => 0.45
  end.

Definition numSentencesFor (length : SummaryLength) (sentenceCount : nat)
  : nat :=
  Nat.max 1 (ceilTimes sentenceCount (lengthRatio length)).

(** [text.split(/\n\n+/).filter(p => p.trim().length > 0)] *)
Definition paragraphsOf (text : string) : list string :=
  filter (fun p => (0 <? Js.len (Js.trim p))%nat) (Js.splitParagraphs text).

Definition documentsOf (text : string) (sentences : list string)
  : list string :=
  let paragraphs := paragraphsOf text in
  if (1 <? List.length paragraphs)%nat then paragraphs else sentences.

(** The weight a phrase with [count] occurrences is entered with; the word
    count is taken with [phrase.split(/\\s+/)]. *)
Definition phraseWordCount (phrase : string) : nat :=
  List.length (Js.splitLiteralBackslashS phrase).

Definition phraseWeight (documentCount : nat) (phrase : string) (count : nat)
  : R :=
  let wordCount := phraseWordCount phrase in
  let phraseMultiplier := 1 + (INR wordCount - 1) * 0.25 in
  (INR count / INR documentCount) * phraseMultiplier * 1.5.

Definition phraseEntries (documentCount : nat) (phrases : Rec.t nat)
  : Rec.t Num.t :=
  map (fun pc =>
         (fst pc, Num.Fin (phraseWeight documentCount (fst pc) (snd pc))))
      (filter (fun pc => (1 <? snd pc)%nat) phrases).

(** [keywordScores] of [enhancedSummarize]: the TF-IDF map, then one
    assignment per phrase counted more than once. *)
Definition keywordScoresOf (text : string) (sentences : list string)
  : Rec.t Num.t :=
  let documents := documentsOf text sentences in
  let idf := calculateIDFWithSmoothing documents in
  let tfidf := calculateTFIDF (calculateTF text) idf in
  Rec.assign tfidf
    (phraseEntries (List.length documents) (extractPhrases text 3)).

Definition getEnhancedPositionWeight (index total : nat) : R :=
  if (total <? 5)%nat then 1.0
  else
    let relativePos := INR index / (INR total - 1) in
    if Rle_dec relativePos 0.1 then 1.3
    else if Rge_dec relativePos 0.9 then 1.2
    else if Rge_dec relativePos 0.4 then
           if Rle_dec relativePos 0.6 then 0.9 else 1.0
    else 1.0.

(** [sentences[index].split(/\\s+/).length] *)
Definition sentenceLength (sentence : string) : nat :=
  List.length (Js.splitLiteralBackslashS sentence).

Definition lengthFactor (sentence : string) : R :=
  if (sentenceLength sentence <? 5)%nat then 0.7
  else if (40 <? sentenceLength sentence)%nat then 0.8
  else 1.0.

Definition topPhrasesOf (phrases : Rec.t nat) : list string :=
  map fst
    (firstn 5 (stableSort (fun a b => (snd b <=? snd a)%nat) phrases)).

Definition phraseBoost (topPhrases : list string) (sentence : string) : R :=
  fold_left
    (fun boost phrase =>
       if Js.includes sentence phrase then boost + 0.2 else boost)
    topPhrases 1.0.

(** [xs.map((x, index) => f index x)] *)
Fixpoint mapIndexed {A B} (f : nat -> A -> B) (from : nat) (xs : list A)
  : list B :=
  match xs with
  | [] => []
  | x :: rest => f from x :: mapIndexed f (S from) rest
  end.

Definition scoredSentencesOf (text : string) : list ScoredSentence :=
  let sentences := tokenizeSentences text in
  let total := List.length sentences in
  let keywordScores := keywordScoresOf text sentences in
  let topPhrases := topPhrasesOf (extractPhrases text 3) in
  let similarityClusters := clusterSimilarSentences sentences in
  mapIndexed
    (fun index sentence =>
       {| sentence := sentence;
          originalIndex := index;
          score :=
            Num.mul
              (Num.mul
                 (Num.mul (scoreSentence keywordScores sentence)
                    (getEnhancedPositionWeight index total))
                 (lengthFactor sentence))
              (phraseBoost topPhrases sentence);
          cluster := nth index similarityClusters unassigned |})
    0%nat sentences.

Definition byScoreDescending (a b : ScoredSentence) : bool :=
  Num.descending (score a) (score b).

Definition rank (scored : list ScoredSentence) : list ScoredSentence :=
  stableSort byScoreDescending scored.

Definition hasCluster (selectedClusters : list Z) (c : Z) : bool :=
  existsb (Z.eqb c) selectedClusters.

(** [sentence.score < 0.8] *)
Definition belowOverride (s : ScoredSentence) : bool :=
  Num.lt (score s) 0.8.

(** The [for ... of rankedSentences] loop, entered with what is left of the
    ranked list. *)
Fixpoint selectDiverse (numSentences : nat) (ranked : list ScoredSentence)
  (selectedSentences : list ScoredSentence) (selectedClusters : list Z)
  : list ScoredSentence :=
  match ranked with
  | [] => selectedSentences
  | s :: rest =>
      if (numSentences <=? List.length selectedSentences)%nat
      then selectedSentences
      else if hasCluster selectedClusters (cluster s) && belowOverride s
      then selectDiverse numSentences rest selectedSentences selectedClusters
      else selectDiverse numSentences rest (selectedSentences ++ [s])
             (cluster s :: selectedClusters)
  end.

(** [selectedSentences.includes(x)] compares object references; the sentence
    objects are made once per index by [sentences.map], so two of them are
    the same object exactly when they carry the same [originalIndex]. *)
Definition includesSentence (selectedSentences : list ScoredSentence)
  (x : ScoredSentence) : bool :=
  existsb (fun s => (originalIndex s =? originalIndex x)%nat)
    selectedSentences.

(** One turn of the [while] loop: [None] when its condition is false. *)
Definition backfillStep (numSentences : nat) (ranked : list ScoredSentence)
  (selectedSentences : list ScoredSentence) : option (list ScoredSentence) :=
  if ((List.length selectedSentences <? numSentences)%nat
      && (List.length selectedSentences <? List.length ranked)%nat)%bool
  then
    match nth_error ranked (List.length selectedSentences) with
    | Some nextSentence =>
        Some (if includesSentence selectedSentences nextSentence
              then selectedSentences
              else selectedSentences ++ [nextSentence])
    | None => None
    end
  else None.

(** The [while] loop, cut off after [fuel] turns: [None] when it is still
    running then. *)
Fixpoint backfill (fuel : nat) (numSentences : nat)
  (ranked selectedSentences : list ScoredSentence)
  : option (list ScoredSentence) :=
  match backfillStep numSentences ranked selectedSentences with
  | None => Some selectedSentences
  | Some selectedSentences' =>
      match fuel with
      | O => None
      | S fuel' => backfill fuel' numSentences ranked selectedSentences'
      end
  end.

Definition selectSentences (fuel : nat) (numSentences : nat)
  (ranked : list ScoredSentence) : option (list ScoredSentence) :=
  backfill fuel numSentences ranked (selectDiverse numSentences ranked [] []).

Definition inReadingOrder (selected : list ScoredSentence)
  : list ScoredSentence :=
  stableSort (fun a b => (originalIndex a <=? originalIndex b)%nat) selected.

Section Summarize.
(** Step 14 of [enhancedSummarize], the rendering of the ordered sentences
    in the requested style (with [lightParaphrase] and its random choices
    fixed): string formatting that does not throw. *)
Variable format : option SummaryStyle -> list ScoredSentence -> string.

Definition enhancedSummarize (fuel : nat) (request : SummarizationRequest)
  : Outcome SummarizationResponse :=
  let scored := scoredSentencesOf (sumText request) in
  let numSentences :=
    numSentencesFor (sumLength request) (List.length scored) in
  match selectSentences fuel numSentences (rank scored) with
  | Some selected =>
      Returned
        {| summary := format (sumStyle request) (inReadingOrder selected) |}
  | None => Running
  end.

Definition summarizeText (fuel : nat) (request : SummarizationRequest)
  : Outcome SummarizationResponse :=
  if Js.isEmpty (Js.trim (sumText request))
  then Thrown "No text provided for summarization"
  else tryCatchRethrow (enhancedSummarize fuel request)
         "Summarization failed".
End Summarize.

(** ** Keyword extractor *)

Record Keyword : Type := { keyword : string; kwScore : Num.t }.

Record KeywordExtractionRequest : Type := {
  kwText : string;
  kwCount : nat;
  kwMethod : string
}.

Record KeywordExtractionResponse : Type := {
  keywords : list Keyword;
  method : string
}.

Definition byKwScoreDescending (a b : Keyword) : bool :=
  Num.descending (kwScore a) (kwScore b).

Definition extractWithStandardTFIDF (text : string) (documents : list string)
  (count : nat) : list Keyword :=
  let tf := calculateTF text in
  let idf := calculateIDF documents in
  let tfidf := calculateTFIDF tf idf in
  firstn count
    (stableSort byKwScoreDescending
       (map (fun e => {| keyword := fst e; kwScore := snd e |}) tfidf)).

(** [STOPWORDS.has(words[i])], false when [words[i]] is [undefined]. *)
Definition stopwordAt (words : list string) (i : nat) : bool :=
  match nth_error words i with
  | Some w => isStopword w
  | None => false
  end.

(** [Math.max(...scores)]; for an empty list the source gets [-Infinity] and
    then maps over the same empty list, so the value is not used. *)
Definition maxOf (scores : list Num.t) : Num.t :=
  match scores with
  | [] => 0
  | x :: rest => fold_left Num.max rest x
  end.

Definition bigramKeywords (text : string) (documents : list string)
  : list Keyword :=
  map (fun pf =>
         {| keyword := fst pf;
            kwScore :=
              Num.Fin (INR (snd pf) / INR (List.length documents) * 1.2) |})
      (filter
         (fun pf =>
            (1 <? snd pf)%nat
            && negb (stopwordAt (Js.splitSingleSpace (fst pf)) 0)
            && negb (stopwordAt (Js.splitSingleSpace (fst pf)) 1))
         (extractPhrases text 2)).

Definition trigramKeywords (text : string) (documents : list string)
  : list Keyword :=
  map (fun pf =>
         {| keyword := fst pf;
            kwScore :=
              Num.Fin (INR (snd pf) / INR (List.length documents) * 1.3) |})
      (filter
         (fun pf =>
            let words := Js.splitSingleSpace (fst pf) in
            negb (stopwordAt words 0)
            && negb (stopwordAt words (List.length words - 1)))
         (filter (fun pf => (1 <? snd pf)%nat) (extractPhrases text 3))).

Definition normalizeBy (maxScore : Num.t) (k : Keyword) : Keyword :=
  {| keyword := keyword k; kwScore := Num.div (kwScore k) maxScore |}.

Definition extractWithEnhancedTFIDF (text : string) (documents : list string)
  (count : nat) : list Keyword :=
  let tfidfKeywords :=
    extractWithStandardTFIDF text documents (ceilTimes count 1.5) in
  let allKeywords :=
    tfidfKeywords ++ bigramKeywords text documents
    ++ trigramKeywords text documents in
  let finalKeywords :=
    firstn count (stableSort byKwScoreDescending allKeywords) in
  let maxScore := maxOf (map kwScore finalKeywords) in
  map (normalizeBy maxScore) finalKeywords.

Definition isPhrase (k : string) : bool := Js.includes k " ".

(** [titleWordCounts[word]] as a condition: an own counter or an inherited
    member. *)
Definition inTitles (titleWordCounts : Rec.t Rec.Counter) (word : string)
  : bool :=
  match Rec.lookup titleWordCounts word with
  | Rec.Own (Rec.Times n) => (0 <? n)%nat
  | Rec.Own Rec.Garbled => true
  | Rec.Inherited => true
  | Rec.Missing => false
  end.

(** [titleWordCounts[word] / titleSentences.length] *)
Definition titleShare (titleWordCounts : Rec.t Rec.Counter)
  (titleCount : nat) (word : string) : Num.t :=
  match Rec.lookup titleWordCounts word with
  | Rec.Own c => Num.div (Num.ofCounter c) (INR titleCount)
  | Rec.Inherited => Num.NaN
  | Rec.Missing => Num.NaN
  end.

(** The boost [extractWithSimulatedBERT] gives a candidate for its words in
    the title sentences. *)
Definition titleBoost (titleWordCounts : Rec.t Rec.Counter)
  (titleCount : nat) (k : Keyword) : Keyword :=
  let boostFactor : Num.t :=
    if negb (isPhrase (keyword k)) && inTitles titleWordCounts (keyword k)
    then
      Num.add 1.0
        (Num.mul 0.4 (titleShare titleWordCounts titleCount (keyword k)))
    else if isPhrase (keyword k) then
      let keywordParts := Js.splitSingleSpace (keyword k) in
      let partsInTitles :=
        List.length (filter (inTitles titleWordCounts) keywordParts) in
      if (0 <? partsInTitles)%nat
      then
        Num.Fin
          (1.0 + 0.3 * (INR partsInTitles / INR (List.length keywordParts)))
      else 1.0
    else 1.0 in
  {| keyword := keyword k; kwScore := Num.mul (kwScore k) boostFactor |}.

(** The loop that drops a candidate contained in one already kept, entered
    with what is left of the sorted candidates. *)
Fixpoint dropSubphrases (count : nat) (candidates : list Keyword)
  (uniqueKeywords : list Keyword) (seen : list string) : list Keyword :=
  match candidates with
  | [] => uniqueKeywords
  | kw :: rest =>
      if existsb (fun seenKw => Js.includes seenKw (keyword kw)) seen
      then dropSubphrases count rest uniqueKeywords seen
      else if (count <=? S (List.length uniqueKeywords))%nat
      then uniqueKeywords ++ [kw]
      else dropSubphrases count rest (uniqueKeywords ++ [kw])
             (seen ++ [keyword kw])
  end.

Definition titleSentencesOf (documents : list string) : list string :=
  map (fun doc => hd "" (tokenizeSentences doc)) documents.

Definition capAtOne (maxScore : Num.t) (k : Keyword) : Keyword :=
  {| keyword := keyword k;
     kwScore := Num.min 1 (Num.div (kwScore k) maxScore) |}.

Definition extractWithSimulatedBERT (text : string) (documents : list string)
  (count : nat) : list Keyword :=
  let tfidfKeywords :=
    extractWithStandardTFIDF text documents (ceilTimes count 1.2) in
  let phraseKeywords :=
    filter (fun k => isPhrase (keyword k))
      (extractWithEnhancedTFIDF text documents (ceilTimes count 0.8)) in
  let titleSentences := titleSentencesOf documents in
  let titleWords :=
    filter keepWord (flat_map tokenizeWords titleSentences) in
  let titleWordCounts := countWords titleWords in
  let boostedKeywords :=
    stableSort byKwScoreDescending
      (map (titleBoost titleWordCounts (List.length titleSentences))
         (tfidfKeywords ++ phraseKeywords)) in
  let uniqueKeywords := dropSubphrases count boostedKeywords [] [] in
  let maxScore := maxOf (map kwScore uniqueKeywords) in
  map (capAtOne maxScore) uniqueKeywords.

Definition enhancedExtractKeywords (request : KeywordExtractionRequest)
  : KeywordExtractionResponse :=
  let text := kwText request in
  let count := kwCount request in
  let paragraphs := paragraphsOf text in
  let documents :=
    if (1 <? List.length paragraphs)%nat then paragraphs
    else tokenizeSentences text in
  let keywords :=
    if String.eqb (kwMethod request) "enhanced_tfidf"
    then extractWithEnhancedTFIDF text documents count
    else if String.eqb (kwMethod request) "bert_based"
    then extractWithSimulatedBERT text documents count
    else if String.eqb (kwMethod request) "standard_tfidf"
    then extractWithStandardTFIDF text documents count
    else extractWithEnhancedTFIDF text documents count in
  {| keywords := keywords;
     method := "enhanced_" ++ kwMethod request |}.

Definition extractKeywords (request : KeywordExtractionRequest)
  : Outcome KeywordExtractionResponse :=
  if Js.isEmpty (Js.trim (kwText request))
  then Thrown "No text provided for keyword extraction"
  else tryCatchRethrow (Returned (enhancedExtractKeywords request))
         "Keyword extraction failed".

(** ** Algorithm recommender *)

Module Recommender.

Local Open Scope Q_scope.

Inductive Priority : Type := speed | quality | balanced.
Inductive Complexity : Type := simple | moderate | complex.

Definition priorityName (p : Priority) : string :=
  match p with
  | speed => "speed"
  | quality => "quality"
  | balanced => "balanced"
  end.

(** [taskType] is kept as the string that [taskTypes.includes(taskType)]
    compares, so that the branch for no compatible algorithm can be
    reached. *)
Record AlgorithmRecommendationRequest : Type := {
  taskType : string;
  textLength : Z;
  contentDomain : option string;
  languageComplexity : option Complexity;
  priorityFactor : Priority;
  specialRequirements : option (list string)
}.

Record Algorithm : Type := {
  name : string;
  taskTypes : list string;
  strengths : list string;
  weaknesses : list string;
  resourceRequirements : string;
  algoQuality : string;
  algoSpeed : string;
  specialFeatures : list string
}.

Definition algorithms : list Algorithm :=
  [ {| name := "enhanced_extractive_tfidf";
       taskTypes := ["summarization"];
       strengths := ["Resource efficiency"; "Speed";
                     "No external API dependency"];
       weaknesses := ["Less coherent than abstractive methods";
                      "Limited understanding of context"];
       resourceRequirements := "low";
       algoQuality := "medium";
       algoSpeed := "high";
       specialFeatures := ["copyright-friendly"; "extractive";
                           "local-processing"] |};
    {| name := "bert_extractive";
       taskTypes := ["summarization"];
       strengths := ["Better semantic understanding"; "Improved coherence";
                     "Good with medium texts"];
       weaknesses := ["Higher resource requirements"; "Slower than TF-IDF";
                      "May require API access"];
       resourceRequirements := "medium";
       algoQuality := "high";
       algoSpeed := "medium";
       specialFeatures := ["contextual-understanding"; "extractive"] |};
    {| name := "bart_abstractive";
       taskTypes := ["summarization"];
       strengths := ["Generates new text"; "Highest coherence";
                     "Best semantic understanding"];
       weaknesses := ["Highest resource requirements"; "Slowest option";
                      "Requires API access"];
       resourceRequirements := "high";
       algoQuality := "very high";
       algoSpeed := "low";
       specialFeatures := ["paraphrasing"; "abstractive";
                           "contextual-understanding"] |};
    {| name := "statistical_mt";
       taskTypes := ["translation"];
       strengths := ["Fast processing"; "Low resource requirements";
                     "Works offline"];
       weaknesses := ["Lower quality than neural methods";
                      "Limited language support"; "Literal translations"];
       resourceRequirements := "low";
       algoQuality := "medium";
       algoSpeed := "high";
       specialFeatures := ["local-processing"] |};
    {| name := "neural_transformer";
       taskTypes := ["translation"];
       strengths := ["High quality translations"; "Preserves context";
                     "Good language support"];
       weaknesses := ["Requires API access"; "Medium processing speed";
                      "Medium cost"];
       resourceRequirements := "medium";
       algoQuality := "high";
       algoSpeed := "medium";
       specialFeatures := ["contextual-understanding"] |};
    {| name := "enhanced_template";
       taskTypes := ["content_generation"];
       strengths := ["Very fast"; "Consistent structure";
                     "No API dependency"];
       weaknesses := ["Limited creativity"; "Repetitive patterns";
                      "Less contextual understanding"];
       resourceRequirements := "low";
       algoQuality := "medium";
       algoSpeed := "very high";
       specialFeatures := ["local-processing"; "copyright-friendly"] |};
    {| name := "fine_tuned_gpt";
       taskTypes := ["content_generation"];
       strengths := ["Highest creativity"; "Natural language flow";
                     "Best contextual understanding"];
       weaknesses := ["API dependency"; "Higher costs";
                      "Potential copyright concerns"];
       resourceRequirements := "high";
       algoQuality := "very high";
       algoSpeed := "low";
       specialFeatures := ["creative"; "contextual-understanding";
                           "coherent"] |};
    {| name := "open_source_llm";
       taskTypes := ["content_generation"];
       strengths := ["Good quality"; "More control"; "Self-hosted option"];
       weaknesses := ["High local resource needs"; "Setup complexity";
                      "Model size limitations"];
       resourceRequirements := "high";
       algoQuality := "high";
       algoSpeed := "medium";
       specialFeatures := ["creative"; "configurable"] |};
    {| name := "enhanced_tfidf";
       taskTypes := ["keyword_extraction"];
       strengths := ["Very efficient"; "Works with any domain";
                     "No external dependencies"];
       weaknesses := ["Misses semantic relationships";
                      "Word frequency bias"; "Less context awareness"];
       resourceRequirements := "very low";
       algoQuality := "medium";
       algoSpeed := "very high";
       specialFeatures := ["local-processing"; "domain-agnostic"] |};
    {| name := "bert_keyword";
       taskTypes := ["keyword_extraction"];
       strengths := ["Semantic understanding"; "Context awareness";
                     "Better phrase extraction"];
       weaknesses := ["Higher resource requirements"; "API dependency";
                      "Slower processing"];
       resourceRequirements := "medium";
       algoQuality := "high";
       algoSpeed := "medium";
       specialFeatures := ["contextual-understanding";
                           "semantic-relationships"] |} ].

(** [xs.includes(x)] on an array of strings *)
Definition has (xs : list string) (x : string) : bool :=
  existsb (String.eqb x) xs.

Definition equals (a b : string) : bool := String.eqb a b.

Definition compatibleAlgorithms (task : string) : list Algorithm :=
  filter (fun algo => has (taskTypes algo) task) algorithms.

Definition tierScore (tier : string) : Q :=
  if equals tier "very high" then 2
  else if equals tier "high" then 1.5
  else if equals tier "medium" then 1
  else 0.5.

Definition highOrVeryHigh (tier : string) : bool :=
  has ["high"; "very high"] tier.

Definition priorityPoints (p : Priority) (algo : Algorithm) : Q :=
  match p with
  | speed => if highOrVeryHigh (algoSpeed algo) then 3 else 0
  | quality => if highOrVeryHigh (algoQuality algo) then 3 else 0
  | balanced => tierScore (algoSpeed algo) + tierScore (algoQuality algo)
  end.

Definition lengthPoints (textLength : Z) (algo : Algorithm) : Q :=
  if (textLength <? 1000)%Z then
    if equals (resourceRequirements algo) "low" then 1 else 0
  else if (5000 <? textLength)%Z then
    (if equals (resourceRequirements algo) "low" then 2 else 0)
    + (if equals (resourceRequirements algo) "medium" then 1 else 0)
  else 0.

Definition complexityPoints (c : option Complexity) (algo : Algorithm) : Q :=
  match c with
  | Some complex => if highOrVeryHigh (algoQuality algo) then 1.5 else 0
  | Some simple => if equals (algoSpeed algo) "high" then 1 else 0
  | _ => 0
  end.

(** [if (contentDomain)]: given and not the empty string. *)
Definition domainGiven (d : option string) : bool :=
  match d with
  | Some s => negb (Js.isEmpty s)
  | None => false
  end.

Definition domainPoints (d : option string) (algo : Algorithm) : Q :=
  if domainGiven d && has (specialFeatures algo) "contextual-understanding"
  then 1 else 0.

(** [req.toLowerCase().replace(/_/g, '-')] *)
Definition featureTag (req : string) : string :=
  Js.str (map (fun c => if (Js.code c =? 95)%nat then ascii_of_nat 45 else c)
            (Js.chars (Js.toLowerCase req))).

Definition requirementPoints (reqs : option (list string)) (algo : Algorithm)
  : Q :=
  match reqs with
  | Some rs =>
      inject_Z (Z.of_nat
        (List.length
           (filter (fun req => has (specialFeatures algo) (featureTag req))
              rs)))
  | None => 0
  end.

Definition scoreOf (request : AlgorithmRecommendationRequest)
  (algo : Algorithm) : Q :=
  priorityPoints (priorityFactor request) algo
  + lengthPoints (textLength request) algo
  + complexityPoints (languageComplexity request) algo
  + domainPoints (contentDomain request) algo
  + requirementPoints (specialRequirements request) algo.

Record Scored : Type := {
  scoredName : string;
  scoredScore : Q;
  scoredStrengths : list string;
  scoredWeaknesses : list string
}.

Definition scoreAlgorithm (request : AlgorithmRecommendationRequest)
  (algo : Algorithm) : Scored :=
  {| scoredName := name algo;
     scoredScore := scoreOf request algo;
     scoredStrengths := strengths algo;
     scoredWeaknesses := weaknesses algo |}.

Definition scoredAlgorithms (request : AlgorithmRecommendationRequest)
  : list Scored :=
  stableSort (fun a b => Qle_bool (scoredScore b) (scoredScore a))
    (map (scoreAlgorithm request) (compatibleAlgorithms (taskType request))).

Definition maxScoreOf (scored : list Scored) : Q :=
  match scored with
  | [] => 0
  | a :: rest => fold_left (fun m b => Qmax m (scoredScore b)) rest
                   (scoredScore a)
  end.

Definition normalize (maxScore : Q) (a : Scored) : Scored :=
  {| scoredName := scoredName a;
     scoredScore := scoredScore a / maxScore;
     scoredStrengths := scoredStrengths a;
     scoredWeaknesses := scoredWeaknesses a |}.

Inductive ParamValue : Type :=
| PText (s : string)
| PNumber (n : nat).

Definition suggestedParametersFor (request : AlgorithmRecommendationRequest)
  (recommended : string) : list (string * ParamValue) :=
  let len := textLength request in
  let isComplex :=
    match languageComplexity request with Some complex => true | _ => false end
  in
  let isQuality :=
    match priorityFactor request with quality => true | _ => false end in
  let isSpeed :=
    match priorityFactor request with speed => true | _ => false end in
  if equals recommended "enhanced_extractive_tfidf" then
    [ ("method", PText "enhanced_tfidf");
      ("length", PText (if (3000 <? len)%Z then "short"
                        else if (1000 <? len)%Z then "medium" else "long"));
      ("style", PText (if isComplex then "simplified" else "informative")) ]
  else if equals recommended "enhanced_template" then
    [ ("creativityLevel", PNumber (if isQuality then 80 else 50));
      ("length", PText (if (3000 <? len)%Z then "Long (600+ words)"
                        else if (1000 <? len)%Z
                        then "Medium (300-500 words)"
                        else "Short (100-200 words)"));
      ("tone", PText (if isComplex then "Technical"
                      else match contentDomain request with
                           | Some d => if equals d "marketing"
                                       then "Enthusiastic" else "Professional"
                           | None => "Professional"
                           end)) ]
  else if equals recommended "enhanced_tfidf" then
    [ ("count", PNumber (if (3000 <? len)%Z then 15 else 10));
      ("method", PText "enhanced_tfidf") ]
  else
    [ ("quality", PText (if isQuality then "high" else "medium"));
      ("speed", PText (if isSpeed then "high" else "medium")) ].

Definition explanationFor (request : AlgorithmRecommendationRequest)
  (recommended : string) : string :=
  ("Based on your requirements for " ++ taskType request
   ++ " with priority on " ++ priorityName (priorityFactor request) ++ ", "
   ++ "I recommend using the " ++ recommended ++ " algorithm. "
   ++ match priorityFactor request with
      | speed =>
          "This algorithm offers excellent processing speed while maintaining acceptable quality. "
      | quality =>
          "This algorithm provides the best output quality for your specific needs. "
      | balanced =>
          "This algorithm offers a good balance between processing speed and output quality. "
      end
   ++ match specialRequirements request with
      | Some (r :: rs) =>
          "It also addresses your special requirements for "
          ++ Js.join ", " (r :: rs) ++ ". "
      | _ => ""
      end)%string.

Record AlgorithmRecommendationResponse : Type := {
  recommendedAlgorithm : string;
  confidence : Q;
  alternativeAlgorithms : list Scored;
  suggestedParameters : list (string * ParamValue);
  explanation : string
}.

(** The body of the [try] block. *)
Definition recommendBody (request : AlgorithmRecommendationRequest)
  : Outcome AlgorithmRecommendationResponse :=
  match scoredAlgorithms request with
  | [] =>
      Thrown ("No compatible algorithms found for task type: "
              ++ taskType request)
  | recommended :: others =>
      let maxScore := maxScoreOf (recommended :: others) in
      let normalizedAlgorithms :=
        map (normalize maxScore) (recommended :: others) in
      Returned
        {| recommendedAlgorithm := scoredName recommended;
           confidence := scoredScore (normalize maxScore recommended);
           alternativeAlgorithms := firstn 2 (skipn 1 normalizedAlgorithms);
           suggestedParameters :=
             suggestedParametersFor request (scoredName recommended);
           explanation := explanationFor request (scoredName recommended) |}
  end.

Definition recommendAlgorithm (request : AlgorithmRecommendationRequest)
  : Outcome AlgorithmRecommendationResponse :=
  tryCatchRethrow (recommendBody request)
    "Failed to generate algorithm recommendation".

End Recommender.

(** ** Translation (simulated) *)

Module Translation.

Record TranslationRequest : Type := {
  text : string;
  sourceLanguage : string;
  targetLanguage : string;
  formality : option string;
  domain : option string
}.

Record TranslationResponse : Type := {
  translatedText : string;
  characterCount : nat
}.

(** A one-character string, for the letters of the dictionaries beyond
    ASCII. *)
Definition unit (codePoint : nat) : string :=
  String (ascii_of_nat codePoint) "".

Local Infix "+++" := String.append (at level 60, right associativity).

Definition languagePrefixes : Rec.t string :=
  [ ("Spanish", "es"); ("French", "fr"); ("German", "de");
    ("Chinese", "zh"); ("Russian", "ru"); ("English", "en") ].

Definition spanish : Rec.t string :=
  [ ("the", "el"); ("a", "un"); ("is", "es"); ("for", "para");
    ("hello", "hola"); ("world", "mundo"); ("thank", "gracias");
    ("you", "t" +++ unit 250); ("good", "bueno");
    ("morning", "ma" +++ unit 241 +++ "ana"); ("night", "noche");
    ("day", "d" +++ unit 237 +++ "a"); ("today", "hoy");
    ("tomorrow", "ma" +++ unit 241 +++ "ana"); ("yes", "s" +++ unit 237);
    ("no", "no"); ("please", "por favor"); ("welcome", "bienvenido");
    ("goodbye", "adi" +++ unit 243 +++ "s") ].

Definition french : Rec.t string :=
  [ ("the", "le"); ("a", "un"); ("is", "est"); ("for", "pour");
    ("hello", "bonjour"); ("world", "monde"); ("thank", "merci");
    ("you", "vous"); ("good", "bon"); ("morning", "matin");
    ("night", "nuit"); ("day", "jour"); ("today", "aujourd'hui");
    ("tomorrow", "demain"); ("yes", "oui"); ("no", "non");
    ("please", "s'il vous pla" +++ unit 238 +++ "t");
    ("welcome", "bienvenue"); ("goodbye", "au revoir") ].

Definition translationMap : Rec.t (Rec.t string) :=
  [ ("es", spanish); ("fr", french) ].

(** [toUpperCase] on one code unit; as for [Js.lowerChar], only the letters
    a-z are mapped: it is applied to the language prefixes, to the first
    letter of a dictionary entry and to the first letter of a word whose
    lower-case form is a dictionary key. *)
Definition upperChar (c : ascii) : ascii :=
  if Js.isLower c then ascii_of_nat (Js.code c - 32) else c.

Definition toUpperCase (s : string) : string :=
  Js.str (map upperChar (Js.chars s)).

(** [m.charAt(0).toUpperCase() + m.slice(1)] *)
Definition capitalize (m : string) : string :=
  match m with
  | EmptyString => ""
  | String c rest => String (upperChar c) rest
  end.

(** [word[0] === word[0].toUpperCase()] on a word that is not empty. *)
Definition startsUpper (word : string) : bool :=
  match word with
  | EmptyString => false
  | String c _ => Ascii.eqb c (upperChar c)
  end.

(** A dictionary entry is used when it is not the empty string. *)
Definition translateWord (map : Rec.t string) (word : string) : string :=
  match Rec.get map (Js.toLowerCase word) with
  | Some entry =>
      if Js.isEmpty entry then word
      else if startsUpper word then capitalize entry else entry
  | None => word
  end.

Definition prefixOf (language : string) : string :=
  match Rec.get languagePrefixes language with
  | Some p => p
  | None => ""
  end.

Definition simulateTranslation (request : TranslationRequest)
  : TranslationResponse :=
  let prefix := prefixOf (targetLanguage request) in
  match (if Js.isEmpty prefix then None else Rec.get translationMap prefix) with
  | Some map =>
      {| translatedText :=
           Js.join " "
             (List.map (translateWord map) (Js.splitWhitespace (text request)));
         characterCount := Js.len (text request) |}
  | None =>
      {| translatedText := "[" +++ toUpperCase prefix +++ "] " +++ text request;
         characterCount := Js.len (text request) |}
  end.

Definition translateText (request : TranslationRequest)
  : Outcome TranslationResponse :=
  if Js.isEmpty (Js.trim (text request))
  then Thrown "No text provided for translation"
  else tryCatchRethrow (Returned (simulateTranslation request))
         "Translation failed".

End Translation.

(** * Properties *)

(** ** Entry points: errors and the method label *)

Lemma extractKeywords_nonblank (request : KeywordExtractionRequest) :
  Js.isEmpty (Js.trim (kwText request)) = false ->
  extractKeywords request = Returned (enhancedExtractKeywords request).
Proof.
  intros Hblank. unfold extractKeywords. rewrite Hblank. reflexivity.
Qed.

Lemma string_length_append (p s : string) :
  String.length (p ++ s) = (String.length p + String.length s)%nat.
Proof.
  induction p as [|c p IH]; simpl; [reflexivity | now rewrite IH].
Qed.

Lemma append_neq_self (p s : string) : p <> "" -> (p ++ s)%string <> s.
Proof.
  intros Hp Heq.
  assert (Hlen : String.length (p ++ s) = String.length s)
    by (rewrite Heq; reflexivity).
  rewrite string_length_append in Hlen.
  destruct p as [|c p']; [congruence | simpl in Hlen; lia].
Qed.

(** C10: a successful [extractKeywords] call answers with the method label
    "enhanced_" followed by the requested method, which is never the
    requested method itself. *)
Theorem extractKeywords_method_label (request : KeywordExtractionRequest)
  (response : KeywordExtractionResponse) :
  extractKeywords request = Returned response ->
  method response = ("enhanced_" ++ kwMethod request)%string
  /\ method response <> kwMethod request.
Proof.
  unfold extractKeywords.
  destruct (Js.isEmpty (Js.trim (kwText request))); [discriminate|].
  simpl. intros H. injection H as <-. split; [reflexivity|].
  apply (append_neq_self "enhanced_"). discriminate.
Qed.

Definition scenario2 : KeywordExtractionRequest :=
  {| kwText := "data science data analysis data mining";
     kwCount := 2;
     kwMethod := "standard_tfidf" |}.

Lemma extractKeywords_method_label_witness :
  method (enhancedExtractKeywords scenario2) = "enhanced_standard_tfidf"
  /\ method (enhancedExtractKeywords scenario2) <> "standard_tfidf".
Proof.
  apply (extractKeywords_method_label scenario2).
  apply extractKeywords_nonblank. vm_compute. reflexivity.
Defined.

(** C8: [summarizeText] and [extractKeywords] throw exactly on a text that is
    empty after trimming, and [recommendAlgorithm] throws when no algorithm
    lists the requested task type. *)
Theorem entry_points_reject_blank_and_unknown_task :
  (forall format fuel request,
      isThrown (summarizeText format fuel request) = true
      <-> Js.isEmpty (Js.trim (sumText request)) = true)
  /\ (forall request,
         isThrown (extractKeywords request) = true
         <-> Js.isEmpty (Js.trim (kwText request)) = true)
  /\ (forall request,
         Recommender.compatibleAlgorithms (Recommender.taskType request) = []
         -> isThrown (Recommender.recommendAlgorithm request) = true).
Proof.
  split; [|split].
  - intros format fuel request. unfold summarizeText.
    destruct (Js.isEmpty (Js.trim (sumText request))); simpl.
    + tauto.
    + unfold enhancedSummarize.
      destruct (selectSentences _ _ _); simpl; split; discriminate.
  - intros request. unfold extractKeywords.
    destruct (Js.isEmpty (Js.trim (kwText request))); simpl; tauto.
  - intros request Hnone.
    unfold Recommender.recommendAlgorithm, Recommender.recommendBody,
      Recommender.scoredAlgorithms.
    rewrite Hnone. reflexivity.
Qed.

Definition unknownTask : Recommender.AlgorithmRecommendationRequest :=
  {| Recommender.taskType := "sentiment_analysis";
     Recommender.textLength := 1200;
     Recommender.contentDomain := None;
     Recommender.languageComplexity := None;
     Recommender.priorityFactor := Recommender.balanced;
     Recommender.specialRequirements := None |}.

Lemma entry_points_reject_witness :
  isThrown (Recommender.recommendAlgorithm unknownTask) = true.
Proof.
  apply (proj2 (proj2 entry_points_reject_blank_and_unknown_task)).
  reflexivity.
Defined.

(** ** Recommender *)

Definition scenario3 : Recommender.AlgorithmRecommendationRequest :=
  {| Recommender.taskType := "keyword_extraction";
     Recommender.textLength := 6000;
     Recommender.contentDomain := None;
     Recommender.languageComplexity := None;
     Recommender.priorityFactor := Recommender.speed;
     Recommender.specialRequirements := None |}.

(** C9: for a keyword extraction request of text length 6000 with priority
    on speed and no optional field, enhanced_tfidf scores 3 (the speed bonus)
    and bert_keyword scores 1 (the long-text bonus of a medium resource
    tier), and enhanced_tfidf is the recommended algorithm. *)
Theorem recommend_speed_keyword_extraction :
  map (fun a => (Recommender.scoredName a, Recommender.scoredScore a))
      (Recommender.scoredAlgorithms scenario3)
  = [("enhanced_tfidf", 3%Q); ("bert_keyword", 1%Q)]
  /\ (1 < 3)%Q
  /\ exists response,
      Recommender.recommendAlgorithm scenario3 = Returned response
      /\ Recommender.recommendedAlgorithm response = "enhanced_tfidf".
Proof.
  split; [vm_compute; reflexivity|].
  split; [reflexivity|].
  eexists. split; [vm_compute; reflexivity | reflexivity].
Qed.

(** ** Records *)

Lemma get_set_same {V} (r : Rec.t V) (k : string) (v : V) :
  Rec.get (Rec.set r k v) k = Some v.
Proof.
  induction r as [|[k' v'] r IH]; simpl.
  - now rewrite String.eqb_refl.
  - destruct (String.eqb k k') eqn:E; simpl; rewrite E; [reflexivity | exact IH].
Qed.

Lemma get_set_other {V} (r : Rec.t V) (k k' : string) (v : V) :
  k <> k' -> Rec.get (Rec.set r k v) k' = Rec.get r k'.
Proof.
  intros Hne. induction r as [|[k0 v0] r IH]; simpl.
  - destruct (String.eqb_spec k' k); [congruence | reflexivity].
  - destruct (String.eqb_spec k k0) as [->|Hk]; simpl.
    + destruct (String.eqb_spec k' k0); [congruence | reflexivity].
    + now rewrite IH.
Qed.

Lemma get_app {V} (a b : Rec.t V) (k : string) :
  Rec.get (a ++ b) k
  = match Rec.get a k with Some v => Some v | None => Rec.get b k end.
Proof.
  induction a as [|[k' v'] a IH]; simpl; [reflexivity|].
  destruct (String.eqb k k'); [reflexivity | exact IH].
Qed.

(** After [{ ...a }] and the assignments of [b], a key holds the value of
    its last assignment, or else what [a] held. *)
Lemma get_assign {V} (a b : Rec.t V) (k : string) :
  Rec.get (Rec.assign a b) k
  = match Rec.get (rev b) k with Some v => Some v | None => Rec.get a k end.
Proof.
  unfold Rec.assign. revert a.
  induction b as [|[k1 v1] b IH]; intros a; simpl; [reflexivity|].
  rewrite IH, get_app. destruct (Rec.get (rev b) k); [reflexivity|].
  simpl. destruct (String.eqb_spec k k1) as [->|Hne].
  - apply get_set_same.
  - apply get_set_other. congruence.
Qed.

Lemma keys_set {V} (r : Rec.t V) (k : string) (v : V) :
  Rec.keys (Rec.set r k v)
  = if existsb (String.eqb k) (Rec.keys r) then Rec.keys r
    else Rec.keys r ++ [k].
Proof.
  unfold Rec.keys.
  induction r as [|[k' v'] r IH]; simpl; [reflexivity|].
  destruct (String.eqb_spec k k') as [->|Hne]; simpl; [reflexivity|].
  rewrite IH. destruct (existsb _ _); reflexivity.
Qed.

Lemma existsb_eqb_In (k : string) (ks : list string) :
  existsb (String.eqb k) ks = true <-> In k ks.
Proof.
  rewrite existsb_exists. split.
  - intros [x [Hin Heq]]. apply String.eqb_eq in Heq. now subst.
  - intros Hin. exists k. split; [assumption | apply String.eqb_refl].
Qed.

Lemma NoDup_keys_set {V} (r : Rec.t V) (k : string) (v : V) :
  NoDup (Rec.keys r) -> NoDup (Rec.keys (Rec.set r k v)).
Proof.
  intros Hnd. rewrite keys_set.
  destruct (existsb (String.eqb k) (Rec.keys r)) eqn:E; [assumption|].
  apply NoDup_app; [assumption | repeat constructor; intros [] | ].
  intros x Hx [<-|[]]. apply existsb_eqb_In in Hx. congruence.
Qed.

Lemma get_In {V} (r : Rec.t V) (k : string) (v : V) :
  Rec.get r k = Some v -> In (k, v) r.
Proof.
  induction r as [|[k' v'] r IH]; simpl; [discriminate|].
  destruct (String.eqb_spec k k') as [->|Hne].
  - intros [= ->]. now left.
  - intros H. right. now apply IH.
Qed.

Lemma In_get {V} (r : Rec.t V) (k : string) (v : V) :
  NoDup (Rec.keys r) -> In (k, v) r -> Rec.get r k = Some v.
Proof.
  induction r as [|[k' v'] r IH]; simpl; [intros _ []|].
  intros Hnd [Heq|Hin].
  - injection Heq as -> ->. now rewrite String.eqb_refl.
  - inversion Hnd as [|? ? Hnotin Hnd']; subst.
    destruct (String.eqb_spec k k') as [->|Hne].
    + exfalso. apply Hnotin. apply (in_map fst) in Hin. exact Hin.
    + now apply IH.
Qed.

Lemma get_None_keys {V} (r : Rec.t V) (k : string) :
  Rec.get r k = None <-> ~ In k (Rec.keys r).
Proof.
  induction r as [|[k' v'] r IH]; simpl; [tauto|].
  destruct (String.eqb_spec k k') as [->|Hne].
  - split; [discriminate | intros H; exfalso; apply H; now left].
  - rewrite IH. split; [intros H [Heq|Hin]; [congruence | tauto] | tauto].
Qed.

Lemma get_map_values {V W} (f : string -> V -> W) (r : Rec.t V) (k : string) :
  Rec.get (map (fun kv => (fst kv, f (fst kv) (snd kv))) r) k
  = option_map (f k) (Rec.get r k).
Proof.
  induction r as [|[k' v'] r IH]; simpl; [reflexivity|].
  destruct (String.eqb_spec k k') as [->|Hne]; [reflexivity | exact IH].
Qed.

(** ** [split(/\\s+/)] on text without a backslash *)

Definition noBackslash (s : string) : bool :=
  forallb (fun c => negb (Js.code c =? 92)%nat) (Js.chars s).

Lemma splitBackslashS_none (cur cs : list ascii) :
  forallb (fun c => negb (Js.code c =? 92)%nat) cs = true ->
  Js.splitBackslashS false cur cs = [rev cur ++ cs].
Proof.
  revert cur. induction cs as [|c cs IH]; intros cur; simpl.
  - now rewrite app_nil_r.
  - intros H. apply andb_prop in H as [Hc Hcs].
    apply negb_true_iff in Hc. rewrite Hc, IH by exact Hcs.
    simpl. now rewrite <- app_assoc.
Qed.

Lemma splitLiteralBackslashS_none (s : string) :
  noBackslash s = true -> Js.splitLiteralBackslashS s = [s].
Proof.
  intros H. unfold Js.splitLiteralBackslashS.
  rewrite splitBackslashS_none by exact H. simpl.
  unfold Js.str, Js.chars. now rewrite string_of_list_ascii_of_string.
Qed.

(** The length factor of a sentence that holds no backslash is 0.7, however
    many words it has. *)
Lemma lengthFactor_no_backslash (s : string) :
  noBackslash s = true -> lengthFactor s = 0.7.
Proof.
  intros H. unfold lengthFactor, sentenceLength.
  rewrite splitLiteralBackslashS_none by exact H. reflexivity.
Qed.

Lemma phraseWeight_no_backslash (documentCount : nat) (phrase : string)
  (count : nat) :
  noBackslash phrase = true ->
  phraseWeight documentCount phrase count
  = INR count / INR documentCount * 1.5.
Proof.
  intros H. unfold phraseWeight, phraseWordCount.
  rewrite splitLiteralBackslashS_none by exact H. simpl. lra.
Qed.

(** ** C4 and C3 on concrete inputs *)

Definition foxSentence : string :=
  "The quick brown fox jumps over the lazy dog.".

(** C4, as the code behaves: a sentence of nine words gets the word count 1
    from [split(/\\s+/)] and hence the factor 0.7, not 1.0. *)
Theorem lengthFactor_of_nine_words :
  List.length (tokenizeWords foxSentence) = 9%nat
  /\ List.length (Js.splitWhitespace foxSentence) = 9%nat
  /\ sentenceLength foxSentence = 1%nat
  /\ lengthFactor foxSentence = 0.7
  /\ lengthFactor foxSentence <> 1.0.
Proof.
  assert (H : lengthFactor foxSentence = 0.7)
    by (apply lengthFactor_no_backslash; vm_compute; reflexivity).
  repeat split; try (vm_compute; reflexivity); rewrite H; try reflexivity.
  lra.
Qed.

Definition modelsText : string :=
  "Machine learning models improve. Machine learning models scale.".

(** C3, as the code behaves: the phrase "machine learning models", counted
    twice in two documents, is entered with weight (2/2) * 1 * 1.5 = 1.5;
    the claimed weight is (2/2) * (1 + (3-1)*0.25) * 1.5 = 2.25. *)
Theorem keywordScores_of_repeated_trigram :
  List.length (documentsOf modelsText (tokenizeSentences modelsText)) = 2%nat
  /\ Rec.get (extractPhrases modelsText 3) "machine learning models"
     = Some 2%nat
  /\ List.length (Js.splitSingleSpace "machine learning models") = 3%nat
  /\ exists weight,
      Rec.get (keywordScoresOf modelsText (tokenizeSentences modelsText))
        "machine learning models" = Some weight
      /\ weight = 1.5
      /\ weight <> (2 / 2) * (1 + (3 - 1) * 0.25) * 1.5.
Proof.
  split; [vm_compute; reflexivity|].
  split; [vm_compute; reflexivity|].
  split; [vm_compute; reflexivity|].
  exists (phraseWeight 2 "machine learning models" 2).
  split.
  - unfold keywordScoresOf. rewrite get_assign.
    replace (List.length (documentsOf modelsText (tokenizeSentences modelsText)))
      with 2%nat by (vm_compute; reflexivity).
    replace (extractPhrases modelsText 3)
      with [("machine learning models", 2%nat);
            ("learning models improve", 1%nat);
            ("models improve machine", 1%nat);
            ("improve machine learning", 1%nat);
            ("learning models scale", 1%nat)]
      by (vm_compute; reflexivity).
    reflexivity.
  - rewrite phraseWeight_no_backslash by (vm_compute; reflexivity).
    simpl. split; [f_equal; lra | intros E; injection E; lra].
Qed.

(** ** The stable sort *)

Section StableSortFacts.
Context {A : Type}.
Variable inOrder : A -> A -> bool.

Lemma insertSorted_perm (a : A) (l : list A) :
  Permutation (insertSorted inOrder a l) (a :: l).
Proof.
  induction l as [|b l IH]; simpl; [reflexivity|].
  destruct (inOrder a b); [reflexivity|].
  rewrite IH. apply perm_swap.
Qed.

Lemma stableSort_perm (l : list A) : Permutation (stableSort inOrder l) l.
Proof.
  induction l as [|a l IH]; simpl; [reflexivity|].
  rewrite insertSorted_perm. now constructor.
Qed.

Lemma stableSort_length (l : list A) :
  List.length (stableSort inOrder l) = List.length l.
Proof. apply Permutation_length, stableSort_perm. Qed.

Hypothesis inOrder_total :
  forall a b, inOrder a b = true \/ inOrder b a = true.

Let ordered (a b : A) : Prop := inOrder a b = true.

Lemma insertSorted_sorted (a : A) (l : list A) :
  Sorted ordered l -> Sorted ordered (insertSorted inOrder a l).
Proof.
  induction l as [|b l IH]; simpl; intros Hs.
  - repeat constructor.
  - destruct (inOrder a b) eqn:E.
    + constructor; [exact Hs | constructor; exact E].
    + inversion Hs as [|? ? Hs' Hhd]; subst.
      constructor; [now apply IH|].
      destruct l as [|c l]; simpl.
      * constructor. destruct (inOrder_total a b); [congruence | assumption].
      * destruct (inOrder a c).
        -- constructor. destruct (inOrder_total a b); [congruence | assumption].
        -- inversion Hhd; subst. now constructor.
Qed.

Lemma stableSort_sorted (l : list A) : Sorted ordered (stableSort inOrder l).
Proof.
  induction l as [|a l IH]; simpl; [constructor|].
  now apply insertSorted_sorted.
Qed.

End StableSortFacts.

(** ** Tokenizers *)

Definition nonSpace (c : ascii) : bool := negb (Js.isSpace c).

Definition visible (cs : list ascii) : list ascii := filter nonSpace cs.

Lemma chars_str (cs : list ascii) : Js.chars (Js.str cs) = cs.
Proof. apply list_ascii_of_string_of_list_ascii. Qed.


Lemma visible_app (a b : list ascii) : visible (a ++ b) = visible a ++ visible b.
Proof. apply filter_app. Qed.

Lemma visible_spaces (cs : list ascii) :
  forallb Js.isSpace cs = true -> visible cs = [].
Proof.
  induction cs as [|c cs IH]; simpl; [reflexivity|].
  intros H. apply andb_prop in H as [Hc Hcs].
  unfold nonSpace. rewrite Hc. simpl. now apply IH.
Qed.

Lemma visible_nil_spaces (cs : list ascii) :
  visible cs = [] -> forallb Js.isSpace cs = true.
Proof.
  induction cs as [|c cs IH]; simpl; [reflexivity|].
  unfold nonSpace. destruct (Js.isSpace c); simpl; [exact IH | discriminate].
Qed.

Lemma forallb_rev {A} (p : A -> bool) (l : list A) :
  forallb p (rev l) = forallb p l.
Proof.
  induction l as [|a l IH]; simpl; [reflexivity|].
  rewrite forallb_app, IH. simpl. rewrite andb_true_r. apply andb_comm.
Qed.

Lemma visible_rev_spaces (buf : list ascii) :
  forallb Js.isSpace buf = true -> visible (rev buf) = [].
Proof. intros H. apply visible_spaces. now rewrite forallb_rev. Qed.

Lemma visible_cons_space (c : ascii) (cs : list ascii) :
  Js.isSpace c = true -> visible (c :: cs) = visible cs.
Proof. intros H. unfold visible, nonSpace. simpl. now rewrite H. Qed.

Lemma visible_cons_nonspace (c : ascii) (cs : list ascii) :
  Js.isSpace c = false -> visible (c :: cs) = c :: visible cs.
Proof. intros H. unfold visible, nonSpace. simpl. now rewrite H. Qed.

Lemma visible_newline (cs : list ascii) : visible (Js.newline :: cs) = visible cs.
Proof. now apply visible_cons_space. Qed.

Lemma visible_space (cs : list ascii) : visible (Js.space :: cs) = visible cs.
Proof. now apply visible_cons_space. Qed.

Ltac visible_steps :=
  cbn [fst snd app];
  repeat
    (rewrite visible_app
     || rewrite visible_newline
     || rewrite visible_space
     || (rewrite visible_rev_spaces by assumption)
     || (rewrite visible_cons_space by assumption)
     || (rewrite visible_cons_nonspace by assumption));
  cbn [app].

(** None of the three replacements of [tokenizeSentences] touches a
    character that is not white space. *)
Lemma breakAfterTerminators_visible (cs : list ascii)
  (pending : option (list ascii)) :
  match pending with
  | Some buf => forallb Js.isSpace buf = true
  | None => True
  end ->
  visible (transduce terminatorStep terminatorFlush pending cs) = visible cs.
Proof.
  revert pending. induction cs as [|c cs IH]; intros pending Hbuf;
    cbn [transduce].
  - destruct pending as [buf|]; cbn [terminatorFlush];
      [now apply visible_rev_spaces | reflexivity].
  - assert (Hplain : match afterPlain c with
                     | Some buf => forallb Js.isSpace buf = true
                     | None => True
                     end)
      by (unfold afterPlain; now destruct (isTerminator c)).
    set (run := transduce terminatorStep terminatorFlush) in *.
    unfold terminatorStep.
    destruct pending as [buf|]; destruct (Js.isSpace c) eqn:Hc;
      try destruct (Js.isUpper c); visible_steps;
      rewrite IH; try reflexivity; try assumption; try exact I;
      cbn [forallb]; rewrite Hc; exact Hbuf.
Qed.

Lemma padInitials_visible (cs : list ascii) (st : Scan) :
  visible (transduce initialStep initialFlush st cs) = visible cs.
Proof.
  revert st. induction cs as [|c cs IH]; intros st; cbn [transduce].
  - destruct st; reflexivity.
  - set (run := transduce initialStep initialFlush) in *.
    unfold initialStep.
    destruct st; destruct (Js.isSpace c) eqn:Hc; visible_steps;
      rewrite IH; reflexivity.
Qed.

Lemma breakAfterAbbreviations_visible (cs : list ascii) (st : Scan) :
  match st with
  | AfterDot ws => forallb Js.isSpace ws = true
  | _ => True
  end ->
  visible (transduce abbreviationStep abbreviationFlush st cs) = visible cs.
Proof.
  revert st. induction cs as [|c cs IH]; intros st Hws; cbn [transduce].
  - destruct st; cbn [abbreviationFlush]; try reflexivity.
    now apply visible_rev_spaces.
  - assert (Hword : match afterWordOrNot c with
                    | AfterDot ws => forallb Js.isSpace ws = true
                    | _ => True
                    end)
      by (unfold afterWordOrNot; now destruct (Js.isWordChar c)).
    assert (Hstart : match abbreviationStart c with
                     | AfterDot ws => forallb Js.isSpace ws = true
                     | _ => True
                     end)
      by (unfold abbreviationStart; now destruct (Js.isLetter c)).
    set (run := transduce abbreviationStep abbreviationFlush) in *.
    unfold abbreviationStep.
    destruct st as [| | |ws]; destruct (Js.isSpace c) eqn:Hc;
      try destruct ws as [|w ws'];
      try destruct (Js.isUpper c);
      try destruct (Js.isLetter c);
      try destruct (isDot c);
      visible_steps; rewrite IH; try reflexivity; try assumption;
      try exact I; cbn [forallb]; rewrite Hc; exact Hws.
Qed.

Lemma prepare_visible (text : string) :
  visible (Js.chars (prepare text)) = visible (Js.chars text).
Proof.
  unfold prepare, breakAfterAbbreviations, padInitials, breakAfterTerminators.
  rewrite chars_str.
  rewrite breakAfterAbbreviations_visible by exact I.
  rewrite padInitials_visible.
  now rewrite breakAfterTerminators_visible.
Qed.

Lemma splitAtChar_concat (sep : ascii -> bool) (cur cs : list ascii) :
  List.concat (Js.splitAtChar sep cur cs)
  = rev cur ++ filter (fun c => negb (sep c)) cs.
Proof.
  revert cur. induction cs as [|c cs IH]; intros cur; simpl.
  - now rewrite !app_nil_r.
  - destruct (sep c); simpl.
    + rewrite IH. reflexivity.
    + rewrite IH. simpl. now rewrite <- app_assoc.
Qed.

Lemma isNewline_isSpace (c : ascii) :
  Js.isNewline c = true -> Js.isSpace c = true.
Proof.
  unfold Js.isNewline, Js.isSpace. intros H. apply Nat.eqb_eq in H.
  rewrite H. reflexivity.
Qed.

Lemma visible_without_newlines (cs : list ascii) :
  visible (filter (fun c => negb (Js.isNewline c)) cs) = visible cs.
Proof.
  induction cs as [|c cs IH]; [reflexivity|]. cbn [filter].
  destruct (Js.isNewline c) eqn:Hn; cbn [negb].
  - rewrite (visible_cons_space c cs) by now apply isNewline_isSpace.
    exact IH.
  - destruct (Js.isSpace c) eqn:Hc.
    + now rewrite !visible_cons_space by exact Hc.
    + rewrite !visible_cons_nonspace by exact Hc. now rewrite IH.
Qed.

Lemma dropSpaces_nil (cs : list ascii) :
  Js.dropSpaces cs = [] <-> forallb Js.isSpace cs = true.
Proof.
  induction cs as [|c cs IH]; simpl; [tauto|].
  destruct (Js.isSpace c); simpl; [exact IH|].
  split; discriminate.
Qed.

Lemma dropSpaces_head (cs : list ascii) :
  match Js.dropSpaces cs with
  | [] => True
  | c :: _ => Js.isSpace c = false
  end.
Proof.
  induction cs as [|c cs IH]; simpl; [exact I|].
  destruct (Js.isSpace c) eqn:Hc; [exact IH | exact Hc].
Qed.

(** [s.trim()] is empty exactly when [s] holds white space only. *)
Lemma trim_empty_iff (s : string) :
  Js.isEmpty (Js.trim s) = true <-> forallb Js.isSpace (Js.chars s) = true.
Proof.
  unfold Js.isEmpty, Js.trim, Js.len, Js.trimChars.
  rewrite Nat.eqb_eq. set (cs := Js.chars s).
  assert (Hlen : forall l, String.length (Js.str l) = List.length l).
  { induction l as [|a l IH]; simpl; [reflexivity | now rewrite IH]. }
  rewrite Hlen, length_rev. rewrite length_zero_iff_nil.
  rewrite dropSpaces_nil, forallb_rev. split.
  - intros H. apply dropSpaces_nil.
    pose proof (dropSpaces_head cs) as Hhead.
    destruct (Js.dropSpaces cs) as [|c rest]; [reflexivity|].
    simpl in H. rewrite Hhead in H. discriminate.
  - intros H. apply dropSpaces_nil in H. rewrite H. reflexivity.
Qed.

Lemma nonblank_filter_visible (pieces : list (list ascii)) :
  visible
    (List.concat
       (map Js.chars
          (filter (fun s => (0 <? Js.len (Js.trim s))%nat)
             (map Js.str pieces))))
  = visible (List.concat pieces).
Proof.
  induction pieces as [|p pieces IH]; simpl; [reflexivity|].
  rewrite visible_app, <- IH.
  destruct (0 <? Js.len (Js.trim (Js.str p)))%nat eqn:E; simpl.
  - now rewrite chars_str, visible_app.
  - assert (Hblank : Js.isEmpty (Js.trim (Js.str p)) = true).
    { unfold Js.isEmpty. apply Nat.ltb_ge in E. apply Nat.eqb_eq. lia. }
    apply trim_empty_iff in Hblank. rewrite chars_str in Hblank.
    now rewrite (visible_spaces p Hblank).
Qed.

(** Sentence segmentation only moves white space: read one after the other,
    the sentences spell the characters of the text that are not white
    space, in their order. *)
Theorem tokenizeSentences_keeps_visible_text (text : string) :
  visible (List.concat (map Js.chars (tokenizeSentences text)))
  = visible (Js.chars text).
Proof.
  unfold tokenizeSentences, Js.splitLines.
  rewrite nonblank_filter_visible, splitAtChar_concat. simpl.
  now rewrite visible_without_newlines, prepare_visible.
Qed.

(** A text that is not blank has at least one sentence, and no sentence is
    blank. *)
Theorem tokenizeSentences_nonempty (text : string) :
  Js.isEmpty (Js.trim text) = false ->
  tokenizeSentences text <> []
  /\ forall s, In s (tokenizeSentences text) ->
               Js.isEmpty (Js.trim s) = false.
Proof.
  intros Hblank. split.
  - intros Hnil.
    assert (Hvis : visible (List.concat (map Js.chars (tokenizeSentences text)))
                   = visible (Js.chars text)).
    { unfold tokenizeSentences, Js.splitLines.
      rewrite nonblank_filter_visible, splitAtChar_concat. simpl.
      now rewrite visible_without_newlines, prepare_visible. }
    rewrite Hnil in Hvis. simpl in Hvis. symmetry in Hvis.
    apply visible_nil_spaces, trim_empty_iff in Hvis. congruence.
  - intros s Hs. unfold tokenizeSentences in Hs.
    apply filter_In in Hs as [_ Hs]. unfold Js.isEmpty.
    apply Nat.ltb_lt in Hs. apply Nat.eqb_neq. lia.
Qed.

Lemma tokenizeSentences_nonempty_witness :
  tokenizeSentences "Cats purr. Dogs bark." <> []
  /\ forall s, In s (tokenizeSentences "Cats purr. Dogs bark.") ->
               Js.isEmpty (Js.trim s) = false.
Proof.
  apply (tokenizeSentences_nonempty "Cats purr. Dogs bark.").
  vm_compute. reflexivity.
Defined.

(** ** Word tokens and counters *)

(** The characters a token is made of: a-z, the underscore and the
    apostrophe. *)
Definition tokenChar (c : ascii) : bool :=
  Js.isLower c || (Js.code c =? 95)%nat || (Js.code c =? 39)%nat.

Lemma lowerChar_not_upper (c : ascii) : Js.isUpper (Js.lowerChar c) = false.
Proof.
  destruct c as [[] [] [] [] [] [] [] []]; vm_compute; reflexivity.
Qed.

Lemma blankOut_chars (inDigits : bool) (cs : list ascii) (c : ascii) :
  (forall x, In x cs -> Js.isUpper x = false) ->
  In c (blankOut inDigits cs) ->
  Js.isSpace c = true \/ tokenChar c = true.
Proof.
  intros Hlow. revert inDigits.
  induction cs as [|x cs IH]; intros inDigits; simpl; [intros []|].
  assert (Hcs : forall y, In y cs -> Js.isUpper y = false)
    by (intros y Hy; apply Hlow; now right).
  specialize (IH Hcs).
  destruct (Js.isDigit x) eqn:Hd.
  - destruct inDigits; [apply IH|].
    intros [<-|Hin]; [now left | now apply (IH true)].
  - destruct (Js.isWordChar x || Js.isSpace x || (Js.code x =? 39)%nat) eqn:Hk.
    + intros [<-|Hin]; [|now apply (IH false)].
      unfold tokenChar. unfold Js.isWordChar, Js.isLetter in Hk.
      rewrite Hd, (Hlow x (or_introl eq_refl)) in Hk. simpl in Hk.
      destruct (Js.isSpace x); [now left | right].
      destruct (Js.isLower x); simpl in *; [reflexivity|].
      destruct (Js.code x =? 95)%nat; simpl in *; [reflexivity | exact Hk].
    + intros [<-|Hin]; [now left | now apply (IH false)].
Qed.

Lemma splitSpaceRuns_chars (cur cs piece : list ascii) (c : ascii) :
  In piece (Js.splitSpaceRuns cur cs) -> In c piece ->
  In c cur \/ (In c cs /\ Js.isSpace c = false).
Proof.
  revert cur. induction cs as [|x cs IH]; intros cur; simpl.
  - intros [<-|[]] Hc. left. now apply in_rev.
  - destruct (Js.isSpace x) eqn:Hx.
    + assert (Hcut : In piece (rev cur :: Js.splitSpaceRuns [] cs) -> In c piece ->
                     In c cur \/ (x = c \/ In c cs) /\ Js.isSpace c = false).
      { intros [<-|Hin] Hc; [left; now apply in_rev|].
        destruct (IH [] Hin Hc) as [[]|[H1 H2]]. right. tauto. }
      destruct cs as [|y cs']; [exact Hcut|].
      destruct (Js.isSpace y); [|exact Hcut].
      intros Hin Hc. destruct (IH cur Hin Hc) as [H|[H1 H2]]; [now left|].
      right. tauto.
    + intros Hin Hc. destruct (IH (x :: cur) Hin Hc) as [[<-|H]|[H1 H2]].
      * right. split; [now left | exact Hx].
      * now left.
      * right. tauto.
Qed.

Lemma tokenChar_not_backslash (c : ascii) :
  tokenChar c = true -> (Js.code c =? 92)%nat = false.
Proof.
  destruct c as [[] [] [] [] [] [] [] []]; vm_compute; congruence.
Qed.

Lemma tokenizeWords_chars (text w : string) (c : ascii) :
  In w (tokenizeWords text) -> In c (Js.chars w) -> tokenChar c = true.
Proof.
  unfold tokenizeWords, Js.splitWhitespace. intros Hin Hc.
  apply filter_In in Hin as [Hin _].
  apply in_map_iff in Hin as [piece [<- Hpiece]].
  rewrite chars_str in Hc, Hpiece.
  destruct (splitSpaceRuns_chars _ _ _ _ Hpiece Hc) as [[]|[Hin Hns]].
  apply blankOut_chars in Hin.
  - destruct Hin as [Hs|Ht]; [congruence | exact Ht].
  - unfold Js.toLowerCase. rewrite chars_str. intros x Hx.
    apply in_map_iff in Hx as [x0 [<- _]]. apply lowerChar_not_upper.
Qed.

Lemma tokenizeWords_forallb (text w : string) :
  In w (tokenizeWords text) -> forallb tokenChar (Js.chars w) = true.
Proof.
  intros Hin. apply forallb_forall. intros c Hc.
  now apply (tokenizeWords_chars text w).
Qed.

(** Of the members of [Object.prototype] only two are spelled with token
    characters. *)
Lemma token_inherited (text w : string) :
  In w (tokenizeWords text) ->
  Rec.inherited w = true -> w = "constructor" \/ w = "__proto__".
Proof.
  intros Hin Hinh. apply tokenizeWords_forallb in Hin.
  unfold Rec.inherited in Hinh. apply existsb_eqb_In in Hinh.
  unfold Rec.objectPrototype in Hinh. simpl in Hinh.
  repeat (destruct Hinh as [<-|Hinh];
          [first [now left | now right | vm_compute in Hin; discriminate]|]).
  destruct Hinh.
Qed.

Lemma inherited_proto : Rec.inherited "__proto__" = true.
Proof. reflexivity. Qed.

(** A record of counters holds the counts [f]: a word counted at least once
    has an own property, except [__proto__]; the property is the count, or
    garbled when the word names an inherited member. *)
Definition counted (f : string -> nat) (r : Rec.t Rec.Counter) : Prop :=
  forall w,
    Rec.get r w
    = if String.eqb w "__proto__" then None
      else
        match f w with
        | O => None
        | S _ =>
            Some (if Rec.inherited w then Rec.Garbled else Rec.Times (f w))
        end.

Lemma counted_ext (f g : string -> nat) (r : Rec.t Rec.Counter) :
  (forall w, f w = g w) -> counted f r -> counted g r.
Proof. intros Hfg Hf w. rewrite <- Hfg. apply Hf. Qed.

Lemma counted_empty : counted (fun _ => O) [].
Proof. intros w. simpl. now destruct (String.eqb w "__proto__"). Qed.

Lemma counted_increment (f : string -> nat) (r : Rec.t Rec.Counter)
  (k : string) :
  counted f r ->
  counted (fun w => if String.eqb w k then S (f w) else f w)
    (Rec.increment r k).
Proof.
  intros Hf w. unfold Rec.increment.
  destruct (String.eqb_spec k "__proto__") as [->|Hk].
  - rewrite Hf. destruct (String.eqb w "__proto__"); reflexivity.
  - destruct (String.eqb_spec w k) as [->|Hne].
    + rewrite get_set_same. apply String.eqb_neq in Hk. rewrite Hk.
      unfold Rec.lookup. rewrite (Hf k), Hk.
      destruct (f k); destruct (Rec.inherited k); reflexivity.
    + rewrite get_set_other by congruence. apply Hf.
Qed.

Lemma counted_increments (ws : list string) (f : string -> nat)
  (r : Rec.t Rec.Counter) :
  counted f r ->
  counted (fun w => (f w + count_occ string_dec ws w)%nat)
    (fold_left Rec.increment ws r).
Proof.
  revert f r. induction ws as [|x ws IH]; intros f r Hf; simpl.
  - apply (counted_ext f); [intros w; lia | exact Hf].
  - apply (counted_ext
             (fun w => ((if String.eqb w x then S (f w) else f w)
                        + count_occ string_dec ws w)%nat)).
    + intros w. destruct (string_dec x w) as [->|Hne].
      * rewrite String.eqb_refl. lia.
      * destruct (String.eqb_spec w x); [congruence | reflexivity].
    + apply IH. now apply counted_increment.
Qed.

Lemma NoDup_keys_increment (r : Rec.t Rec.Counter) (k : string) :
  NoDup (Rec.keys r) -> NoDup (Rec.keys (Rec.increment r k)).
Proof.
  intros Hnd. unfold Rec.increment.
  destruct (String.eqb k "__proto__"); [exact Hnd|].
  now apply NoDup_keys_set.
Qed.

Lemma NoDup_keys_increments (ws : list string) (r : Rec.t Rec.Counter) :
  NoDup (Rec.keys r) -> NoDup (Rec.keys (fold_left Rec.increment ws r)).
Proof.
  revert r. induction ws as [|w ws IH]; intros r Hnd; simpl; [exact Hnd|].
  apply IH. now apply NoDup_keys_increment.
Qed.

(** What an own property of a counted record says about the counts. *)
Lemma counted_get (f : string -> nat) (r : Rec.t Rec.Counter) (w : string)
  (c : Rec.Counter) :
  counted f r -> Rec.get r w = Some c ->
  w <> "__proto__" /\ (1 <= f w)%nat
  /\ c = if Rec.inherited w then Rec.Garbled else Rec.Times (f w).
Proof.
  intros Hf Hget. rewrite (Hf w) in Hget.
  destruct (String.eqb_spec w "__proto__") as [->|Hne]; [discriminate|].
  destruct (f w) eqn:E; [discriminate|].
  injection Hget as <-. repeat split; [exact Hne | lia].
Qed.

Lemma countWords_counted (ws : list string) :
  counted (count_occ string_dec ws) (countWords ws).
Proof.
  unfold countWords.
  apply (counted_ext (fun w => (0 + count_occ string_dec ws w)%nat));
    [reflexivity|].
  apply counted_increments, counted_empty.
Qed.

Lemma countWords_NoDup (ws : list string) : NoDup (Rec.keys (countWords ws)).
Proof. apply NoDup_keys_increments. constructor. Qed.

(** The entries of [countWords]: a word of the list other than [__proto__],
    with the number of its occurrences, or garbled for [constructor] and
    the other inherited names. *)
Lemma countWords_entry (ws : list string) (w : string) (c : Rec.Counter) :
  In (w, c) (countWords ws) ->
  w <> "__proto__" /\ (1 <= count_occ string_dec ws w)%nat
  /\ c = if Rec.inherited w then Rec.Garbled
         else Rec.Times (count_occ string_dec ws w).
Proof.
  intros Hin. apply (counted_get _ (countWords ws)).
  - apply countWords_counted.
  - apply In_get; [apply countWords_NoDup | exact Hin].
Qed.

(** ** Phrase counters *)

Lemma count_bump (r : Rec.t nat) (k w : string) :
  Rec.count (Rec.bump r k) w
  = if String.eqb w k then S (Rec.count r w) else Rec.count r w.
Proof.
  unfold Rec.bump, Rec.count at 1.
  destruct (String.eqb_spec w k) as [->|Hne].
  - now rewrite get_set_same.
  - rewrite get_set_other by congruence. reflexivity.
Qed.

(** Every count a record built by [bump] holds is at least 1. *)
Definition positiveCounts (r : Rec.t nat) : Prop :=
  forall k n, Rec.get r k = Some n -> (1 <= n)%nat.

Lemma positiveCounts_bump (r : Rec.t nat) (k : string) :
  positiveCounts r -> positiveCounts (Rec.bump r k).
Proof.
  intros Hpos w n. unfold Rec.bump.
  destruct (String.eqb_spec k w) as [->|Hne].
  - rewrite get_set_same. intros [= <-]. lia.
  - rewrite get_set_other by exact Hne. apply Hpos.
Qed.

Lemma positiveCounts_bumps (ws : list string) (r : Rec.t nat) :
  positiveCounts r -> positiveCounts (fold_left Rec.bump ws r).
Proof.
  revert r. induction ws as [|w ws IH]; intros r Hpos; simpl; [exact Hpos|].
  apply IH. now apply positiveCounts_bump.
Qed.

Lemma NoDup_keys_bumps (ws : list string) (r : Rec.t nat) :
  NoDup (Rec.keys r) -> NoDup (Rec.keys (fold_left Rec.bump ws r)).
Proof.
  revert r. induction ws as [|w ws IH]; intros r Hnd; simpl; [exact Hnd|].
  apply IH. now apply NoDup_keys_set.
Qed.

(** ** Document frequencies and the plain IDF *)

Lemma uniqueOf_In (seen ws : list string) (w : string) :
  In w (uniqueOf seen ws) <-> In w ws /\ ~ In w seen.
Proof.
  revert seen. induction ws as [|x ws IH]; intros seen; simpl; [tauto|].
  destruct (existsb (String.eqb x) seen) eqn:E.
  - apply existsb_eqb_In in E. rewrite IH. split.
    + tauto.
    + intros [[<-|Hin] Hns]; tauto.
  - assert (Hx : ~ In x seen)
      by (intros Hin; apply existsb_eqb_In in Hin; congruence).
    simpl. rewrite IH. simpl. split.
    + intros [<-|[Hin Hns]]; [tauto|]. split; [tauto|]. tauto.
    + intros [[<-|Hin] Hns]; [tauto|].
      destruct (string_dec x w) as [->|Hne]; [tauto|]. right. tauto.
Qed.

Lemma uniqueOf_NoDup (seen ws : list string) : NoDup (uniqueOf seen ws).
Proof.
  revert seen. induction ws as [|x ws IH]; intros seen; simpl; [constructor|].
  destruct (existsb (String.eqb x) seen); [apply IH|].
  constructor; [|apply IH].
  rewrite uniqueOf_In. simpl. tauto.
Qed.

Lemma newSet_In (ws : list string) (w : string) :
  In w (newSet ws) <-> In w ws.
Proof. unfold newSet. rewrite uniqueOf_In. simpl. tauto. Qed.

Lemma existsb_eqb_newSet (w : string) (ws : list string) :
  existsb (String.eqb w) (newSet ws) = existsb (String.eqb w) ws.
Proof.
  apply eq_true_iff_eq. rewrite !existsb_eqb_In. apply newSet_In.
Qed.

Lemma count_occ_NoDup (ws : list string) (w : string) :
  NoDup ws ->
  count_occ string_dec ws w
  = if existsb (String.eqb w) ws then 1%nat else 0%nat.
Proof.
  induction ws as [|x ws IH]; intros Hnd; simpl; [reflexivity|].
  inversion Hnd as [|? ? Hnotin Hnd']; subst.
  destruct (string_dec x w) as [->|Hne].
  - rewrite String.eqb_refl. simpl. rewrite IH by exact Hnd'.
    destruct (existsb (String.eqb w) ws) eqn:E; [|reflexivity].
    apply existsb_eqb_In in E. contradiction.
  - destruct (String.eqb_spec w x); [congruence|]. simpl. now apply IH.
Qed.

(** The number of documents in which a word is among the words [wordsOf]
    draws from a document. *)
Definition frequencyIn (wordsOf : string -> list string) (w : string)
  (documents : list string) : nat :=
  List.length
    (filter (fun doc => existsb (String.eqb w) (wordsOf doc)) documents).

Lemma counters_from (wordsOf : string -> list string)
  (documents : list string) (f : string -> nat) (r : Rec.t Rec.Counter) :
  let r' :=
    fold_left
      (fun counts doc =>
         fold_left Rec.increment (newSet (wordsOf doc)) counts)
      documents r in
  (NoDup (Rec.keys r) -> NoDup (Rec.keys r'))
  /\ (counted f r ->
      counted (fun w => (f w + frequencyIn wordsOf w documents)%nat) r').
Proof.
  revert f r. induction documents as [|doc docs IH]; intros f r; simpl.
  - split; [auto|]. apply counted_ext. intros w. unfold frequencyIn.
    simpl. lia.
  - destruct (IH (fun w => (f w + count_occ string_dec
                                    (newSet (wordsOf doc)) w)%nat)
                (fold_left Rec.increment (newSet (wordsOf doc)) r))
      as [Hnd Hcount].
    split.
    + intros H. apply Hnd. now apply NoDup_keys_increments.
    + intros H. eapply counted_ext; [|apply Hcount, counted_increments, H].
      intros w. cbv beta.
      rewrite count_occ_NoDup by apply uniqueOf_NoDup.
      rewrite existsb_eqb_newSet. unfold frequencyIn. simpl.
      destruct (existsb (String.eqb w) (wordsOf doc)); simpl; lia.
Qed.

Lemma counters_counted (wordsOf : string -> list string)
  (documents : list string) :
  let r :=
    fold_left
      (fun counts doc =>
         fold_left Rec.increment (newSet (wordsOf doc)) counts)
      documents [] in
  NoDup (Rec.keys r)
  /\ counted (fun w => frequencyIn wordsOf w documents) r.
Proof.
  intros r.
  destruct (counters_from wordsOf documents (fun _ => O) [])
    as [Hnd Hcount].
  split; [apply Hnd; constructor|].
  apply (counted_ext
           (fun w => (0 + frequencyIn wordsOf w documents)%nat));
    [reflexivity|].
  apply Hcount, counted_empty.
Qed.

Lemma frequencyIn_le (wordsOf : string -> list string) (w : string)
  (documents : list string) :
  (frequencyIn wordsOf w documents <= List.length documents)%nat.
Proof. apply filter_length_le. Qed.

(** The kept words of a document, and the number of documents a word is
    kept in. *)
Definition keptWords (doc : string) : list string :=
  filter keepWord (tokenizeWords doc).

Definition occursIn (w : string) (doc : string) : bool :=
  existsb (String.eqb w) (keptWords doc).

Definition documentFrequency (w : string) (documents : list string) : nat :=
  List.length (filter (occursIn w) documents).

Lemma documentCounts_counted (documents : list string) :
  NoDup (Rec.keys (documentCounts documents))
  /\ counted (fun w => documentFrequency w documents)
       (documentCounts documents).
Proof. exact (counters_counted keptWords documents). Qed.

Lemma documentFrequency_le (w : string) (documents : list string) :
  (documentFrequency w documents <= List.length documents)%nat.
Proof. apply filter_length_le. Qed.

Lemma log10_ge_0 (x : R) : 1 <= x -> 0 <= log10 x.
Proof.
  intros Hx. unfold log10.
  assert (H10 : 0 < ln 10).
  { rewrite <- ln_1. apply ln_increasing; lra. }
  assert (Hln : 0 <= ln x).
  { destruct Hx as [Hlt|<-]; [|rewrite ln_1; lra].
    rewrite <- ln_1. left. apply ln_increasing; lra. }
  apply Rmult_le_pos; [exact Hln|]. left. now apply Rinv_0_lt_compat.
Qed.

Lemma log10_1 : log10 1 = 0.
Proof. unfold log10. rewrite ln_1. lra. Qed.

Lemma idf_ge_1 (D df : nat) :
  (df <= D)%nat -> 1 <= log10 ((INR D + 1) / (INR df + 1)) + 1.
Proof.
  intros Hle.
  assert (Hdf : 0 < INR df + 1) by (pose proof (pos_INR df); lra).
  assert (Hratio : 1 <= (INR D + 1) / (INR df + 1)).
  { apply le_INR in Hle.
    apply Rmult_le_reg_r with (INR df + 1); [exact Hdf|].
    unfold Rdiv. rewrite Rmult_assoc, Rinv_l by lra. lra. }
  pose proof (log10_ge_0 _ Hratio). lra.
Qed.

(** The entries of [calculateIDF]. *)
Lemma calculateIDF_entry (documents : list string) (w : string) (v : Num.t) :
  In (w, v) (calculateIDF documents) ->
  let D := List.length documents in
  let df := documentFrequency w documents in
  w <> "__proto__"
  /\ (1 <= df <= D)%nat
  /\ v = if Rec.inherited w then Num.NaN
         else Num.Fin (log10 ((INR D + 1) / (INR df + 1)) + 1).
Proof.
  intros Hin D df. unfold calculateIDF in Hin.
  apply in_map_iff in Hin as [[w' c] [Heq Hin]].
  simpl in Heq. injection Heq as -> <-.
  destruct (documentCounts_counted documents) as [Hnd Hcount].
  apply (In_get _ _ _ Hnd) in Hin.
  destruct (counted_get _ _ _ _ Hcount Hin) as [Hp [Hpos ->]].
  fold df in Hpos.
  assert (Hle : (df <= D)%nat) by apply documentFrequency_le.
  split; [exact Hp|]. split; [lia|].
  destruct (Rec.inherited w); reflexivity.
Qed.

Definition constructorText : string := "Every constructor builds objects.".

Definition constructorRequest : KeywordExtractionRequest :=
  {| kwText := constructorText; kwCount := 5; kwMethod := "standard_tfidf" |}.

(** C5, as the code behaves: the counter of the word "constructor" starts
    from the member every object inherits, so the word, kept in one
    document of one, gets NaN where the claim gives
    log10((1+1)/(1+1)) + 1 = 1; the other words get that value.  The NaN
    reaches the answer of [extractKeywords]. *)
Theorem calculateIDF_of_constructor :
  let documents := tokenizeSentences constructorText in
  documents = [constructorText]
  /\ documentFrequency "constructor" documents = 1%nat
  /\ documentCounts documents
     = [ ("every", Rec.Times 1); ("constructor", Rec.Garbled);
         ("builds", Rec.Times 1); ("objects", Rec.Times 1) ]
  /\ Rec.get (calculateIDF documents) "constructor" = Some Num.NaN
  /\ Rec.get (calculateIDF documents) "objects"
     = Some (Num.Fin (log10 ((1 + 1) / (1 + 1)) + 1))
  /\ Num.NaN <> Num.Fin (log10 ((1 + 1) / (1 + 1)) + 1)
  /\ exists response,
       extractKeywords constructorRequest = Returned response
       /\ In {| keyword := "constructor"; kwScore := Num.NaN |}
            (keywords response).
Proof.
  intros documents.
  assert (Hdocs : documents = [constructorText]) by (vm_compute; reflexivity).
  assert (Hcounts : documentCounts documents
                    = [ ("every", Rec.Times 1); ("constructor", Rec.Garbled);
                        ("builds", Rec.Times 1); ("objects", Rec.Times 1) ])
    by (vm_compute; reflexivity).
  split; [exact Hdocs|].
  split; [vm_compute; reflexivity|].
  split; [exact Hcounts|].
  unfold calculateIDF. rewrite Hcounts, Hdocs.
  split; [reflexivity|].
  split; [simpl; repeat f_equal; lra|].
  split; [discriminate|].
  eexists. split; [reflexivity|].
  unfold enhancedExtractKeywords, constructorRequest, kwText, kwCount,
    kwMethod, keywords, extractWithStandardTFIDF.
  replace (1 <? List.length (paragraphsOf constructorText))%nat with false
    by (vm_compute; reflexivity).
  cbn [String.eqb Ascii.eqb Bool.eqb].
  rewrite firstn_all2.
  - apply (Permutation_in _
             (Permutation_sym (stableSort_perm byKwScoreDescending _))).
    apply in_map_iff. exists ("constructor", Num.NaN). split; [reflexivity|].
    unfold calculateTFIDF, calculateTF. apply in_map_iff.
    exists ("constructor", Num.NaN). split; [reflexivity|].
    replace (countWords (filter keepWord (tokenizeWords constructorText)))
      with [ ("every", Rec.Times 1); ("constructor", Rec.Garbled);
             ("builds", Rec.Times 1); ("objects", Rec.Times 1) ]
      by (vm_compute; reflexivity).
    simpl. right. left. reflexivity.
  - rewrite stableSort_length, length_map.
    unfold calculateTFIDF, calculateTF. rewrite !length_map.
    vm_compute. lia.
Qed.

(** ** Whole numbers in binary64

    The sums and products of whole numbers that stay below 2^53 are computed
    without rounding. *)

Section WholeNumbers.
Local Open Scope Z_scope.

Definition digits (p : positive) : Z := Zpos (digits2_pos p).

Lemma digits_bounds (p : positive) :
  2 ^ (digits p - 1) <= Zpos p < 2 ^ digits p.
Proof.
  unfold digits. induction p as [p IH|p IH|]; cbn [digits2_pos].
  - rewrite Pos2Z.inj_succ.
    replace (Z.succ (Zpos (digits2_pos p)) - 1) with (Zpos (digits2_pos p)) by lia.
    rewrite Z.pow_succ_r by lia.
    assert (H : 2 ^ Zpos (digits2_pos p) = 2 * 2 ^ (Zpos (digits2_pos p) - 1)).
    { rewrite <- Z.pow_succ_r by lia. f_equal. lia. }
    lia.
  - rewrite Pos2Z.inj_succ.
    replace (Z.succ (Zpos (digits2_pos p)) - 1) with (Zpos (digits2_pos p)) by lia.
    rewrite Z.pow_succ_r by lia.
    assert (H : 2 ^ Zpos (digits2_pos p) = 2 * 2 ^ (Zpos (digits2_pos p) - 1)).
    { rewrite <- Z.pow_succ_r by lia. f_equal. lia. }
    lia.
  - simpl. lia.
Qed.

Lemma digits_unique (p : positive) (d : Z) :
  2 ^ (d - 1) <= Zpos p < 2 ^ d -> digits p = d.
Proof.
  intros [Hlo Hhi]. pose proof (digits_bounds p) as [Dlo Dhi].
  assert (Hd : 0 < digits p) by (unfold digits; lia).
  destruct (Z.lt_trichotomy (digits p) d) as [H|[H|H]]; [|exact H|].
  - exfalso. assert (2 ^ digits p <= 2 ^ (d - 1))
      by (apply Z.pow_le_mono_r; lia). lia.
  - exfalso. destruct (Z.le_gt_cases d 0) as [Hd0|Hd0].
    + assert (2 ^ d <= 1).
      { destruct (Z.eq_dec d 0) as [->|]; [simpl; lia|].
        rewrite Z.pow_neg_r by lia. lia. }
      lia.
    + assert (2 ^ d <= 2 ^ (digits p - 1))
        by (apply Z.pow_le_mono_r; lia). lia.
Qed.

Lemma digits_shift (p q : positive) (k : Z) :
  0 <= k -> Zpos q = Zpos p * 2 ^ k -> digits q = digits p + k.
Proof.
  intros Hk Hq. apply digits_unique.
  pose proof (digits_bounds p) as [Dlo Dhi].
  assert (Hd : 0 < digits p) by (unfold digits; lia).
  rewrite Hq.
  replace (digits p + k - 1) with ((digits p - 1) + k) by lia.
  rewrite !Z.pow_add_r by lia.
  assert (0 < 2 ^ k) by (apply Z.pow_pos_nonneg; lia).
  nia.
Qed.

Lemma iter_xO (m d : positive) :
  Zpos (Pos.iter xO m d) = Zpos m * 2 ^ Zpos d.
Proof.
  induction d as [|d IH] using Pos.peano_ind.
  - simpl. lia.
  - rewrite Pos.iter_succ, Pos2Z.inj_succ, Z.pow_succ_r by lia.
    rewrite Pos2Z.inj_xO, IH. lia.
Qed.

Lemma shr_exact (k c : positive) (m : Z) :
  m = Zpos c * 2 ^ Zpos k ->
  iter_pos shr_1 k (Build_shr_record m false false)
  = Build_shr_record (Zpos c) false false.
Proof.
  revert c m. induction k as [k IH|k IH|]; intros c m Hm; cbn [iter_pos].
  - (* 2k+1 *)
    assert (Hpow : 2 ^ Zpos k~1 = 2 * (2 ^ Zpos k * 2 ^ Zpos k)).
    { replace (Zpos k~1) with (Zpos k + Zpos k + 1) by lia.
      rewrite !Z.pow_add_r by lia. change (2 ^ 1) with 2. ring. }
    assert (Hp : 0 < 2 ^ Zpos k) by (apply Z.pow_pos_nonneg; lia).
    destruct (Zpos c * 2 ^ Zpos k) as [|c1|] eqn:E1; try lia.
    destruct (Zpos c1 * 2 ^ Zpos k) as [|c2|] eqn:E2; try lia.
    assert (m = Zpos (xO c2)) as -> by (rewrite Pos2Z.inj_xO; nia).
    cbn [shr_1 orb].
    rewrite (IH c1 (Zpos c2)) by lia. apply IH. lia.
  - assert (Hpow : 2 ^ Zpos k~0 = 2 ^ Zpos k * 2 ^ Zpos k).
    { replace (Zpos k~0) with (Zpos k + Zpos k) by lia.
      now rewrite Z.pow_add_r by lia. }
    assert (Hp : 0 < 2 ^ Zpos k) by (apply Z.pow_pos_nonneg; lia).
    destruct (Zpos c * 2 ^ Zpos k) as [|c1|] eqn:E1; try lia.
    rewrite (IH c1 m) by nia. apply IH. lia.
  - assert (m = Zpos (xO c)) as -> by (rewrite Pos2Z.inj_xO; lia).
    reflexivity.
Qed.

(** Rounding a mantissa of 53 digits followed by [k] zeros is exact. *)
Lemma round_aux_exact (s : bool) (c M : positive) (k e : Z) :
  digits c = 53 -> 0 <= k -> Zpos M = Zpos c * 2 ^ k ->
  -1074 <= e + k <= 971 ->
  binary_round_aux 53 1024 s (Zpos M) e loc_Exact = S754_finite s c (e + k).
Proof.
  intros Hc Hk HM He.
  assert (HdM : digits M = 53 + k) by (rewrite <- Hc; now apply (digits_shift c)).
  unfold binary_round_aux, shr_fexp. cbn [Zdigits2 shr_record_of_loc].
  fold (digits M). rewrite HdM.
  assert (Hfexp : fexp 53 1024 (53 + k + e) = e + k).
  { unfold fexp, emin. lia. }
  rewrite Hfexp. replace (e + k - e) with k by lia.
  assert (Hshr : shr (Build_shr_record (Zpos M) false false) e k
                 = (Build_shr_record (Zpos c) false false, e + k)).
  { unfold shr. destruct k as [|kp|kp]; [| |lia].
    - f_equal; [|lia]. f_equal. rewrite HM. simpl. lia.
    - f_equal. now apply shr_exact. }
  rewrite Hshr. cbn [shr_m loc_of_shr_record round_nearest_even Zdigits2
                     shr_record_of_loc].
  fold (digits c). rewrite Hc.
  assert (Hfexp2 : fexp 53 1024 (53 + (e + k)) = e + k).
  { unfold fexp, emin. lia. }
  rewrite Hfexp2, Z.sub_diag. cbn [shr shr_m].
  destruct (Z.leb_spec (e + k) (1024 - 53)); [reflexivity | lia].
Qed.

(** The mantissa of 53 digits of a positive integer below 2^53. *)
Definition mantissa53 (N : positive) : positive :=
  Z.to_pos (Zpos N * 2 ^ (53 - digits N)).

Lemma mantissa53_spec (N : positive) :
  digits N <= 53 ->
  Zpos (mantissa53 N) = Zpos N * 2 ^ (53 - digits N) /\ digits (mantissa53 N) = 53.
Proof.
  intros Hd. unfold mantissa53.
  assert (Hp : 0 < 2 ^ (53 - digits N)) by (apply Z.pow_pos_nonneg; lia).
  assert (Hpos : 0 < Zpos N * 2 ^ (53 - digits N)) by nia.
  rewrite Z2Pos.id by exact Hpos. split; [reflexivity|].
  rewrite (digits_shift N _ (53 - digits N)); [lia | lia |].
  now rewrite Z2Pos.id.
Qed.

Lemma digits_pos (N : positive) : 1 <= digits N.
Proof. unfold digits. lia. Qed.

Lemma small_digits (N : positive) : Zpos N < 2 ^ 53 <-> digits N <= 53.
Proof.
  pose proof (digits_bounds N) as [Lo Hi]. pose proof (digits_pos N) as H1.
  split.
  - intros H. destruct (Z.le_gt_cases (digits N) 53) as [|Hgt]; [assumption|].
    assert (2 ^ 53 <= 2 ^ (digits N - 1)) by (apply Z.pow_le_mono_r; lia).
    lia.
  - intros H. assert (2 ^ digits N <= 2 ^ 53) by (apply Z.pow_le_mono_r; lia).
    lia.
Qed.

(** Every way of writing a positive integer below 2^53 as a mantissa and a
    power of two rounds to the same number. *)
Lemma round_exact (N M : positive) (j : Z) :
  digits N <= 53 -> 0 <= j -> Zpos M = Zpos N * 2 ^ j ->
  binary_round 53 1024 false M (- j)
  = S754_finite false (mantissa53 N) (digits N - 53).
Proof.
  intros Hd Hj HM. pose proof (digits_pos N) as Hd1.
  destruct (mantissa53_spec N Hd) as [Hc Hdc].
  assert (HdM : digits M = digits N + j) by now apply (digits_shift N).
  unfold binary_round. fold (digits M). rewrite HdM.
  assert (Hfexp : fexp 53 1024 (digits N + j + - j) = digits N - 53).
  { unfold fexp, emin. lia. }
  rewrite Hfexp. unfold shl_align.
  destruct (digits N - 53 - - j) as [|t|t] eqn:Et.
  - rewrite (round_aux_exact false (mantissa53 N) M 0 (- j)); try lia.
    + f_equal. lia.
    + rewrite Hc, HM. replace (53 - digits N) with j by lia. lia.
  - rewrite (round_aux_exact false (mantissa53 N) M (Zpos t) (- j)); try lia.
    + f_equal. lia.
    + rewrite Hc, HM. replace j with ((53 - digits N) + Zpos t) at 1 by lia.
      rewrite Z.pow_add_r by lia. ring.
  - rewrite (round_aux_exact false (mantissa53 N) (Pos.iter xO M t) 0
               (digits N - 53)); try lia.
    + f_equal. lia.
    + rewrite iter_xO, Hc, HM.
      replace (53 - digits N) with (j + Zpos t) by lia.
      rewrite Z.pow_add_r by lia. ring.
Qed.

Lemma round_aux_exact_int (N M : positive) (j : Z) :
  digits N <= 53 -> 53 - digits N <= j -> Zpos M = Zpos N * 2 ^ j ->
  binary_round_aux 53 1024 false (Zpos M) (- j) loc_Exact
  = S754_finite false (mantissa53 N) (digits N - 53).
Proof.
  intros Hd Hj HM. pose proof (digits_pos N) as Hd1.
  destruct (mantissa53_spec N Hd) as [Hc Hdc].
  rewrite (round_aux_exact false (mantissa53 N) M (j - (53 - digits N)) (- j));
    try lia.
  - f_equal. lia.
  - rewrite Hc, HM. replace j with ((53 - digits N) + (j - (53 - digits N))) at 1
      by lia.
    rewrite Z.pow_add_r by lia. ring.
Qed.

Lemma ofZ_positive (N : positive) :
  digits N <= 53 ->
  Double.ofZ (Zpos N) = S754_finite false (mantissa53 N) (digits N - 53).
Proof.
  intros Hd. unfold Double.ofZ, binary_normalize.
  apply (round_exact N N 0 Hd); [lia|]. simpl. lia.
Qed.

Lemma mul_positive (A B : positive) :
  Zpos (A * B) < 2 ^ 53 ->
  Double.mul (Double.ofZ (Zpos A)) (Double.ofZ (Zpos B)) = Double.ofZ (Zpos (A * B)).
Proof.
  intros Hsmall. apply small_digits in Hsmall as HdAB.
  assert (HdA : digits A <= 53).
  { apply small_digits. assert (Zpos A <= Zpos (A * B)) by nia. lia. }
  assert (HdB : digits B <= 53).
  { apply small_digits. assert (Zpos B <= Zpos (A * B)) by nia. lia. }
  rewrite (ofZ_positive A HdA), (ofZ_positive B HdB), (ofZ_positive (A * B) HdAB).
  unfold Double.mul. cbn [SFmul xorb].
  destruct (mantissa53_spec A HdA) as [HcA _]. destruct (mantissa53_spec B HdB) as [HcB _].
  pose proof (digits_bounds A) as [LA HA]. pose proof (digits_bounds B) as [LB HB].
  pose proof (digits_bounds (A * B)) as [LAB HAB].
  pose proof (digits_pos A). pose proof (digits_pos B).
  assert (Hdig : digits A + digits B - 1 <= digits (A * B)).
  { destruct (Z.le_gt_cases (digits A + digits B - 1) (digits (A * B)))
      as [|Hgt]; [assumption|]. exfalso.
    assert (2 ^ digits (A * B) <= 2 ^ (digits A - 1 + (digits B - 1)))
      by (apply Z.pow_le_mono_r; lia).
    rewrite Z.pow_add_r in * by lia.
    assert (0 < 2 ^ (digits A - 1)) by (apply Z.pow_pos_nonneg; lia).
    assert (0 < 2 ^ (digits B - 1)) by (apply Z.pow_pos_nonneg; lia).
    rewrite Pos2Z.inj_mul in HAB. nia. }
  replace (digits A - 53 + (digits B - 53))
    with (- (106 - digits A - digits B)) by lia.
  apply round_aux_exact_int; [exact HdAB | lia |].
  rewrite !Pos2Z.inj_mul, HcA, HcB.
  replace (106 - digits A - digits B)
    with ((53 - digits A) + (53 - digits B)) by lia.
  rewrite Z.pow_add_r by lia. ring.
Qed.

Lemma shl_align_value (m : positive) (ex ez : Z) :
  ez <= ex -> Zpos (fst (shl_align m ex ez)) = Zpos m * 2 ^ (ex - ez).
Proof.
  intros Hle. unfold shl_align.
  destruct (ez - ex) as [|d|d] eqn:E; try lia.
  - replace (ex - ez) with 0 by lia. simpl. lia.
  - cbn [fst]. rewrite iter_xO. f_equal. f_equal. lia.
Qed.

Lemma add_positive (A B : positive) :
  Zpos (A + B) < 2 ^ 53 ->
  Double.add (Double.ofZ (Zpos A)) (Double.ofZ (Zpos B)) = Double.ofZ (Zpos (A + B)).
Proof.
  intros Hsmall. apply small_digits in Hsmall as HdAB.
  assert (HdA : digits A <= 53) by (apply small_digits; lia).
  assert (HdB : digits B <= 53) by (apply small_digits; lia).
  rewrite (ofZ_positive A HdA), (ofZ_positive B HdB), (ofZ_positive (A + B) HdAB).
  unfold Double.add. cbn [SFadd cond_Zopp].
  destruct (mantissa53_spec A HdA) as [HcA _]. destruct (mantissa53_spec B HdB) as [HcB _].
  set (ez := Z.min (digits A - 53) (digits B - 53)).
  assert (HezA : ez <= digits A - 53) by (unfold ez; lia).
  assert (HezB : ez <= digits B - 53) by (unfold ez; lia).
  assert (Hez0 : ez <= 0) by lia.
  rewrite (shl_align_value (mantissa53 A) _ ez HezA).
  rewrite (shl_align_value (mantissa53 B) _ ez HezB).
  rewrite HcA, HcB.
  assert (HA : Zpos A * 2 ^ (53 - digits A) * 2 ^ (digits A - 53 - ez)
               = Zpos A * 2 ^ (- ez)).
  { rewrite <- Z.mul_assoc, <- Z.pow_add_r by lia. do 2 f_equal. lia. }
  assert (HB : Zpos B * 2 ^ (53 - digits B) * 2 ^ (digits B - 53 - ez)
               = Zpos B * 2 ^ (- ez)).
  { rewrite <- Z.mul_assoc, <- Z.pow_add_r by lia. do 2 f_equal. lia. }
  rewrite HA, HB.
  assert (Hp : 0 < 2 ^ (- ez)) by (apply Z.pow_pos_nonneg; lia).
  destruct (Zpos A * 2 ^ (- ez) + Zpos B * 2 ^ (- ez)) as [|S|S] eqn:ES;
    try nia.
  unfold binary_normalize.
  replace ez with (- (- ez)) at 1 by lia.
  apply round_exact; [exact HdAB | lia |].
  rewrite <- ES, Pos2Z.inj_add. ring.
Qed.

Lemma add_zero_l (x : Double.t) :
  x <> S754_zero true -> Double.add Double.zero x = x.
Proof.
  unfold Double.add, Double.zero.
  destruct x as [[]| | |]; simpl; congruence.
Qed.

Lemma ofZ_finite (z : Z) :
  0 < z < 2 ^ 53 ->
  exists mantissa exponent,
    Double.ofZ z = S754_finite false mantissa exponent.
Proof.
  intros [Hpos Hsmall]. destruct z as [|N|N]; try lia.
  rewrite ofZ_positive by now apply small_digits. eauto.
Qed.

Lemma mul_whole (x y : Z) :
  0 < x -> 0 < y -> x * y < 2 ^ 53 ->
  Double.mul (Double.ofZ x) (Double.ofZ y) = Double.ofZ (x * y).
Proof.
  intros Hx Hy Hxy. destruct x as [|A|A], y as [|B|B]; try lia.
  rewrite <- Pos2Z.inj_mul in *. now apply mul_positive.
Qed.

Lemma add_whole (x y : Z) :
  0 <= x -> 0 < y -> x + y < 2 ^ 53 ->
  Double.add (Double.ofZ x) (Double.ofZ y) = Double.ofZ (x + y).
Proof.
  intros Hx Hy Hxy. destruct x as [|A|A], y as [|B|B]; try lia.
  - rewrite Z.add_0_l. change (Double.ofZ 0) with Double.zero.
    apply add_zero_l.
    destruct (ofZ_finite (Zpos B)) as [m [e E]]; [lia|].
    rewrite E. discriminate.
  - rewrite <- Pos2Z.inj_add in *. now apply add_positive.
Qed.

End WholeNumbers.

(** ** Cosine similarity *)

Lemma mul_comm (x y : Double.t) : Double.mul x y = Double.mul y x.
Proof.
  unfold Double.mul.
  destruct x as [sx|sx| |sx mx ex], y as [sy|sy| |sy my ey];
    cbn [SFmul]; try reflexivity; try (now rewrite xorb_comm).
  now rewrite xorb_comm, Pos.mul_comm, Z.add_comm.
Qed.



Lemma fold_left_ext_In {A B} (f g : A -> B -> A) (l : list B) (acc : A) :
  (forall x a, In x l -> f a x = g a x) ->
  fold_left f l acc = fold_left g l acc.
Proof.
  revert acc. induction l as [|x l IH]; intros acc H; simpl; [reflexivity|].
  rewrite (H x acc (or_introl eq_refl)). apply IH.
  intros y a Hy. apply H. now right.
Qed.

Lemma filter_split_perm {A} (p : A -> bool) (l : list A) :
  Permutation (filter p l ++ filter (fun x => negb (p x)) l) l.
Proof.
  induction l as [|x l IH]; simpl; [reflexivity|].
  destruct (p x); simpl.
  - now constructor.
  - rewrite <- Permutation_middle. now constructor.
Qed.

Lemma enumerate_perm {V} (r : Rec.t V) : Permutation (Rec.enumerate r) r.
Proof.
  unfold Rec.enumerate. rewrite stableSort_perm. apply filter_split_perm.
Qed.

Lemma enumerate_In {V} (r : Rec.t V) (kv : string * V) :
  In kv (Rec.enumerate r) -> In kv r.
Proof. apply Permutation_in, enumerate_perm. Qed.

(** A vector of numbers: distinct keys, each with a number that is neither
    0 nor NaN (a sparse vector lists no zero). *)
Definition numbers (v : Rec.t Value) : Prop :=
  NoDup (Rec.keys v)
  /\ forall k x, In (k, x) v ->
       exists d, x = Numeric d /\ Double.truthy d = true.




Definition entry (v : Rec.t Value) (k : string) : Double.t :=
  match Rec.get v k with Some x => toNumber x | None => Double.nan end.

Lemma numbers_lookup (v : Rec.t Value) (kv : string * Value) :
  numbers v -> In kv (Rec.enumerate v) ->
  Rec.lookup v (fst kv) = Rec.Own (snd kv) /\ isTruthy (snd kv) = true.
Proof.
  intros [Hnd Hnum] Hin. apply enumerate_In in Hin. destruct kv as [k x].
  simpl. unfold Rec.lookup. rewrite (In_get _ _ _ Hnd Hin).
  split; [reflexivity|].
  destruct (Hnum k x Hin) as [d [-> Hd]]. exact Hd.
Qed.

(** The dot product of a vector of numbers with itself is its squared
    magnitude, bit for bit. *)
Lemma dotProduct_self (v : Rec.t Value) :
  numbers v -> dotProduct v v = squaredMagnitude v.
Proof.
  intros Hv. unfold dotProduct, squaredMagnitude.
  apply fold_left_ext_In. intros kv acc Hin.
  destruct (numbers_lookup v kv Hv Hin) as [-> ->]. reflexivity.
Qed.


(** *** Vectors of counts *)

(** The vector that holds each count as a number. *)
Definition ofCounts (c : Rec.t nat) : Rec.t Value :=
  map (fun kn => (fst kn, Numeric (Double.ofNat (snd kn)))) c.

(** Counts of at least 1 at distinct keys, none of them the name of a member
    of [Object.prototype]. *)
Definition wholeCounts (c : Rec.t nat) : Prop :=
  NoDup (Rec.keys c)
  /\ forall k n, In (k, n) c -> (1 <= n)%nat /\ Rec.inherited k = false.

Definition weight (c : Rec.t nat) (k : string) : Z :=
  match Rec.get c k with Some n => Z.of_nat n | None => 0%Z end.

(** The inner product of two vectors of counts, in whole numbers. *)
Fixpoint inner (c d : Rec.t nat) : Z :=
  match c with
  | [] => 0%Z
  | (k, n) :: c' => (Z.of_nat n * weight d k + inner c' d)%Z
  end.

Lemma insertSorted_map {A B} (f : A -> B) (inOrder : A -> A -> bool)
  (inOrder' : B -> B -> bool) (a : A) (l : list A) :
  (forall x y, inOrder' (f x) (f y) = inOrder x y) ->
  insertSorted inOrder' (f a) (map f l) = map f (insertSorted inOrder a l).
Proof.
  intros H. induction l as [|b l IH]; simpl; [reflexivity|].
  rewrite H. destruct (inOrder a b); simpl; [reflexivity|]. now rewrite IH.
Qed.

Lemma stableSort_map {A B} (f : A -> B) (inOrder : A -> A -> bool)
  (inOrder' : B -> B -> bool) (l : list A) :
  (forall x y, inOrder' (f x) (f y) = inOrder x y) ->
  stableSort inOrder' (map f l) = map f (stableSort inOrder l).
Proof.
  intros H. induction l as [|a l IH]; simpl; [reflexivity|].
  rewrite IH. now apply insertSorted_map.
Qed.

Lemma filter_map_comm {A B} (f : A -> B) (p : B -> bool) (l : list A) :
  filter p (map f l) = map f (filter (fun x => p (f x)) l).
Proof.
  induction l as [|a l IH]; simpl; [reflexivity|].
  destruct (p (f a)); simpl; now rewrite IH.
Qed.

(** The order of enumeration depends on the keys only. *)
Lemma enumerate_map {V W} (f : string * V -> string * W) (r : Rec.t V) :
  (forall kv, fst (f kv) = fst kv) ->
  Rec.enumerate (map f r) = map f (Rec.enumerate r).
Proof.
  intros Hf. unfold Rec.enumerate. rewrite map_app, !filter_map_comm.
  assert (Hidx : forall kv, Rec.isIndex (f kv) = Rec.isIndex kv)
    by (intros kv; unfold Rec.isIndex; now rewrite Hf).
  rewrite (filter_ext _ _ Hidx).
  rewrite (filter_ext (fun x => negb (Rec.isIndex (f x)))
             (fun kv => negb (Rec.isIndex kv)))
    by (intros kv; now rewrite Hidx).
  f_equal. apply stableSort_map.
  intros x y. unfold Rec.indexOf. now rewrite !Hf.
Qed.

Lemma enumerate_ofCounts (c : Rec.t nat) :
  Rec.enumerate (ofCounts c) = ofCounts (Rec.enumerate c).
Proof. apply enumerate_map. reflexivity. Qed.

Lemma get_ofCounts (c : Rec.t nat) (k : string) :
  Rec.get (ofCounts c) k
  = option_map (fun n => Numeric (Double.ofNat n)) (Rec.get c k).
Proof. apply (get_map_values (fun _ n => Numeric (Double.ofNat n))). Qed.

Lemma keys_ofCounts (c : Rec.t nat) : Rec.keys (ofCounts c) = Rec.keys c.
Proof.
  unfold Rec.keys, ofCounts. rewrite map_map. now apply map_ext.
Qed.

Lemma weight_nonneg (c : Rec.t nat) (k : string) : (0 <= weight c k)%Z.
Proof. unfold weight. destruct (Rec.get c k); lia. Qed.

Lemma inner_nonneg (c d : Rec.t nat) : (0 <= inner c d)%Z.
Proof.
  induction c as [|[k n] c IH]; simpl; [lia|].
  pose proof (weight_nonneg d k). nia.
Qed.

Lemma inner_perm (c c' d : Rec.t nat) :
  Permutation c c' -> inner c d = inner c' d.
Proof.
  induction 1 as [|[k n] c c' _ IH|[k n] [k' n'] c|c c' c'' _ IH1 _ IH2];
    simpl; [reflexivity | now rewrite IH | lia | congruence].
Qed.

Lemma weight_absent (c : Rec.t nat) (k : string) :
  ~ In k (Rec.keys c) -> weight c k = 0%Z.
Proof.
  intros H. unfold weight. apply get_None_keys in H. now rewrite H.
Qed.

Lemma weight_cons (c : Rec.t nat) (k k' : string) (n : nat) :
  weight ((k, n) :: c) k'
  = if String.eqb k' k then Z.of_nat n else weight c k'.
Proof. unfold weight. simpl. destruct (String.eqb k' k); reflexivity. Qed.

Lemma inner_nil_r (c : Rec.t nat) : inner c [] = 0%Z.
Proof.
  induction c as [|[k n] c IH]; simpl; [reflexivity|].
  rewrite IH. unfold weight. simpl. lia.
Qed.

Lemma inner_cons_r (c d : Rec.t nat) (k : string) (n : nat) :
  NoDup (Rec.keys c) -> ~ In k (Rec.keys d) ->
  inner c ((k, n) :: d) = (inner c d + Z.of_nat n * weight c k)%Z.
Proof.
  intros Hnd Hk. induction c as [|[k1 n1] c IH]; simpl.
  - unfold weight. simpl. lia.
  - inversion Hnd as [|? ? Hnotin Hnd']; subst.
    rewrite IH by exact Hnd'. rewrite !weight_cons.
    destruct (String.eqb_spec k1 k) as [->|Hne].
    + rewrite String.eqb_refl.
      rewrite (weight_absent d k Hk), (weight_absent c k Hnotin). lia.
    + destruct (String.eqb_spec k k1); [congruence|]. lia.
Qed.

Lemma inner_comm (c d : Rec.t nat) :
  NoDup (Rec.keys c) -> NoDup (Rec.keys d) -> inner c d = inner d c.
Proof.
  intros Hc Hd. induction d as [|[k n] d IH].
  - simpl. apply inner_nil_r.
  - inversion Hd as [|? ? Hnotin Hd']; subst.
    rewrite inner_cons_r by assumption. simpl. rewrite IH by exact Hd'. lia.
Qed.

(** The loop of the dot product over counts, entered with a whole number:
    no step rounds. *)
Lemma dotProduct_counts_from (d l : Rec.t nat) (z : Z) :
  wholeCounts d ->
  (forall k n, In (k, n) l -> (1 <= n)%nat /\ Rec.inherited k = false) ->
  (0 <= z)%Z -> (z + inner l d < 2 ^ 53)%Z ->
  fold_left
    (fun dot kv =>
       match Rec.lookup (ofCounts d) (fst kv) with
       | Rec.Own b =>
           if isTruthy b
           then Double.add dot (Double.mul (toNumber (snd kv)) (toNumber b))
           else dot
       | Rec.Inherited =>
           Double.add dot (Double.mul (toNumber (snd kv)) Double.nan)
       | Rec.Missing => dot
       end)
    (ofCounts l) (Double.ofZ z)
  = Double.ofZ (z + inner l d).
Proof.
  intros [Hnd Hd]. revert z.
  induction l as [|[k n] l IH]; intros z Hl Hz Hsmall.
  - simpl. f_equal. lia.
  - destruct (Hl k n (or_introl eq_refl)) as [Hn Hk].
    assert (Hl' : forall k' n', In (k', n') l ->
                    (1 <= n')%nat /\ Rec.inherited k' = false)
      by (intros k' n' Hin; apply Hl; now right).
    pose proof (inner_nonneg l d) as Hrest.
    cbn [ofCounts map fold_left fst snd inner] in *.
    unfold Rec.lookup. rewrite get_ofCounts. unfold weight in *.
    destruct (Rec.get d k) as [m|] eqn:Hget; cbn [option_map].
    + destruct (Hd k m (get_In _ _ _ Hget)) as [Hm _].
      assert (Hprod : (0 < Z.of_nat n * Z.of_nat m)%Z) by nia.
      assert (Hmsmall : (Z.of_nat m < 2 ^ 53)%Z) by nia.
      assert (Htruthy : Double.truthy (Double.ofNat m) = true).
      { destruct (ofZ_finite (Z.of_nat m)) as [mantissa [exponent Hfin]];
          [lia|].
        unfold Double.ofNat. now rewrite Hfin. }
      cbn [isTruthy toNumber]. rewrite Htruthy. unfold Double.ofNat.
      rewrite mul_whole by lia. rewrite add_whole by lia.
      fold (ofCounts l). rewrite IH by (try assumption; lia).
      f_equal. lia.
    + rewrite Hk. fold (ofCounts l). rewrite IH by (try assumption; lia).
      f_equal. lia.
Qed.

(** The dot product of two vectors of counts is their inner product. *)
Lemma dotProduct_counts (c d : Rec.t nat) :
  wholeCounts c -> wholeCounts d -> (inner c d < 2 ^ 53)%Z ->
  dotProduct (ofCounts c) (ofCounts d) = Double.ofZ (inner c d).
Proof.
  intros Hc Hd Hsmall. unfold dotProduct. rewrite enumerate_ofCounts.
  pose proof (inner_perm _ _ d (enumerate_perm c)) as Hperm.
  change Double.zero with (Double.ofZ 0).
  rewrite (dotProduct_counts_from d (Rec.enumerate c) 0 Hd).
  - f_equal. lia.
  - intros k n Hin. apply (proj2 Hc). now apply enumerate_In.
  - lia.
  - lia.
Qed.

(** On vectors of counts the order of the arguments does not matter. *)
Lemma cosineSimilarity_counts_comm (c d : Rec.t nat) :
  wholeCounts c -> wholeCounts d -> (inner c d < 2 ^ 53)%Z ->
  cosineSimilarity (ofCounts c) (ofCounts d)
  = cosineSimilarity (ofCounts d) (ofCounts c).
Proof.
  intros Hc Hd Hsmall.
  pose proof (inner_comm c d (proj1 Hc) (proj1 Hd)) as Hcomm.
  unfold cosineSimilarity.
  rewrite (dotProduct_counts c d), (dotProduct_counts d c)
    by (try assumption; lia).
  now rewrite Hcomm, orb_comm, mul_comm.
Qed.









(** ** Sentence clusterer *)

Lemma nth_snoc {A} (l : list A) (x d : A) (j : nat) :
  nth j (l ++ [x]) d
  = if (j <? List.length l)%nat then nth j l d
    else if (j =? List.length l)%nat then x else d.
Proof.
  destruct (Nat.ltb_spec j (List.length l)) as [Hlt|Hge].
  - now apply app_nth1.
  - rewrite app_nth2 by exact Hge.
    destruct (Nat.eqb_spec j (List.length l)) as [->|Hne].
    + now rewrite Nat.sub_diag.
    + destruct (j - List.length l)%nat as [|[|m]] eqn:E; simpl;
        [lia | reflexivity | reflexivity].
Qed.

Section FirstFit.
Variable similarTo : string -> string -> bool.

(** The first opener, by position, that a sentence is similar to. *)
Fixpoint firstMatch (openers : list string) (s : string) : option nat :=
  match openers with
  | [] => None
  | o :: rest =>
      if similarTo o s then Some 0%nat else option_map S (firstMatch rest s)
  end.

Definition labelOf (openers : list string) (s : string) : Z :=
  match firstMatch openers s with
  | Some c => Z.of_nat c
  | None => unassigned
  end.

(** The labelling in one pass: a sentence joins the first opener it is
    similar to, or else becomes the next opener. *)
Fixpoint firstFit (openers : list string) (sentences : list string)
  : list Z :=
  match sentences with
  | [] => []
  | s :: rest =>
      match firstMatch openers s with
      | Some c => Z.of_nat c :: firstFit openers rest
      | None =>
          Z.of_nat (List.length openers) :: firstFit (openers ++ [s]) rest
      end
  end.

Lemma firstMatch_Some (openers : list string) (s : string) (c : nat) :
  firstMatch openers s = Some c ->
  (c < List.length openers)%nat
  /\ similarTo (nth c openers "") s = true
  /\ forall c', (c' < c)%nat -> similarTo (nth c' openers "") s = false.
Proof.
  revert c. induction openers as [|o rest IH]; intros c; simpl; [discriminate|].
  destruct (similarTo o s) eqn:E.
  - intros [= <-]. repeat split; [lia | exact E | intros c' H; lia].
  - destruct (firstMatch rest s) as [c0|]; simpl; [|discriminate].
    intros [= <-]. destruct (IH c0 eq_refl) as [Hlt [Hsim Hmin]].
    repeat split; [lia | exact Hsim |].
    intros [|c'] H; [exact E | apply Hmin; lia].
Qed.

Lemma firstMatch_None (openers : list string) (s : string) :
  firstMatch openers s = None ->
  forall c, (c < List.length openers)%nat ->
            similarTo (nth c openers "") s = false.
Proof.
  induction openers as [|o rest IH]; simpl; [intros _ c H; lia|].
  destruct (similarTo o s) eqn:E; [discriminate|].
  destruct (firstMatch rest s) eqn:F; simpl; [discriminate|].
  intros _ [|c] H; [exact E | apply IH; [reflexivity | lia]].
Qed.

Lemma firstMatch_snoc (openers : list string) (o s : string) :
  firstMatch (openers ++ [o]) s
  = match firstMatch openers s with
    | Some c => Some c
    | None => if similarTo o s then Some (List.length openers) else None
    end.
Proof.
  induction openers as [|o' rest IH]; simpl.
  - destruct (similarTo o s); reflexivity.
  - destruct (similarTo o' s); [reflexivity|]. rewrite IH.
    destruct (firstMatch rest s); simpl; [reflexivity|].
    destruct (similarTo o s); reflexivity.
Qed.

Lemma labelOf_assigned (openers : list string) (s : string) :
  (labelOf openers s =? unassigned)%Z = true <-> firstMatch openers s = None.
Proof.
  unfold labelOf, unassigned. destruct (firstMatch openers s) as [c|].
  - split; [|discriminate]. intros H. apply Z.eqb_eq in H. lia.
  - split; reflexivity.
Qed.

Lemma markSimilar_labelOf (openers : list string) (o : string)
  (sentences : list string) :
  markSimilar similarTo o (Z.of_nat (List.length openers)) sentences
    (map (labelOf openers) sentences)
  = map (labelOf (openers ++ [o])) sentences.
Proof.
  induction sentences as [|s rest IH]; simpl; [reflexivity|].
  rewrite IH. f_equal.
  unfold labelOf at 3. rewrite firstMatch_snoc.
  destruct (firstMatch openers s) as [c|] eqn:F.
  - assert (H : (labelOf openers s =? unassigned)%Z = false).
    { destruct (labelOf openers s =? unassigned)%Z eqn:E; [|reflexivity].
      apply labelOf_assigned in E. congruence. }
    rewrite H. simpl. unfold labelOf. now rewrite F.
  - assert (H : (labelOf openers s =? unassigned)%Z = true)
      by now apply labelOf_assigned.
    rewrite H. simpl. destruct (similarTo o s); [reflexivity|].
    unfold labelOf. now rewrite F.
Qed.

Lemma clusterFrom_firstFit (openers sentences : list string) :
  clusterFrom similarTo (Z.of_nat (List.length openers)) sentences
    (map (labelOf openers) sentences)
  = firstFit openers sentences.
Proof.
  revert openers. induction sentences as [|s rest IH]; intros openers; simpl;
    [reflexivity|].
  destruct (firstMatch openers s) as [c|] eqn:F.
  - assert (H : (labelOf openers s =? unassigned)%Z = false).
    { destruct (labelOf openers s =? unassigned)%Z eqn:E; [|reflexivity].
      apply labelOf_assigned in E. congruence. }
    rewrite H, IH. unfold labelOf. now rewrite F.
  - assert (H : (labelOf openers s =? unassigned)%Z = true)
      by now apply labelOf_assigned.
    rewrite H, markSimilar_labelOf. f_equal.
    replace (Z.of_nat (List.length openers) + 1)%Z
      with (Z.of_nat (List.length (openers ++ [s])))
      by (rewrite length_app; simpl; lia).
    apply IH.
Qed.

(** The two loops compute the one-pass labelling. *)
Lemma clusterWith_firstFit (sentences : list string) :
  clusterWith similarTo sentences = firstFit [] sentences.
Proof.
  unfold clusterWith. rewrite <- clusterFrom_firstFit. simpl. f_equal.
  induction sentences as [|s rest IH]; simpl; [reflexivity | now rewrite IH].
Qed.

(** What holds of the sentences read so far, their labels and the openers
    met among them. *)
Definition labelled (pre : list string) (lp : list Z) (openers : list string)
  : Prop :=
  List.length lp = List.length pre
  /\ (forall j, (j < List.length pre)%nat ->
        exists c, (c < List.length openers)%nat
          /\ nth j lp unassigned = Z.of_nat c
          /\ (forall c', (c' < c)%nat ->
                similarTo (nth c' openers "") (nth j pre "") = false)
          /\ (similarTo (nth c openers "") (nth j pre "") = true
              \/ forall i, (i < j)%nat ->
                   (nth i lp unassigned < Z.of_nat c)%Z))
  /\ (forall c, (c < List.length openers)%nat ->
        exists o, (o < List.length pre)%nat
          /\ nth o lp unassigned = Z.of_nat c
          /\ nth o pre "" = nth c openers ""
          /\ forall i, (i < o)%nat -> (nth i lp unassigned < Z.of_nat c)%Z).

Lemma labelled_below (pre : list string) (lp : list Z)
  (openers : list string) (j : nat) :
  labelled pre lp openers -> (j < List.length pre)%nat ->
  (nth j lp unassigned < Z.of_nat (List.length openers))%Z.
Proof.
  intros [_ [HJ _]] Hj. destruct (HJ j Hj) as [c [Hc [-> _]]]. lia.
Qed.

Lemma labelled_join (pre : list string) (lp : list Z)
  (openers : list string) (s : string) (c : nat) :
  labelled pre lp openers -> firstMatch openers s = Some c ->
  labelled (pre ++ [s]) (lp ++ [Z.of_nat c]) openers.
Proof.
  intros [HL [HJ HO]] F. apply firstMatch_Some in F as [Hc [Hsim Hmin]].
  split; [rewrite !length_app; simpl; lia|]. split.
  - intros j Hj. rewrite length_app in Hj. simpl in Hj.
    rewrite !nth_snoc, HL.
    destruct (Nat.ltb_spec j (List.length pre)) as [Hlt|Hge].
    + destruct (HJ j Hlt) as [c0 [Hc0 [Hlab [Hmin0 Hor]]]].
      exists c0. repeat split; try assumption.
      destruct Hor as [H|H]; [now left | right].
      intros i Hi. rewrite nth_snoc, HL.
      destruct (Nat.ltb_spec i (List.length pre)); [apply H; lia | lia].
    + assert (j = List.length pre) as -> by lia. rewrite Nat.eqb_refl.
      exists c. repeat split; try assumption. now left.
  - intros c0 Hc0. destruct (HO c0 Hc0) as [o [Ho [Hlab [Hpre Hbefore]]]].
    exists o. rewrite length_app, !nth_snoc, HL. simpl.
    destruct (Nat.ltb_spec o (List.length pre)); [|lia].
    repeat split; try assumption; [lia|].
    intros i Hi. rewrite nth_snoc, HL.
    destruct (Nat.ltb_spec i (List.length pre)); [apply Hbefore; lia | lia].
Qed.

Lemma labelled_open (pre : list string) (lp : list Z)
  (openers : list string) (s : string) :
  labelled pre lp openers -> firstMatch openers s = None ->
  labelled (pre ++ [s]) (lp ++ [Z.of_nat (List.length openers)])
    (openers ++ [s]).
Proof.
  intros Hlab F. pose proof Hlab as [HL [HJ HO]].
  pose proof (firstMatch_None _ _ F) as Hnone.
  split; [rewrite !length_app; simpl; lia|]. split.
  - intros j Hj. rewrite length_app in Hj. simpl in Hj.
    rewrite !nth_snoc, HL.
    destruct (Nat.ltb_spec j (List.length pre)) as [Hlt|Hge].
    + destruct (HJ j Hlt) as [c0 [Hc0 [Hl0 [Hmin0 Hor]]]].
      exists c0. rewrite length_app. simpl.
      split; [lia|]. split; [exact Hl0|]. split.
      * intros c' Hc'. rewrite nth_snoc.
        destruct (Nat.ltb_spec c' (List.length openers)); [|lia].
        now apply Hmin0.
      * rewrite nth_snoc.
        destruct (Nat.ltb_spec c0 (List.length openers)) as [_|?]; [|lia].
        destruct Hor as [Hsim|Hfirst]; [now left | right].
        intros i Hi. rewrite nth_snoc, HL.
        destruct (Nat.ltb_spec i (List.length pre));
          [apply Hfirst; lia | lia].
    + assert (j = List.length pre) as -> by lia. rewrite Nat.eqb_refl.
      exists (List.length openers). rewrite length_app. simpl.
      split; [lia|]. split; [reflexivity|]. split.
      * intros c' Hc'. rewrite nth_snoc.
        destruct (Nat.ltb_spec c' (List.length openers)); [|lia].
        now apply Hnone.
      * right. intros i Hi. rewrite nth_snoc, HL.
        destruct (Nat.ltb_spec i (List.length pre)); [|lia].
        now apply (labelled_below pre lp openers).
  - intros c0 Hc0. rewrite length_app in Hc0. simpl in Hc0.
    rewrite length_app. simpl.
    destruct (Nat.ltb_spec c0 (List.length openers)) as [Hlt|Hge].
    + destruct (HO c0 Hlt) as [o [Ho [Hl0 [Hpre Hbefore]]]].
      exists o. rewrite !nth_snoc, HL.
      destruct (Nat.ltb_spec o (List.length pre)); [|lia].
      destruct (Nat.ltb_spec c0 (List.length openers)); [|lia].
      repeat split; try assumption; [lia|].
      intros i Hi. rewrite nth_snoc, HL.
      destruct (Nat.ltb_spec i (List.length pre)); [apply Hbefore; lia | lia].
    + assert (c0 = List.length openers) as -> by lia.
      exists (List.length pre). rewrite !nth_snoc, HL.
      destruct (Nat.ltb_spec (List.length pre) (List.length pre)); [lia|].
      destruct (Nat.ltb_spec (List.length openers) (List.length openers));
        [lia|].
      rewrite !Nat.eqb_refl. repeat split; [lia|].
      intros i Hi. rewrite nth_snoc, HL.
      destruct (Nat.ltb_spec i (List.length pre)); [|lia].
      now apply (labelled_below pre lp openers).
Qed.

Lemma labelled_firstFit (sentences pre : list string) (lp : list Z)
  (openers : list string) :
  labelled pre lp openers ->
  exists openers',
    labelled (pre ++ sentences) (lp ++ firstFit openers sentences) openers'.
Proof.
  revert pre lp openers.
  induction sentences as [|s rest IH]; intros pre lp openers Hlab; simpl.
  - exists openers. now rewrite !app_nil_r.
  - replace (pre ++ s :: rest) with ((pre ++ [s]) ++ rest)
      by (rewrite <- app_assoc; reflexivity).
    destruct (firstMatch openers s) as [c|] eqn:F.
    + replace (lp ++ Z.of_nat c :: firstFit openers rest)
        with ((lp ++ [Z.of_nat c]) ++ firstFit openers rest)
        by (rewrite <- app_assoc; reflexivity).
      apply IH. now apply labelled_join.
    + replace (lp ++ Z.of_nat (List.length openers)
                  :: firstFit (openers ++ [s]) rest)
        with ((lp ++ [Z.of_nat (List.length openers)])
                ++ firstFit (openers ++ [s]) rest)
        by (rewrite <- app_assoc; reflexivity).
      apply IH. now apply labelled_open.
Qed.

Lemma labelled_clusterWith (sentences : list string) :
  exists openers,
    labelled sentences (clusterWith similarTo sentences) openers.
Proof.
  rewrite clusterWith_firstFit.
  apply (labelled_firstFit sentences [] [] []).
  split; [reflexivity|]. split; intros j Hj; simpl in Hj; lia.
Qed.

End FirstFit.

(** C7: the label array of [clusterSimilarSentences] is aligned with the
    sentences; the labels used are exactly 0 .. k-1; and the label of
    sentence [j] is that of an opener [o <= j], the first sentence with that
    label, such that [o = j] or sentence [j] is similar to sentence [o]
    (the cosine similarity the code computes, a binary64 value, is above
    0.5), while sentence [j] is similar to no
    opener before [o]: it joined the first opener it matched and was not
    looked at again. *)
Theorem clusterSimilarSentences_labels (sentences : list string) :
  let clusters := clusterSimilarSentences sentences in
  let n := List.length sentences in
  let label j := nth j clusters unassigned in
  let isOpener o := forall i, (i < o)%nat -> label i <> label o in
  List.length clusters = n
  /\ (exists k : nat,
        (forall j, (j < n)%nat -> (0 <= label j < Z.of_nat k)%Z)
        /\ forall c, (c < k)%nat ->
             exists j, (j < n)%nat /\ label j = Z.of_nat c)
  /\ forall j, (j < n)%nat ->
       exists o, (o <= j)%nat
         /\ label o = label j
         /\ isOpener o
         /\ (o = j
             \/ similar (nth o sentences "") (nth j sentences "") = true)
         /\ forall i, (i < o)%nat -> isOpener i ->
              similar (nth i sentences "") (nth j sentences "") = false.
Proof.
  intros clusters n label isOpener.
  destruct (labelled_clusterWith similar sentences) as [openers Hlab].
  fold (clusterSimilarSentences sentences) in Hlab. fold clusters in Hlab.
  pose proof Hlab as [HL [HJ HO]]. fold n in HL, HJ, HO.
  split; [exact HL|]. split.
  - exists (List.length openers). split.
    + intros j Hj. destruct (HJ j Hj) as [c [Hc [Hl _]]].
      unfold label. rewrite Hl. lia.
    + intros c Hc. destruct (HO c Hc) as [o [Ho [Hl _]]]. now exists o.
  - intros j Hj.
    destruct (HJ j Hj) as [c [Hc [Hl [Hmin Hor]]]].
    destruct (HO c Hc) as [o [Ho [Hlo [Hpre Hbefore]]]].
    assert (Hoj : (o <= j)%nat).
    { destruct (Nat.le_gt_cases o j) as [H|H]; [exact H|].
      specialize (Hbefore j H). lia. }
    exists o. split; [exact Hoj|]. split; [unfold label; congruence|].
    split; [intros i Hi; unfold label; specialize (Hbefore i Hi); lia|].
    split.
    + destruct Hor as [Hsim|Hfirst].
      * right. rewrite Hpre. exact Hsim.
      * left. destruct (Nat.eq_dec o j) as [E|E]; [exact E|].
        assert (Hlt : (o < j)%nat) by lia.
        specialize (Hfirst o Hlt). lia.
    + intros i Hi Hopen.
      assert (Hin : (i < n)%nat) by lia.
      destruct (HJ i Hin) as [ci [Hci [Hli _]]].
      destruct (HO ci Hci) as [oi [Hoi [Hloi [Hprei Hbi]]]].
      assert (oi = i) as ->.
      { destruct (Nat.lt_trichotomy oi i) as [H|[H|H]]; [|exact H|].
        - exfalso. apply (Hopen oi H). unfold label. congruence.
        - specialize (Hbi i H). lia. }
      rewrite Hprei. apply Hmin.
      specialize (Hbefore i Hi). lia.
Qed.

(** Two sentences whose cosine is 1/2 in exact arithmetic and
    0.5000000000000001 in binary64 share a cluster; two copies of a sentence
    made of the word "constructor", whose similarity is NaN, do not. *)
Example clusterSimilarSentences_last_digit :
  calculateSentenceSimilarity "mice fish fish cats." "cats mice mice owls."
  = S754_finite false 4503599627370497 (-53)
  /\ clusterSimilarSentences ["mice fish fish cats."; "cats mice mice owls."]
     = [0%Z; 0%Z]
  /\ calculateSentenceSimilarity "Constructor." "Constructor." = Double.nan
  /\ clusterSimilarSentences ["Constructor."; "Constructor."] = [0%Z; 1%Z].
Proof. repeat split; vm_compute; reflexivity. Qed.

(** ** The summarizer on a text whose selection loop does not end *)

Definition fruitText : string :=
  "This is what we do with apples. This is what we do with bananas. Cats are not so very up. This is what we do with cherries. This is what we do with grapes.".

Definition fruitSentences : list string :=
  ["This is what we do with apples.";
   "This is what we do with bananas.";
   "Cats are not so very up.";
   "This is what we do with cherries.";
   "This is what we do with grapes."].

Lemma fruit_clusters :
  clusterSimilarSentences fruitSentences = [0; 0; 1; 0; 0]%Z.
Proof. vm_compute. reflexivity. Qed.

Definition fruitWeight : R := INR 1 / INR 34 * ln ((INR 5 + 1) / (INR 1 + 1) + 1).

Lemma fruitWeight_pos : 0 < fruitWeight.
Proof.
  unfold fruitWeight. simpl.
  assert (H : 0 < ln ((1 + 1 + 1 + 1 + 1 + 1) / (1 + 1) + 1)).
  { rewrite <- ln_1. apply ln_increasing; lra. }
  apply Rmult_lt_0_compat; [lra | exact H].
Qed.

Definition fruitWords : list string :=
  ["apples"; "bananas"; "cats"; "cherries"; "grapes"].

Lemma fruit_keywordScores :
  keywordScoresOf fruitText fruitSentences
  = map (fun w => (w, Num.Fin fruitWeight)) fruitWords.
Proof.
  unfold keywordScoresOf.
  replace (extractPhrases fruitText 3)
    with [("apples bananas cats", 1%nat); ("bananas cats cherries", 1%nat);
          ("cats cherries grapes", 1%nat)] by (vm_compute; reflexivity).
  replace (documentsOf fruitText fruitSentences) with fruitSentences
    by (vm_compute; reflexivity).
  cbn [phraseEntries filter snd Nat.ltb Nat.leb map Rec.assign fold_left].
  unfold calculateTFIDF, calculateTF, calculateIDFWithSmoothing.
  replace (countWords (filter keepWord (tokenizeWords fruitText)))
    with (map (fun w => (w, Rec.Times 1)) fruitWords)
    by (vm_compute; reflexivity).
  replace (List.length (tokenizeWords fruitText)) with 34%nat
    by (vm_compute; reflexivity).
  replace (wordInDocCount fruitSentences)
    with [("this", Rec.Times 4); ("is", Rec.Times 4); ("what", Rec.Times 4);
          ("we", Rec.Times 4); ("do", Rec.Times 4); ("with", Rec.Times 4);
          ("apples", Rec.Times 1); ("bananas", Rec.Times 1);
          ("cats", Rec.Times 1); ("are", Rec.Times 1); ("not", Rec.Times 1);
          ("so", Rec.Times 1); ("very", Rec.Times 1); ("up", Rec.Times 1);
          ("cherries", Rec.Times 1); ("grapes", Rec.Times 1)]
    by (vm_compute; reflexivity).
  set (idf := map (fun wd => (fst wd, smoothedIdfOf _ (snd wd))) _).
  assert (Hln : ln ((INR 5 + 1) / (INR 1 + 1) + 1) <> 0).
  { pose proof fruitWeight_pos as Hpos. unfold fruitWeight in Hpos.
    intros E. rewrite E in Hpos. lra. }
  assert (Hidf : forall w, In w fruitWords ->
             orElse (Rec.lookup idf w) 1
             = Num.Fin (ln ((INR 5 + 1) / (INR 1 + 1) + 1))).
  { intros w Hw. simpl in Hw.
    destruct Hw as [<-|[<-|[<-|[<-|[<-|[]]]]]];
      (replace (Rec.lookup idf _)
         with (Rec.Own (Num.Fin (ln ((INR 5 + 1) / (INR 1 + 1) + 1))))
         by reflexivity);
      unfold orElse, Num.truthy;
      (destruct (Req_dec_T _ 0); [contradiction | reflexivity]). }
  unfold fruitWords in *. cbn [map fst snd].
  rewrite !Hidf by (simpl; tauto).
  reflexivity.
Qed.

Ltac score_sentence :=
  unfold scoreSentence;
  match goal with
  | |- context [tokenizeWords ?s] =>
      let v := eval vm_compute in (tokenizeWords s) in
      replace (tokenizeWords s) with v by (vm_compute; reflexivity)
  end;
  rewrite fruit_keywordScores;
  unfold Rec.lookup, fruitWords;
  cbn [fold_left List.length map Rec.get String.eqb Ascii.eqb Bool.eqb andb
       Rec.inherited Rec.objectPrototype existsb orb];
  unfold Num.truthy;
  destruct (Req_dec_T fruitWeight 0) as [E|_];
  [pose proof fruitWeight_pos; lra | simpl; f_equal; lra].

Lemma fruit_score_0 :
  scoreSentence (keywordScoresOf fruitText fruitSentences)
    "This is what we do with apples." = Num.Fin (fruitWeight / 7.1).
Proof. score_sentence. Qed.

Lemma fruit_score_1 :
  scoreSentence (keywordScoresOf fruitText fruitSentences)
    "This is what we do with bananas." = Num.Fin (fruitWeight / 7.1).
Proof. score_sentence. Qed.

Lemma fruit_score_2 :
  scoreSentence (keywordScoresOf fruitText fruitSentences)
    "Cats are not so very up." = Num.Fin (fruitWeight / 6.1).
Proof. score_sentence. Qed.

Lemma fruit_score_3 :
  scoreSentence (keywordScoresOf fruitText fruitSentences)
    "This is what we do with cherries." = Num.Fin (fruitWeight / 7.1).
Proof. score_sentence. Qed.

Lemma fruit_score_4 :
  scoreSentence (keywordScoresOf fruitText fruitSentences)
    "This is what we do with grapes." = Num.Fin (fruitWeight / 7.1).
Proof. score_sentence. Qed.

Lemma fruit_positions :
  getEnhancedPositionWeight 0 5 = 1.3
  /\ getEnhancedPositionWeight 1 5 = 1.0
  /\ getEnhancedPositionWeight 2 5 = 0.9
  /\ getEnhancedPositionWeight 3 5 = 1.0
  /\ getEnhancedPositionWeight 4 5 = 1.2.
Proof.
  unfold getEnhancedPositionWeight. simpl.
  repeat split;
    repeat match goal with
    | |- context [Rle_dec ?x ?y] => destruct (Rle_dec x y); try lra
    | |- context [Rge_dec ?x ?y] => destruct (Rge_dec x y); try lra
    end.
Qed.

Lemma phraseBoost_none (topPhrases : list string) (s : string) :
  existsb (Js.includes s) topPhrases = false -> phraseBoost topPhrases s = 1.0.
Proof.
  unfold phraseBoost. generalize 1.0.
  induction topPhrases as [|p ps IH]; intros b; simpl; [reflexivity|].
  intros H. apply orb_false_elim in H as [Hp Hps]. rewrite Hp. now apply IH.
Qed.

Lemma fruitWeight_small : fruitWeight < 1.
Proof.
  unfold fruitWeight. simpl.
  assert (H : ln ((1 + 1 + 1 + 1 + 1 + 1) / (1 + 1) + 1) < 34).
  { rewrite <- (ln_exp 34). apply ln_increasing; [lra|].
    pose proof (exp_ineq1 34 ltac:(lra)). lra. }
  replace (1 + 1 + 1 + 1 + 1 + 1 + 1 + 1 + 1 + 1 + 1 + 1 + 1 + 1 + 1 + 1 + 1 + 1 + 1 + 1 + 1 + 1 + 1 + 1 + 1 + 1 + 1 + 1 + 1 + 1 + 1 + 1 + 1 + 1) with 34 by lra.
  lra.
Qed.

Definition fruitSentence (index : nat) (s : string) (base position : R)
  (label : Z) : ScoredSentence :=
  {| sentence := s;
     originalIndex := index;
     score := fruitWeight / base * position * 0.7 * 1.0;
     cluster := label |}.

Definition fruit0 := fruitSentence 0 "This is what we do with apples." 7.1 1.3 0.
Definition fruit1 := fruitSentence 1 "This is what we do with bananas." 7.1 1.0 0.
Definition fruit2 := fruitSentence 2 "Cats are not so very up." 6.1 0.9 1.
Definition fruit3 := fruitSentence 3 "This is what we do with cherries." 7.1 1.0 0.
Definition fruit4 := fruitSentence 4 "This is what we do with grapes." 7.1 1.2 0.

Lemma fruit_scored :
  scoredSentencesOf fruitText = [fruit0; fruit1; fruit2; fruit3; fruit4].
Proof.
  unfold scoredSentencesOf.
  replace (tokenizeSentences fruitText) with fruitSentences
    by (vm_compute; reflexivity).
  rewrite fruit_clusters.
  destruct fruit_positions as [P0 [P1 [P2 [P3 P4]]]].
  set (keywordScores := keywordScoresOf fruitText fruitSentences).
  unfold fruitSentences.
  cbn [mapIndexed List.length nth].
  subst keywordScores.
  rewrite P0, P1, P2, P3, P4.
  rewrite fruit_score_0, fruit_score_1, fruit_score_2, fruit_score_3,
    fruit_score_4.
  rewrite !lengthFactor_no_backslash by (vm_compute; reflexivity).
  rewrite !phraseBoost_none by (vm_compute; reflexivity).
  reflexivity.
Qed.

Ltac decide_order :=
  cbn [Num.lt Num.descending];
  repeat match goal with
  | |- context [Rle_dec ?x ?y] =>
      destruct (Rle_dec x y); [try (exfalso; lra) | try (exfalso; lra)]
  | |- context [Rlt_dec ?x ?y] =>
      destruct (Rlt_dec x y); [try (exfalso; lra) | try (exfalso; lra)]
  end.

Lemma fruit_ranked :
  rank [fruit0; fruit1; fruit2; fruit3; fruit4]
  = [fruit0; fruit4; fruit2; fruit1; fruit3].
Proof.
  pose proof fruitWeight_pos as Hpos.
  unfold rank, stableSort, byScoreDescending.
  cbn [fold_right insertSorted fruit0 fruit1 fruit2 fruit3 fruit4
       fruitSentence score Num.descending].
  repeat
    (match goal with
     | |- context [Rle_dec ?x ?y] =>
         destruct (Rle_dec x y); [try (exfalso; lra) | try (exfalso; lra)]
     end;
     cbn [insertSorted fruit0 fruit1 fruit2 fruit3 fruit4 fruitSentence
          score Num.descending]).
  reflexivity.
Qed.

Lemma backfill_stuck (numSentences : nat)
  (ranked selected : list ScoredSentence) :
  backfillStep numSentences ranked selected = Some selected ->
  forall fuel, backfill fuel numSentences ranked selected = None.
Proof.
  intros Hstep fuel. induction fuel as [|fuel IH]; simpl; rewrite Hstep.
  - reflexivity.
  - exact IH.
Qed.

Lemma fruit_selection_runs_forever (fuel : nat) :
  selectSentences fuel 3 [fruit0; fruit4; fruit2; fruit1; fruit3] = None.
Proof.
  pose proof fruitWeight_pos as Hpos. pose proof fruitWeight_small as Hsmall.
  unfold selectSentences.
  assert (Hgreedy :
            selectDiverse 3 [fruit0; fruit4; fruit2; fruit1; fruit3] [] []
            = [fruit0; fruit2]).
  { unfold selectDiverse, belowOverride, hasCluster.
    cbn [List.length Nat.leb existsb app cluster score Z.eqb Pos.eqb orb andb
         fruit0 fruit1 fruit2 fruit3 fruit4 fruitSentence Num.lt].
    decide_order. reflexivity. }
  rewrite Hgreedy. apply backfill_stuck. reflexivity.
Qed.

Definition fruitRequest : SummarizationRequest :=
  {| sumText := fruitText; sumLength := long; sumStyle := None |}.

(** C1, as the code behaves: on a text of five sentences summarized at
    length long the target is 3, the diversity pass selects the sentences
    ranked first and third, and the backfill loop then looks at the sentence
    ranked third for ever, because it is already selected: [summarizeText]
    does not return, whatever the number of turns allowed. *)
Theorem summarizeText_backfill_never_ends :
  tokenizeSentences fruitText = fruitSentences
  /\ numSentencesFor long (List.length fruitSentences) = 3%nat
  /\ rank (scoredSentencesOf fruitText)
     = [fruit0; fruit4; fruit2; fruit1; fruit3]
  /\ selectDiverse 3 (rank (scoredSentencesOf fruitText)) [] []
     = [fruit0; fruit2]
  /\ backfillStep 3 (rank (scoredSentencesOf fruitText)) [fruit0; fruit2]
     = Some [fruit0; fruit2]
  /\ forall format fuel, summarizeText format fuel fruitRequest = Running.
Proof.
  pose proof fruitWeight_pos as Hpos. pose proof fruitWeight_small as Hsmall.
  rewrite fruit_scored, fruit_ranked.
  split; [vm_compute; reflexivity|].
  split; [vm_compute; reflexivity|].
  split; [reflexivity|].
  split.
  { unfold selectDiverse, belowOverride, hasCluster.
    cbn [List.length Nat.leb existsb app cluster score Z.eqb Pos.eqb orb andb
         fruit0 fruit1 fruit2 fruit3 fruit4 fruitSentence Num.lt].
    decide_order. reflexivity. }
  split; [reflexivity|].
  intros format fuel. unfold summarizeText.
  replace (Js.isEmpty (Js.trim (sumText fruitRequest))) with false
    by (vm_compute; reflexivity).
  unfold enhancedSummarize. cbn [sumText sumLength fruitRequest].
  rewrite fruit_scored, fruit_ranked.
  replace (numSentencesFor long
             (List.length [fruit0; fruit1; fruit2; fruit3; fruit4]))
    with 3%nat by (vm_compute; reflexivity).
  rewrite fruit_selection_runs_forever. reflexivity.
Qed.

(** ** Standard TF-IDF on the second scenario of the specification *)

Definition scienceText : string := kwText scenario2.

Definition scienceWords : list string :=
  ["data"; "science"; "analysis"; "mining"].

Lemma scenario2_tfidf :
  calculateTFIDF (calculateTF scienceText) (calculateIDF [scienceText])
  = [("data", Num.Fin (3 / 6)); ("science", Num.Fin (1 / 6));
     ("analysis", Num.Fin (1 / 6)); ("mining", Num.Fin (1 / 6))].
Proof.
  unfold calculateTFIDF, calculateTF, calculateIDF.
  replace (countWords (filter keepWord (tokenizeWords scienceText)))
    with [("data", Rec.Times 3); ("science", Rec.Times 1);
          ("analysis", Rec.Times 1); ("mining", Rec.Times 1)]
    by (vm_compute; reflexivity).
  replace (List.length (tokenizeWords scienceText)) with 6%nat
    by (vm_compute; reflexivity).
  replace (documentCounts [scienceText])
    with (map (fun w => (w, Rec.Times 1)) scienceWords)
    by (vm_compute; reflexivity).
  set (idf := map (fun wd => (fst wd, idfOf _ (snd wd))) _).
  assert (Hone : log10 ((INR 1 + 1) / (INR 1 + 1)) + 1 = 1).
  { replace ((INR 1 + 1) / (INR 1 + 1)) with 1 by (simpl; lra).
    rewrite log10_1. lra. }
  assert (Hidf : forall w, In w scienceWords ->
             orElse (Rec.lookup idf w) 1 = Num.Fin 1).
  { intros w Hw. simpl in Hw.
    destruct Hw as [<-|[<-|[<-|[<-|[]]]]];
      (replace (Rec.lookup idf _)
         with (Rec.Own (Num.Fin (log10 ((INR 1 + 1) / (INR 1 + 1)) + 1)))
         by reflexivity);
      rewrite Hone; unfold orElse, Num.truthy;
      (destruct (Req_dec_T 1 0); [lra | reflexivity]). }
  cbn [map fst snd].
  rewrite !Hidf by (simpl; tauto).
  cbn [Num.ofCounter Num.div Num.mul].
  repeat (apply f_equal2;
          [apply f_equal2; [reflexivity | f_equal; simpl; lra] | ]).
  reflexivity.
Qed.

Lemma scenario2_keywords :
  extractWithStandardTFIDF scienceText [scienceText] 2
  = [ {| keyword := "data"; kwScore := 3 / 6 |};
      {| keyword := "science"; kwScore := 1 / 6 |} ].
Proof.
  unfold extractWithStandardTFIDF. rewrite scenario2_tfidf.
  unfold stableSort, byKwScoreDescending.
  cbn [map fst snd fold_right insertSorted kwScore Num.descending].
  repeat
    (match goal with
     | |- context [Rle_dec ?x ?y] =>
         destruct (Rle_dec x y); [try (exfalso; lra) | try (exfalso; lra)]
     end;
     cbn [insertSorted kwScore Num.descending]).
  reflexivity.
Qed.

(** C2, as the code behaves: with method standard_tfidf the scores are the
    raw TF-IDF values; for "data science data analysis data mining" and
    count 2 the answer is data with score 3/6 and science with score 1/6, so
    the greatest score is 0.5 and not 1. *)
Theorem extractKeywords_standard_not_normalized :
  exists response,
    extractKeywords scenario2 = Returned response
    /\ keywords response
       = [ {| keyword := "data"; kwScore := 3 / 6 |};
           {| keyword := "science"; kwScore := 1 / 6 |} ]
    /\ maxOf (map kwScore (keywords response)) = 0.5
    /\ maxOf (map kwScore (keywords response)) <> 1.
Proof.
  exists (enhancedExtractKeywords scenario2).
  split; [apply extractKeywords_nonblank; vm_compute; reflexivity|].
  assert (Hkeys :
            keywords (enhancedExtractKeywords scenario2)
            = [ {| keyword := "data"; kwScore := 3 / 6 |};
                {| keyword := "science"; kwScore := 1 / 6 |} ]).
  { unfold enhancedExtractKeywords.
    cbn [kwText kwCount kwMethod scenario2 keywords String.eqb Ascii.eqb
         Bool.eqb andb].
    replace (if (1 <? List.length
                        (paragraphsOf "data science data analysis data mining"))%nat
             then paragraphsOf "data science data analysis data mining"
             else tokenizeSentences "data science data analysis data mining")
      with [scienceText] by (vm_compute; reflexivity).
    exact scenario2_keywords. }
  rewrite Hkeys. split; [reflexivity|].
  assert (Hmax : maxOf [Num.Fin (3 / 6); Num.Fin (1 / 6)] = Num.Fin 0.5).
  { unfold maxOf. cbn [fold_left Num.max]. unfold Rmax.
    destruct (Rle_dec (3 / 6) (1 / 6)); f_equal; lra. }
  cbn [map kwScore]. rewrite Hmax.
  split; [reflexivity | intros E; injection E; lra].
Qed.

(** * Further properties of the code *)

(** ** Sentence selection *)

Lemma selectDiverse_shape (numSentences : nat)
  (ranked selected : list ScoredSentence) (clusters : list Z) :
  exists picked,
    selectDiverse numSentences ranked selected clusters = selected ++ picked
    /\ (forall s, In s picked -> In s ranked)
    /\ (List.length picked <= List.length ranked)%nat
    /\ (List.length selected <= numSentences ->
        List.length (selected ++ picked) <= numSentences)%nat
    /\ (NoDup (map originalIndex ranked) ->
        NoDup (map originalIndex picked)).
Proof.
  revert selected clusters.
  induction ranked as [|s rest IH]; intros selected clusters; simpl.
  - exists []. rewrite !app_nil_r.
    split; [reflexivity|]. split; [intros ? []|]. split; [simpl; lia|].
    split; [tauto | intros _; constructor].
  - destruct (Nat.leb_spec numSentences (List.length selected)) as [Hfull|Hroom].
    + exists []. rewrite !app_nil_r.
      split; [reflexivity|]. split; [intros ? []|]. split; [simpl; lia|].
      split; [tauto | intros _; constructor].
    + destruct (hasCluster clusters (cluster s) && belowOverride s).
      * destruct (IH selected clusters) as [picked [Heq [Hin [Hlen [Hcap Hnd]]]]].
        exists picked. repeat split; auto.
        intros Hnd'. apply Hnd. now inversion Hnd'.
      * destruct (IH (selected ++ [s]) (cluster s :: clusters))
          as [picked [Heq [Hin [Hlen [Hcap Hnd]]]]].
        exists (s :: picked). rewrite Heq, <- app_assoc. simpl.
        repeat split.
        -- intros x [<-|Hx]; [now left | right; now apply Hin].
        -- lia.
        -- intros _. rewrite <- app_assoc in Hcap. simpl in Hcap.
           apply Hcap. rewrite length_app. simpl. lia.
        -- intros Hnd'. inversion Hnd' as [|? ? Hnotin Hnd'']; subst.
           constructor; [|now apply Hnd].
           intros Hx. apply Hnotin. apply in_map_iff in Hx as [x [Hix Hx]].
           apply in_map_iff. exists x. split; [exact Hix | now apply Hin].
Qed.

Lemma includesSentence_spec (selected : list ScoredSentence)
  (x : ScoredSentence) :
  includesSentence selected x = true
  <-> In (originalIndex x) (map originalIndex selected).
Proof.
  unfold includesSentence. rewrite existsb_exists, in_map_iff. split.
  - intros [s [Hin Heq]]. apply Nat.eqb_eq in Heq. now exists s.
  - intros [s [Heq Hin]]. exists s. split; [exact Hin | now apply Nat.eqb_eq].
Qed.

(** What the backfill loop keeps true of the selection. *)
Definition wellSelected (numSentences : nat)
  (ranked selected : list ScoredSentence) : Prop :=
  (List.length selected <= numSentences)%nat
  /\ (List.length selected <= List.length ranked)%nat
  /\ (forall s, In s selected -> In s ranked)
  /\ NoDup (map originalIndex selected).

Lemma backfillStep_keeps (numSentences : nat)
  (ranked selected selected' : list ScoredSentence) :
  wellSelected numSentences ranked selected ->
  backfillStep numSentences ranked selected = Some selected' ->
  wellSelected numSentences ranked selected'.
Proof.
  intros [Hn [Hr [Hin Hnd]]]. unfold backfillStep.
  destruct (Nat.ltb_spec (List.length selected) numSentences) as [Hlt|];
    [|discriminate].
  destruct (Nat.ltb_spec (List.length selected) (List.length ranked))
    as [Hlt'|]; [|discriminate].
  simpl. destruct (nth_error ranked (List.length selected)) as [next|] eqn:E;
    [|discriminate].
  destruct (includesSentence selected next) eqn:I; intros [= <-].
  - repeat split; assumption.
  - repeat split.
    + rewrite length_app. simpl. lia.
    + rewrite length_app. simpl. lia.
    + intros s Hs. apply in_app_or in Hs as [Hs|[<-|[]]]; [now apply Hin|].
      now apply nth_error_In in E.
    + rewrite map_app. simpl. apply NoDup_app; [assumption | |].
      * repeat constructor. intros [].
      * intros i Hi [<-|[]]. apply includesSentence_spec in Hi. congruence.
Qed.

Lemma backfill_result (fuel numSentences : nat)
  (ranked selected result : list ScoredSentence) :
  wellSelected numSentences ranked selected ->
  backfill fuel numSentences ranked selected = Some result ->
  wellSelected numSentences ranked result
  /\ List.length result = Nat.min numSentences (List.length ranked).
Proof.
  revert selected. induction fuel as [|fuel IH]; intros selected Hwell; simpl.
  - destruct (backfillStep numSentences ranked selected) eqn:E; [discriminate|].
    intros [= <-]. split; [exact Hwell|].
    destruct Hwell as [Hn [Hr _]]. unfold backfillStep in E.
    destruct (Nat.ltb_spec (List.length selected) numSentences);
      destruct (Nat.ltb_spec (List.length selected) (List.length ranked));
      simpl in E; try lia.
    destruct (nth_error ranked (List.length selected)) eqn:N; [discriminate|].
    apply nth_error_None in N. lia.
  - destruct (backfillStep numSentences ranked selected) as [selected'|] eqn:E.
    + apply IH. now apply (backfillStep_keeps _ _ selected).
    + intros [= <-]. split; [exact Hwell|].
      destruct Hwell as [Hn [Hr _]]. unfold backfillStep in E.
      destruct (Nat.ltb_spec (List.length selected) numSentences);
        destruct (Nat.ltb_spec (List.length selected) (List.length ranked));
        simpl in E; try lia.
      destruct (nth_error ranked (List.length selected)) eqn:N; [discriminate|].
      apply nth_error_None in N. lia.
Qed.

(** Whenever the selection ends, it holds exactly min(target, number of
    ranked sentences) sentences, all taken from the ranked list and no one
    twice. *)
Theorem selectSentences_on_return (fuel numSentences : nat)
  (ranked selected : list ScoredSentence) :
  NoDup (map originalIndex ranked) ->
  selectSentences fuel numSentences ranked = Some selected ->
  List.length selected = Nat.min numSentences (List.length ranked)
  /\ (forall s, In s selected -> In s ranked)
  /\ NoDup (map originalIndex selected).
Proof.
  intros Hnd Hsel. unfold selectSentences in Hsel.
  destruct (selectDiverse_shape numSentences ranked [] [])
    as [picked [Heq [Hin [Hlen [Hcap Hndp]]]]].
  rewrite Heq in Hsel. simpl in Hsel, Hcap.
  apply backfill_result in Hsel.
  - destruct Hsel as [[_ [_ [Hin' Hnd']]] Hlength]. auto.
  - repeat split; [apply Hcap; lia | exact Hlen | exact Hin | now apply Hndp].
Qed.

Definition pickA : ScoredSentence :=
  {| sentence := "Cats purr."; originalIndex := 0; score := 0.5;
     cluster := 0 |}.
Definition pickB : ScoredSentence :=
  {| sentence := "Cats purr a lot."; originalIndex := 1; score := 0.25;
     cluster := 0 |}.

Lemma selectSentences_on_return_witness :
  List.length [pickA; pickB] = Nat.min 2 (List.length [pickA; pickB])
  /\ (forall s, In s [pickA; pickB] -> In s [pickA; pickB])
  /\ NoDup (map originalIndex [pickA; pickB]).
Proof.
  apply (selectSentences_on_return 1 2 [pickA; pickB] [pickA; pickB]).
  - repeat constructor; simpl; intuition discriminate.
  - unfold selectSentences, selectDiverse, belowOverride, hasCluster.
    cbn [List.length Nat.leb existsb app cluster score Z.eqb orb andb
         pickA pickB Num.lt].
    destruct (Rlt_dec 0.25 0.8) as [_|Hn]; [reflexivity | exfalso; lra].
Defined.

Lemma Sorted_weaken {A} (P Q : A -> A -> Prop) (l : list A) :
  (forall a b, P a b -> Q a b) -> Sorted P l -> Sorted Q l.
Proof.
  intros Himp Hs. induction Hs as [|a l Hs IH Hhd]; constructor; [exact IH|].
  destruct Hhd; constructor. now apply Himp.
Qed.

(** Step 13 of [enhancedSummarize]: the selected sentences are rearranged,
    none lost or added, into ascending order of their original index. *)
Theorem inReadingOrder_sorted (selected : list ScoredSentence) :
  Permutation (inReadingOrder selected) selected
  /\ StronglySorted (fun a b => (originalIndex a <= originalIndex b)%nat)
       (inReadingOrder selected).
Proof.
  unfold inReadingOrder. split; [apply stableSort_perm|].
  apply Sorted_StronglySorted.
  - intros a b c Hab Hbc. lia.
  - apply Sorted_weaken
      with (P := fun a b => (originalIndex a <=? originalIndex b)%nat = true).
    + intros a b H. now apply Nat.leb_le.
    + apply stableSort_sorted. intros a b.
      destruct (Nat.le_ge_cases (originalIndex a) (originalIndex b));
        [left | right]; now apply Nat.leb_le.
Qed.

Lemma Sorted_weaken_In {A} (P Q : A -> A -> Prop) (l : list A) :
  (forall a b, In a l -> In b l -> P a b -> Q a b) ->
  Sorted P l -> Sorted Q l.
Proof.
  intros Himp Hs. induction Hs as [|a l Hs IH Hhd]; constructor.
  - apply IH. intros x y Hx Hy. apply Himp; now right.
  - destruct Hhd as [|b l' Hab]; constructor.
    apply Himp; [now left | right; now left | exact Hab].
Qed.

(** [a <= b] on scores that are numbers. *)
Definition scoreLe (a b : Num.t) : Prop :=
  match a, b with
  | Num.Fin x, Num.Fin y => x <= y
  | _, _ => False
  end.

Lemma scoreLe_trans (a b c : Num.t) :
  scoreLe a b -> scoreLe b c -> scoreLe a c.
Proof. destruct a, b, c; simpl; try tauto. lra. Qed.

Lemma descending_total (a b : Num.t) :
  Num.descending a b = true \/ Num.descending b a = true.
Proof.
  destruct a as [x|], b as [y|]; simpl; auto.
  destruct (Rle_dec y x); [now left|].
  destruct (Rle_dec x y); [now right | lra].
Qed.

Lemma descending_scoreLe (a b : Num.t) :
  a <> Num.NaN -> b <> Num.NaN ->
  Num.descending a b = true -> scoreLe b a.
Proof.
  destruct a as [x|], b as [y|]; simpl; try congruence. intros _ _.
  destruct (Rle_dec y x); [auto | discriminate].
Qed.

(** The ranking is a rearrangement of the scored sentences; when no score is
    NaN it is in descending order of score. *)
Theorem rank_sorted (scored : list ScoredSentence) :
  (forall s, In s scored -> score s <> Num.NaN) ->
  Permutation (rank scored) scored
  /\ StronglySorted (fun a b => scoreLe (score b) (score a)) (rank scored).
Proof.
  intros Hnum. unfold rank. split; [apply stableSort_perm|].
  apply Sorted_StronglySorted.
  - intros a b c Hab Hbc. now apply (scoreLe_trans _ (score b)).
  - apply Sorted_weaken_In
      with (P := fun a b => byScoreDescending a b = true).
    + intros a b Ha Hb. apply descending_scoreLe; apply Hnum.
      * apply (Permutation_in _ (stableSort_perm byScoreDescending scored) Ha).
      * apply (Permutation_in _ (stableSort_perm byScoreDescending scored) Hb).
    + apply stableSort_sorted. intros a b. apply descending_total.
Qed.

Lemma rank_sorted_witness :
  Permutation (rank [pickB; pickA]) [pickB; pickA]
  /\ StronglySorted (fun a b => scoreLe (score b) (score a))
       (rank [pickB; pickA]).
Proof.
  apply (rank_sorted [pickB; pickA]).
  intros s [<-|[<-|[]]]; discriminate.
Defined.

Lemma mapIndexed_length {A B} (f : nat -> A -> B) (from : nat) (xs : list A) :
  List.length (mapIndexed f from xs) = List.length xs.
Proof.
  revert from. induction xs as [|x xs IH]; intros from; simpl;
    [reflexivity | now rewrite IH].
Qed.

Lemma mapIndexed_indices {A} (f : nat -> A -> ScoredSentence) (from : nat)
  (xs : list A) :
  (forall i x, originalIndex (f i x) = i) ->
  map originalIndex (mapIndexed f from xs) = seq from (List.length xs).
Proof.
  intros Hf. revert from. induction xs as [|x xs IH]; intros from; simpl;
    [reflexivity | now rewrite Hf, IH].
Qed.

Lemma mapIndexed_sentences (f : nat -> string -> ScoredSentence) (from : nat)
  (xs : list string) :
  (forall i x, sentence (f i x) = x) ->
  map sentence (mapIndexed f from xs) = xs.
Proof.
  intros Hf. revert from. induction xs as [|x xs IH]; intros from; simpl;
    [reflexivity | now rewrite Hf, IH].
Qed.

(** The scored sentences are the sentences of the text, in order, each with
    its index. *)
Lemma scoredSentencesOf_shape (text : string) :
  map sentence (scoredSentencesOf text) = tokenizeSentences text
  /\ map originalIndex (scoredSentencesOf text)
     = seq 0 (List.length (tokenizeSentences text)).
Proof.
  unfold scoredSentencesOf. split.
  - now apply mapIndexed_sentences.
  - now apply mapIndexed_indices.
Qed.

(** ** Word tokens *)

(** Every word token is a non-empty string of the letters a-z, underscores
    and apostrophes: no upper-case letter, digit, white space or punctuation
    survives [tokenizeWords]. *)
Theorem tokenizeWords_tokens (text w : string) :
  In w (tokenizeWords text) ->
  w <> "" /\ forallb tokenChar (Js.chars w) = true.
Proof.
  unfold tokenizeWords, Js.splitWhitespace. intros Hin.
  apply filter_In in Hin as [Hin Hlen]. split.
  - intros ->. discriminate.
  - apply in_map_iff in Hin as [piece [<- Hpiece]].
    rewrite chars_str in *. apply forallb_forall. intros c Hc.
    destruct (splitSpaceRuns_chars _ _ _ _ Hpiece Hc) as [[]|[Hin Hns]].
    apply blankOut_chars in Hin.
    + destruct Hin as [Hs|Ht]; [congruence | exact Ht].
    + unfold Js.toLowerCase. rewrite chars_str. intros x Hx.
      apply in_map_iff in Hx as [x0 [<- _]]. apply lowerChar_not_upper.
Qed.

Lemma tokenizeWords_tokens_witness :
  "it's" <> "" /\ forallb tokenChar (Js.chars "it's") = true.
Proof.
  apply (tokenizeWords_tokens "Hello, World! It's 2024.").
  vm_compute. right. right. left. reflexivity.
Defined.

(** ** Term frequency *)

Lemma count_countPhrases_from (ws : list string) (r : Rec.t nat) (w : string) :
  Rec.count (fold_left Rec.bump ws r) w
  = (Rec.count r w + count_occ string_dec ws w)%nat.
Proof.
  revert r. induction ws as [|x ws IH]; intros r; simpl; [lia|].
  rewrite IH, count_bump.
  destruct (string_dec x w) as [->|Hne].
  - rewrite String.eqb_refl. lia.
  - destruct (String.eqb_spec w x); [congruence | lia].
Qed.

Lemma countPhrases_spec (ws : list string) (w : string) (n : nat) :
  In (w, n) (countPhrases ws) ->
  n = count_occ string_dec ws w /\ (1 <= n)%nat.
Proof.
  intros Hin. unfold countPhrases in *.
  assert (Hget : Rec.get (fold_left Rec.bump ws []) w = Some n).
  { apply In_get; [|exact Hin]. apply NoDup_keys_bumps. constructor. }
  split.
  - pose proof (count_countPhrases_from ws [] w) as Hc.
    unfold Rec.count in Hc at 1. rewrite Hget in Hc. exact Hc.
  - apply (positiveCounts_bumps ws [] ltac:(intros k m; discriminate) w n Hget).
Qed.

Lemma count_occ_le_length (ws : list string) (w : string) :
  (count_occ string_dec ws w <= List.length ws)%nat.
Proof.
  induction ws as [|x ws IH]; simpl; [lia|].
  destruct (string_dec x w); lia.
Qed.

Lemma count_occ_filter_kept (ws : list string) (w : string) :
  keepWord w = true ->
  count_occ string_dec (filter keepWord ws) w = count_occ string_dec ws w.
Proof.
  intros Hkeep. induction ws as [|x ws IH]; simpl; [reflexivity|].
  destruct (keepWord x) eqn:Hx; simpl.
  - destruct (string_dec x w); now rewrite IH.
  - destruct (string_dec x w) as [->|_]; [congruence | exact IH].
Qed.

(** A kept token names an inherited member exactly when it is
    "constructor" or "__proto__". *)
Lemma kept_inherited (text w : string) :
  In w (tokenizeWords text) -> w <> "__proto__" ->
  Rec.inherited w = String.eqb w "constructor".
Proof.
  intros Hin Hp. destruct (String.eqb_spec w "constructor") as [->|Hc].
  - reflexivity.
  - destruct (Rec.inherited w) eqn:E; [|reflexivity].
    destruct (token_inherited text w Hin E); contradiction.
Qed.

Lemma ratio_in_unit (n d : nat) :
  (1 <= n <= d)%nat -> 0 < INR n / INR d <= 1.
Proof.
  intros [Hn Hd].
  assert (Hlen : 0 < INR d) by (apply lt_0_INR; lia).
  assert (Ho : 0 < INR n) by (apply lt_0_INR; lia).
  apply le_INR in Hd. split.
  - now apply Rdiv_lt_0_compat.
  - apply Rmult_le_reg_r with (INR d); [exact Hlen|].
    unfold Rdiv. rewrite Rmult_assoc, Rinv_l by lra. lra.
Qed.

(** The entries of [calculateTF]. *)
Lemma calculateTF_entry (text w : string) (v : Num.t) :
  In (w, v) (calculateTF text) ->
  let words := tokenizeWords text in
  let occurrences := count_occ string_dec words w in
  keepWord w = true /\ In w words /\ w <> "__proto__"
  /\ (1 <= occurrences <= List.length words)%nat
  /\ v = if String.eqb w "constructor" then Num.NaN
         else Num.Fin (INR occurrences / INR (List.length words)).
Proof.
  intros Hin words occurrences. unfold calculateTF in Hin.
  apply in_map_iff in Hin as [[w' c] [Heq Hin]]. simpl in Heq.
  injection Heq as -> <-. fold words in Hin |- *.
  apply countWords_entry in Hin as [Hp [Hpos ->]].
  assert (Hkept : In w (filter keepWord words)).
  { apply (count_occ_In string_dec). lia. }
  apply filter_In in Hkept as [Hw Hkeep].
  rewrite (count_occ_filter_kept words w Hkeep) in Hpos |- *.
  pose proof (count_occ_le_length words w) as Hle.
  rewrite (kept_inherited text w Hw Hp). subst occurrences.
  repeat split; try assumption; try lia.
  destruct (String.eqb w "constructor"); reflexivity.
Qed.

(** Every entry of [calculateTF] belongs to a kept word (not a stop word,
    longer than two characters) other than "__proto__".  The entry of
    "constructor" is NaN; every other entry is the number of occurrences of
    the word over the number of all tokens, a value in (0, 1]. *)
Theorem calculateTF_values (text w : string) (v : Num.t) :
  In (w, v) (calculateTF text) ->
  let words := tokenizeWords text in
  let occurrences := count_occ string_dec words w in
  keepWord w = true
  /\ w <> "__proto__"
  /\ (1 <= occurrences <= List.length words)%nat
  /\ (w = "constructor" -> v = Num.NaN)
  /\ (w <> "constructor" ->
      v = Num.Fin (INR occurrences / INR (List.length words))
      /\ 0 < INR occurrences / INR (List.length words) <= 1).
Proof.
  intros Hin words occurrences.
  destruct (calculateTF_entry text w v Hin) as [Hkeep [_ [Hp [Hocc Hv]]]].
  fold words occurrences in Hocc, Hv.
  repeat split; try assumption; try lia.
  - intros ->. exact Hv.
  - apply String.eqb_neq in H. now rewrite H in Hv.
  - now apply ratio_in_unit.
  - now apply ratio_in_unit.
Qed.

Definition patternText : string := "Constructor pattern, the constructor.".

Lemma calculateTF_values_witness :
  calculateTF patternText
  = [("constructor", Num.NaN); ("pattern", Num.Fin (INR 1 / INR 4))]
  /\ 0 < INR 1 / INR 4 <= 1.
Proof.
  assert (Htf : calculateTF patternText
                = [("constructor", Num.NaN);
                   ("pattern", Num.Fin (INR 1 / INR 4))]).
  { unfold calculateTF.
    replace (countWords (filter keepWord (tokenizeWords patternText)))
      with [("constructor", Rec.Garbled); ("pattern", Rec.Times 1)]
      by (vm_compute; reflexivity).
    replace (List.length (tokenizeWords patternText)) with 4%nat
      by (vm_compute; reflexivity).
    reflexivity. }
  split; [exact Htf|].
  assert (Hin : In ("pattern", Num.Fin (INR 1 / INR 4))
                  (calculateTF patternText))
    by (rewrite Htf; right; left; reflexivity).
  destruct (calculateTF_values patternText "pattern" _ Hin)
    as [_ [_ [_ [_ Hreg]]]].
  destruct (Hreg ltac:(discriminate)) as [_ Hunit].
  replace (count_occ string_dec (tokenizeWords patternText) "pattern")
    with 1%nat in Hunit by (vm_compute; reflexivity).
  replace (List.length (tokenizeWords patternText)) with 4%nat in Hunit
    by (vm_compute; reflexivity).
  exact Hunit.
Defined.
(** ** Keyword extraction: order, bounds and normalization *)

(** No token of the text is the word "constructor", whose counters are
    garbled. *)
Definition noConstructor (text : string) : Prop :=
  existsb (String.eqb "constructor") (tokenizeWords text) = false.

Lemma noConstructor_token (text w : string) :
  noConstructor text -> In w (tokenizeWords text) -> w <> "constructor".
Proof.
  intros Hno Hin ->. apply existsb_eqb_In in Hin.
  unfold noConstructor in Hno. congruence.
Qed.

(** A score that is a positive number, and one in (0, 1]. *)
Definition positive (v : Num.t) : Prop := exists x, v = Num.Fin x /\ 0 < x.

Definition unitScore (v : Num.t) : Prop :=
  exists x, v = Num.Fin x /\ 0 < x <= 1.

Definition descending (a b : Keyword) : Prop :=
  scoreLe (kwScore b) (kwScore a).

Lemma positive_number (v : Num.t) : positive v -> v <> Num.NaN.
Proof. intros [x [-> _]]. discriminate. Qed.

Lemma sortKeywords_sorted (ks : list Keyword) :
  (forall k, In k ks -> kwScore k <> Num.NaN) ->
  StronglySorted descending (stableSort byKwScoreDescending ks).
Proof.
  intros Hnum. apply Sorted_StronglySorted.
  - intros a b c Hab Hbc. unfold descending in *.
    now apply (scoreLe_trans _ (kwScore b)).
  - apply Sorted_weaken_In
      with (P := fun a b => byKwScoreDescending a b = true).
    + intros a b Ha Hb. apply descending_scoreLe; apply Hnum.
      * apply (Permutation_in _ (stableSort_perm byKwScoreDescending ks) Ha).
      * apply (Permutation_in _ (stableSort_perm byKwScoreDescending ks) Hb).
    + apply stableSort_sorted. intros a b. apply descending_total.
Qed.

Lemma sortKeywords_In (ks : list Keyword) (k : Keyword) :
  In k (stableSort byKwScoreDescending ks) <-> In k ks.
Proof.
  split; apply Permutation_in;
    [apply stableSort_perm | symmetry; apply stableSort_perm].
Qed.

Lemma firstn_subset {A} (n : nat) (l : list A) (x : A) :
  In x (firstn n l) -> In x l.
Proof.
  revert l. induction n as [|n IH]; intros l; simpl; [intros []|].
  destruct l as [|a l]; simpl; [intros []|].
  intros [<-|H]; [now left | right; now apply IH].
Qed.

Lemma firstn_StronglySorted {A} (P : A -> A -> Prop) (n : nat) (l : list A) :
  StronglySorted P l -> StronglySorted P (firstn n l).
Proof.
  revert l. induction n as [|n IH]; intros l Hs; simpl; [constructor|].
  destruct l as [|a l]; [constructor|].
  inversion Hs as [|? ? Hs' Hall]; subst. constructor; [now apply IH|].
  rewrite Forall_forall in *. intros x Hx. apply Hall.
  now apply (firstn_subset n l).
Qed.

(** The weight [idf[w] || 1] of a token other than "constructor" and
    "__proto__" is a number, at least 1. *)
Lemma idf_weight (text w : string) (documents : list string) :
  In w (tokenizeWords text) -> w <> "constructor" -> w <> "__proto__" ->
  exists y,
    orElse (Rec.lookup (calculateIDF documents) w) 1 = Num.Fin y /\ 1 <= y.
Proof.
  intros Hin Hc Hp.
  assert (Hinh : Rec.inherited w = false).
  { rewrite (kept_inherited text w Hin Hp). now apply String.eqb_neq. }
  unfold Rec.lookup.
  destruct (Rec.get (calculateIDF documents) w) as [v|] eqn:E.
  - apply get_In, calculateIDF_entry in E as [_ [Hdf Hv]].
    rewrite Hinh in Hv. subst v. eexists. split.
    + unfold orElse, Num.truthy.
      pose proof (idf_ge_1 (List.length documents)
                    (documentFrequency w documents) ltac:(lia)).
      destruct (Req_dec_T _ 0); [lra | reflexivity].
    + apply idf_ge_1. lia.
  - rewrite Hinh. exists 1. split; [reflexivity | lra].
Qed.

Lemma tfidf_positive (text : string) (documents : list string) (w : string)
  (v : Num.t) :
  noConstructor text ->
  In (w, v) (calculateTFIDF (calculateTF text) (calculateIDF documents)) ->
  keepWord w = true /\ In w (tokenizeWords text) /\ positive v.
Proof.
  unfold calculateTFIDF. intros Hno Hin.
  apply in_map_iff in Hin as [[w' x] [Heq Hin]]. simpl in Heq.
  injection Heq as -> <-.
  apply calculateTF_entry in Hin as [Hkeep [Hw [Hp [Hocc Hx]]]].
  pose proof (noConstructor_token text w Hno Hw) as Hc.
  split; [exact Hkeep|]. split; [exact Hw|].
  apply String.eqb_neq in Hc as Hc'. rewrite Hc' in Hx. subst x.
  destruct (idf_weight text w documents Hw Hc Hp) as [y [-> Hy]].
  eexists. split; [reflexivity|].
  apply Rmult_lt_0_compat; [|lra]. now apply ratio_in_unit.
Qed.

Lemma standard_keyword (text : string) (documents : list string)
  (count : nat) (k : Keyword) :
  In k (extractWithStandardTFIDF text documents count) ->
  exists v,
    In (keyword k, v)
       (calculateTFIDF (calculateTF text) (calculateIDF documents))
    /\ kwScore k = v.
Proof.
  unfold extractWithStandardTFIDF. intros Hin.
  apply firstn_subset, sortKeywords_In, in_map_iff in Hin
    as [[w v] [<- Hin]].
  exists v. split; [exact Hin | reflexivity].
Qed.

Lemma standard_keyword_positive (text : string) (documents : list string)
  (count : nat) (k : Keyword) :
  noConstructor text ->
  In k (extractWithStandardTFIDF text documents count) ->
  keepWord (keyword k) = true /\ In (keyword k) (tokenizeWords text)
  /\ positive (kwScore k).
Proof.
  intros Hno Hin. apply standard_keyword in Hin as [v [Hin ->]].
  now apply (tfidf_positive text documents).
Qed.

Lemma standard_sorted (text : string) (documents : list string)
  (count : nat) :
  noConstructor text ->
  StronglySorted descending (extractWithStandardTFIDF text documents count).
Proof.
  intros Hno. unfold extractWithStandardTFIDF.
  apply firstn_StronglySorted, sortKeywords_sorted.
  intros k Hk. apply in_map_iff in Hk as [[w v] [<- Hin]]. simpl.
  apply positive_number. now apply (tfidf_positive text documents w).
Qed.

(** With method standard_tfidf the result has at most [count] entries and
    every keyword is a kept word of the text.  When no token of the text is
    "constructor", the entries are in descending order of score and every
    score is a positive number. *)
Theorem extractWithStandardTFIDF_result (text : string)
  (documents : list string) (count : nat) :
  let result := extractWithStandardTFIDF text documents count in
  (List.length result <= count)%nat
  /\ (forall k, In k result ->
        keepWord (keyword k) = true /\ In (keyword k) (tokenizeWords text))
  /\ (noConstructor text ->
      StronglySorted descending result
      /\ forall k, In k result -> positive (kwScore k)).
Proof.
  intros result. split; [apply firstn_le_length|]. split.
  - intros k Hk. apply standard_keyword in Hk as [v [Hin _]].
    unfold calculateTFIDF in Hin.
    apply in_map_iff in Hin as [[w' x] [Heq Hin]]. simpl in Heq.
    injection Heq as -> _.
    apply calculateTF_entry in Hin as [Hkeep [Hw _]]. now split.
  - intros Hno. split; [now apply standard_sorted|].
    intros k Hk. now apply (standard_keyword_positive text documents count).
Qed.

Lemma extractWithStandardTFIDF_result_witness :
  StronglySorted descending
    (extractWithStandardTFIDF scienceText [scienceText] 2)
  /\ forall k, In k (extractWithStandardTFIDF scienceText [scienceText] 2) ->
       positive (kwScore k).
Proof.
  apply (extractWithStandardTFIDF_result scienceText [scienceText] 2).
  vm_compute. reflexivity.
Defined.

(** The greatest score of a list in descending order is its first. *)
Lemma maxOf_descending (ks : list Keyword) (k : Keyword) :
  StronglySorted descending (k :: ks) ->
  maxOf (map kwScore (k :: ks)) = kwScore k.
Proof.
  intros Hs. inversion Hs as [|? ? _ Hall]; subst. simpl.
  clear Hs. induction ks as [|a ks IH]; simpl; [reflexivity|].
  inversion Hall as [|? ? Ha Hall']; subst.
  unfold descending, scoreLe in Ha.
  destruct (kwScore a) as [xa|] eqn:Ea; [|contradiction].
  destruct (kwScore k) as [xk|] eqn:Ek; [|contradiction].
  cbn [Num.max]. rewrite Rmax_left by exact Ha. now apply IH.
Qed.

Lemma phrase_keyword_positive (D : nat) (factor : R) (pf : string * nat) :
  (0 < D)%nat -> 0 < factor -> (1 <? snd pf)%nat = true ->
  0 < INR (snd pf) / INR D * factor.
Proof.
  intros HD Hf Hfreq. apply Nat.ltb_lt in Hfreq.
  apply Rmult_lt_0_compat; [|exact Hf].
  apply Rdiv_lt_0_compat; apply lt_0_INR; lia.
Qed.

Lemma enhanced_candidates_positive (text : string) (documents : list string)
  (n : nat) (k : Keyword) :
  documents <> [] -> noConstructor text ->
  In k (extractWithStandardTFIDF text documents n
        ++ bigramKeywords text documents ++ trigramKeywords text documents) ->
  positive (kwScore k).
Proof.
  intros Hdocs Hno Hin.
  assert (HD : (0 < List.length documents)%nat)
    by (destruct documents; [congruence | simpl; lia]).
  apply in_app_or in Hin as [Hin|Hin];
    [now apply standard_keyword_positive in Hin|].
  apply in_app_or in Hin as [Hin|Hin].
  - unfold bigramKeywords in Hin. apply in_map_iff in Hin as [pf [<- Hin]].
    apply filter_In in Hin as [_ Hf]. simpl.
    apply andb_prop in Hf as [Hf _]. apply andb_prop in Hf as [Hf _].
    eexists. split; [reflexivity|].
    apply phrase_keyword_positive; [exact HD | lra | exact Hf].
  - unfold trigramKeywords in Hin. apply in_map_iff in Hin as [pf [<- Hin]].
    apply filter_In in Hin as [Hin _]. apply filter_In in Hin as [_ Hf].
    simpl. eexists. split; [reflexivity|].
    apply phrase_keyword_positive; [exact HD | lra | exact Hf].
Qed.

Lemma scaled_descending (g : Keyword -> Keyword) (m : R) (ks : list Keyword) :
  0 < m ->
  (forall k, In k ks ->
     exists x, kwScore k = Num.Fin x /\ kwScore (g k) = Num.Fin (x / m)) ->
  StronglySorted descending ks ->
  StronglySorted descending (map g ks).
Proof.
  intros Hm Hval Hs.
  induction Hs as [|a l Hs IH Hall]; simpl; constructor.
  - apply IH. intros k Hk. apply Hval. now right.
  - rewrite Forall_forall in *. intros x Hx.
    apply in_map_iff in Hx as [b [<- Hb]]. unfold descending.
    destruct (Hval a (or_introl eq_refl)) as [xa [Ea ->]].
    destruct (Hval b (or_intror Hb)) as [xb [Eb ->]].
    specialize (Hall b Hb). unfold descending in Hall.
    rewrite Ea, Eb in Hall. simpl in *.
    apply Rmult_le_compat_r; [|exact Hall].
    left. now apply Rinv_0_lt_compat.
Qed.

(** Division of the scores of a descending list of positive scores by the
    first of them. *)
Lemma normalized_descending (f : Num.t -> Keyword -> Keyword)
  (ks : list Keyword) :
  (forall m k, keyword (f m k) = keyword k) ->
  (forall m x k, 0 < m -> kwScore k = Num.Fin x -> 0 < x <= m ->
                 kwScore (f (Num.Fin m) k) = Num.Fin (x / m)) ->
  StronglySorted descending ks ->
  (forall k, In k ks -> positive (kwScore k)) ->
  let result := map (f (maxOf (map kwScore ks))) ks in
  StronglySorted descending result
  /\ (forall k, In k result -> unitScore (kwScore k))
  /\ (forall k, hd_error result = Some k -> kwScore k = Num.Fin 1)
  /\ map keyword result = map keyword ks.
Proof.
  intros Hkey Hscore Hs Hpos result.
  destruct ks as [|k0 ks].
  { subst result. simpl. split; [constructor|].
    split; [intros ? []|]. split; [discriminate | reflexivity]. }
  unfold result. rewrite (maxOf_descending ks k0 Hs).
  destruct (Hpos k0 (or_introl eq_refl)) as [m [Em Hm]]. rewrite Em.
  assert (Hle : forall k, In k (k0 :: ks) ->
                  exists x, kwScore k = Num.Fin x /\ 0 < x <= m).
  { intros k Hk. destruct (Hpos k Hk) as [x [Ex Hx]]. exists x.
    split; [exact Ex|]. split; [exact Hx|].
    inversion Hs as [|? ? _ Hall]. destruct Hk as [<-|Hk].
    - rewrite Em in Ex. injection Ex as <-. lra.
    - rewrite Forall_forall in Hall. specialize (Hall k Hk).
      unfold descending in Hall. rewrite Ex, Em in Hall. exact Hall. }
  assert (Hval : forall k, In k (k0 :: ks) ->
                   exists x, kwScore k = Num.Fin x
                             /\ kwScore (f (Num.Fin m) k) = Num.Fin (x / m)).
  { intros k Hk. destruct (Hle k Hk) as [x [Ex Hx]]. exists x.
    split; [exact Ex|]. now apply Hscore. }
  split; [|split; [|split]].
  - now apply (scaled_descending (f (Num.Fin m)) m).
  - intros k Hk. apply in_map_iff in Hk as [b [<- Hb]].
    destruct (Hle b Hb) as [x [Ex [H0 H1]]].
    rewrite (Hscore m x b Hm Ex (conj H0 H1)).
    eexists. split; [reflexivity|]. split.
    + now apply Rdiv_lt_0_compat.
    + apply Rmult_le_reg_r with m; [exact Hm|].
      unfold Rdiv. rewrite Rmult_assoc, Rinv_l by lra. lra.
  - simpl. intros k [= <-].
    rewrite (Hscore m m k0 Hm Em ltac:(lra)). f_equal. field. lra.
  - rewrite map_map. apply map_ext. intros k. apply Hkey.
Qed.

Lemma normalizeBy_score (m x : R) (k : Keyword) :
  0 < m -> kwScore k = Num.Fin x -> 0 < x <= m ->
  kwScore (normalizeBy (Num.Fin m) k) = Num.Fin (x / m).
Proof. intros _ Ex _. unfold normalizeBy. simpl. now rewrite Ex. Qed.

Lemma capAtOne_score (m x : R) (k : Keyword) :
  0 < m -> kwScore k = Num.Fin x -> 0 < x <= m ->
  kwScore (capAtOne (Num.Fin m) k) = Num.Fin (x / m).
Proof.
  intros Hm Ex Hx. unfold capAtOne. simpl. rewrite Ex. simpl. f_equal.
  apply Rmin_right.
  apply Rmult_le_reg_r with m; [exact Hm|].
  unfold Rdiv. rewrite Rmult_assoc, Rinv_l by lra. lra.
Qed.

Lemma enhanced_final (text : string) (documents : list string)
  (count : nat) :
  documents <> [] -> noConstructor text ->
  let all := extractWithStandardTFIDF text documents (ceilTimes count 1.5)
             ++ bigramKeywords text documents
             ++ trigramKeywords text documents in
  let final := firstn count (stableSort byKwScoreDescending all) in
  StronglySorted descending final
  /\ forall k, In k final -> positive (kwScore k).
Proof.
  intros Hdocs Hno all final.
  assert (Hall : forall k, In k all -> positive (kwScore k)).
  { intros k Hk.
    now apply (enhanced_candidates_positive text documents
                 (ceilTimes count 1.5)). }
  split.
  - apply firstn_StronglySorted, sortKeywords_sorted.
    intros k Hk. now apply positive_number, Hall.
  - intros k Hk. apply firstn_subset in Hk.
    apply (proj1 (sortKeywords_In _ _)) in Hk. now apply Hall.
Qed.

(** With method enhanced_tfidf, at least one document and no token
    "constructor" in the text, the result has at most [count] entries in
    descending order of score, every score lies in (0, 1] and the first
    score, when there is one, is 1. *)
Theorem extractWithEnhancedTFIDF_result (text : string)
  (documents : list string) (count : nat) :
  documents <> [] -> noConstructor text ->
  let result := extractWithEnhancedTFIDF text documents count in
  (List.length result <= count)%nat
  /\ StronglySorted descending result
  /\ (forall k, In k result -> unitScore (kwScore k))
  /\ forall k, hd_error result = Some k -> kwScore k = Num.Fin 1.
Proof.
  intros Hdocs Hno result. unfold result, extractWithEnhancedTFIDF.
  destruct (enhanced_final text documents count Hdocs Hno) as [Hs Hpos].
  cbv zeta in Hs, Hpos.
  set (final := firstn count _) in *.
  destruct (normalized_descending normalizeBy final) as [H1 [H2 [H3 _]]];
    try assumption; try reflexivity.
  { apply normalizeBy_score. }
  split; [rewrite length_map; apply firstn_le_length|]. auto.
Qed.

Lemma extractWithEnhancedTFIDF_result_witness :
  let result := extractWithEnhancedTFIDF scienceText [scienceText] 2 in
  (List.length result <= 2)%nat
  /\ StronglySorted descending result
  /\ (forall k, In k result -> unitScore (kwScore k))
  /\ forall k, hd_error result = Some k -> kwScore k = Num.Fin 1.
Proof.
  apply (extractWithEnhancedTFIDF_result scienceText [scienceText] 2).
  - discriminate.
  - vm_compute. reflexivity.
Defined.

Lemma enhanced_keyword_positive (text : string) (documents : list string)
  (count : nat) (k : Keyword) :
  documents <> [] -> noConstructor text ->
  In k (extractWithEnhancedTFIDF text documents count) ->
  positive (kwScore k).
Proof.
  intros Hdocs Hno Hk. unfold extractWithEnhancedTFIDF in Hk.
  destruct (enhanced_final text documents count Hdocs Hno) as [Hs Hpos].
  cbv zeta in Hs, Hpos.
  set (final := firstn count _) in *.
  destruct (normalized_descending normalizeBy final) as [_ [H2 _]];
    try assumption; try reflexivity.
  { apply normalizeBy_score. }
  destruct (H2 k Hk) as [x [Ex Hx]]. exists x. split; [exact Ex | lra].
Qed.

Lemma ratio_nonneg (a b : nat) : 0 <= INR a / INR b.
Proof.
  destruct b as [|b].
  - unfold Rdiv. simpl. rewrite Rinv_0. lra.
  - apply Rmult_le_pos; [apply pos_INR|].
    left. apply Rinv_0_lt_compat, lt_0_INR. lia.
Qed.

(** The counter of a token other than "constructor" and "__proto__" is a
    number of times or absent. *)
Lemma counter_of_token (text w : string) (ws : list string) :
  In w (tokenizeWords text) -> w <> "constructor" -> w <> "__proto__" ->
  Rec.lookup (countWords ws) w
  = match count_occ string_dec ws w with
    | O => Rec.Missing
    | S n => Rec.Own (Rec.Times (S n))
    end.
Proof.
  intros Hin Hc Hp.
  assert (Hinh : Rec.inherited w = false).
  { rewrite (kept_inherited text w Hin Hp). now apply String.eqb_neq. }
  unfold Rec.lookup. rewrite (countWords_counted ws w).
  apply String.eqb_neq in Hp. rewrite Hp, Hinh.
  destruct (count_occ string_dec ws w); reflexivity.
Qed.

(** The title boost keeps the keyword and a positive score, for a phrase and
    for a token of the text other than "constructor". *)
Lemma titleBoost_score (text : string) (ws : list string) (titleCount : nat)
  (k : Keyword) :
  keyword (titleBoost (countWords ws) titleCount k) = keyword k
  /\ (positive (kwScore k) ->
      isPhrase (keyword k) = true
      \/ (In (keyword k) (tokenizeWords text)
          /\ keyword k <> "constructor" /\ keyword k <> "__proto__") ->
      positive (kwScore (titleBoost (countWords ws) titleCount k))).
Proof.
  split; [reflexivity|]. intros [x [Ex Hx]] Hkind.
  unfold titleBoost. simpl. rewrite Ex.
  destruct (isPhrase (keyword k)) eqn:Hphrase; simpl.
  - match goal with
    | |- context [if ?b then _ else _] => destruct b
    end; simpl.
    + eexists. split; [reflexivity|].
      apply Rmult_lt_0_compat; [exact Hx|].
      match goal with
      | |- context [INR ?a / INR ?b] => pose proof (ratio_nonneg a b)
      end. lra.
    + exists (x * 1.0). split; [reflexivity | lra].
  - destruct Hkind as [Hk|[Hin [Hc Hp]]]; [discriminate|].
    unfold inTitles, titleShare.
    rewrite (counter_of_token text (keyword k) ws Hin Hc Hp).
    destruct (count_occ string_dec ws (keyword k)) as [|n]; simpl.
    + exists (x * 1.0). split; [reflexivity | lra].
    + eexists. split; [reflexivity|].
      apply Rmult_lt_0_compat; [exact Hx|].
      pose proof (ratio_nonneg (S n) titleCount). simpl INR in *. lra.
Qed.

Definition notInside (a b : Keyword) : Prop :=
  Js.includes (keyword a) (keyword b) = false.

Lemma StronglySorted_remove {A} (P : A -> A -> Prop) (l1 l2 : list A) (x : A) :
  StronglySorted P (l1 ++ x :: l2) -> StronglySorted P (l1 ++ l2).
Proof.
  induction l1 as [|a l1 IH]; simpl; intros Hs.
  - now inversion Hs.
  - inversion Hs as [|? ? Hs' Hall]; subst. constructor; [now apply IH|].
    rewrite Forall_forall in *. intros y Hy. apply Hall.
    apply in_app_or in Hy as [Hy|Hy]; apply in_or_app; [now left|].
    right. now right.
Qed.

Lemma StronglySorted_prefix {A} (P : A -> A -> Prop) (l1 l2 : list A) :
  StronglySorted P (l1 ++ l2) -> StronglySorted P l1.
Proof.
  induction l1 as [|a l1 IH]; simpl; intros Hs; [constructor|].
  inversion Hs as [|? ? Hs' Hall]; subst. constructor; [now apply IH|].
  rewrite Forall_forall in *. intros y Hy. apply Hall, in_or_app. now left.
Qed.

Lemma ForallOrdPairs_snoc {A} (P : A -> A -> Prop) (l : list A) (x : A) :
  ForallOrdPairs P l -> (forall a, In a l -> P a x) ->
  ForallOrdPairs P (l ++ [x]).
Proof.
  induction l as [|a l IH]; simpl; intros Hl Hx.
  - repeat constructor.
  - inversion Hl as [|? ? Hall Hl']; subst. constructor.
    + apply Forall_app. split; [exact Hall|]. constructor; [|constructor].
      apply Hx. now left.
    + apply IH; [exact Hl'|]. intros b Hb. apply Hx. now right.
Qed.

Lemma dropSubphrases_result (P : Keyword -> Keyword -> Prop) (count : nat)
  (candidates uniqueKeywords : list Keyword) (seen : list string) :
  (forall s, In s (map keyword uniqueKeywords) -> In s seen) ->
  StronglySorted P (uniqueKeywords ++ candidates) ->
  ForallOrdPairs notInside uniqueKeywords ->
  let result := dropSubphrases count candidates uniqueKeywords seen in
  StronglySorted P result
  /\ ForallOrdPairs notInside result
  /\ (forall k, In k result -> In k (uniqueKeywords ++ candidates))
  /\ (List.length result
      <= Nat.max count (S (List.length uniqueKeywords)))%nat.
Proof.
  revert uniqueKeywords seen.
  induction candidates as [|kw rest IH]; intros unique seen Hseen Hs Hno;
    simpl.
  - rewrite app_nil_r in Hs. repeat split; auto; [|lia].
    intros k Hk. now rewrite app_nil_r.
  - destruct (existsb (fun seenKw => Js.includes seenKw (keyword kw)) seen)
      eqn:Hsub.
    + destruct (IH unique seen Hseen (StronglySorted_remove _ _ _ _ Hs) Hno)
        as [H1 [H2 [H3 H4]]].
      repeat split; auto.
      intros k Hk. apply H3 in Hk.
      apply in_app_or in Hk as [Hk|Hk]; apply in_or_app; [now left|].
      right. now right.
    + assert (Hnew : ForallOrdPairs notInside (unique ++ [kw])).
      { apply ForallOrdPairs_snoc; [exact Hno|]. intros a Ha.
        unfold notInside.
        destruct (Js.includes (keyword a) (keyword kw)) eqn:E;
          [|reflexivity].
        assert (Hex : existsb (fun seenKw => Js.includes seenKw (keyword kw))
                        seen = true).
        { apply existsb_exists. exists (keyword a). split; [|exact E].
          apply Hseen. now apply in_map. }
        congruence. }
      assert (Hs' : StronglySorted P ((unique ++ [kw]) ++ rest))
        by (rewrite <- app_assoc; exact Hs).
      destruct (Nat.leb_spec count (S (List.length unique))) as [Hstop|Hgo].
      * repeat split.
        -- now apply StronglySorted_prefix in Hs'.
        -- exact Hnew.
        -- intros k Hk. apply in_app_or in Hk as [Hk|[<-|[]]];
             apply in_or_app; [now left | right; now left].
        -- rewrite length_app. simpl. lia.
      * destruct (IH (unique ++ [kw]) (seen ++ [keyword kw])) as [H1 [H2 [H3 H4]]];
          try assumption.
        { intros s Hin. rewrite map_app in Hin.
          apply in_app_or in Hin as [Hin|Hin]; apply in_or_app;
            [left; now apply Hseen | now right]. }
        repeat split; auto.
        -- intros k Hk. apply H3 in Hk. now rewrite <- app_assoc in Hk.
        -- rewrite length_app in H4. simpl in H4. lia.
Qed.

(** With method bert_based, at least one document and no token
    "constructor" in the text, the result has at most max(count, 1) entries
    in descending order of score, every score lies in (0, 1], the first
    score is 1, and no keyword is contained in a keyword listed before
    it. *)
Theorem extractWithSimulatedBERT_result (text : string)
  (documents : list string) (count : nat) :
  documents <> [] -> noConstructor text ->
  let result := extractWithSimulatedBERT text documents count in
  (List.length result <= Nat.max count 1)%nat
  /\ StronglySorted descending result
  /\ (forall k, In k result -> unitScore (kwScore k))
  /\ (forall k, hd_error result = Some k -> kwScore k = Num.Fin 1)
  /\ ForallOrdPairs (fun a b => Js.includes a b = false)
       (map keyword result).
Proof.
  intros Hdocs Hno result. unfold result, extractWithSimulatedBERT.
  set (candidates :=
         extractWithStandardTFIDF text documents (ceilTimes count 1.2)
         ++ filter (fun k => isPhrase (keyword k))
              (extractWithEnhancedTFIDF text documents (ceilTimes count 0.8))).
  set (titleWords := filter keepWord _).
  set (titleCount := List.length (titleSentencesOf documents)).
  set (boosted := stableSort byKwScoreDescending
                    (map (titleBoost (countWords titleWords) titleCount)
                       candidates)).
  assert (Hcand : forall k, In k candidates ->
            positive (kwScore k)
            /\ (isPhrase (keyword k) = true
                \/ (In (keyword k) (tokenizeWords text)
                    /\ keyword k <> "constructor"
                    /\ keyword k <> "__proto__"))).
  { intros k Hk. apply in_app_or in Hk as [Hk|Hk].
    - pose proof (standard_keyword_positive _ _ _ _ Hno Hk)
        as [_ [Hw Hpos]].
      split; [exact Hpos|]. right. split; [exact Hw|].
      split; [now apply (noConstructor_token text)|].
      apply standard_keyword in Hk as [v [Hin _]].
      unfold calculateTFIDF in Hin.
      apply in_map_iff in Hin as [[w' x] [Heq Hin]]. simpl in Heq.
      injection Heq as Hw' _. rewrite <- Hw'.
      now apply calculateTF_entry in Hin as [_ [_ [Hp _]]].
    - apply filter_In in Hk as [Hk Hphrase]. split; [|now left].
      now apply (enhanced_keyword_positive text documents
                   (ceilTimes count 0.8)). }
  assert (Hboost : forall k, In k boosted -> positive (kwScore k)).
  { intros k Hk. apply (proj1 (sortKeywords_In _ _)) in Hk.
    apply in_map_iff in Hk as [k0 [<- Hk0]].
    destruct (Hcand k0 Hk0) as [Hpos Hkind].
    now apply (titleBoost_score text). }
  destruct (dropSubphrases_result descending count boosted [] [])
    as [Hsorted [Hno' [Hin Hlen]]].
  { intros s []. }
  { apply sortKeywords_sorted. intros k Hk.
    apply positive_number, Hboost. unfold boosted.
    now apply sortKeywords_In. }
  { constructor. }
  set (unique := dropSubphrases count boosted [] []) in *.
  destruct (normalized_descending capAtOne unique) as [H1 [H2 [H3 H4]]];
    try assumption; try reflexivity.
  - apply capAtOne_score.
  - intros k Hk. apply Hboost. now apply Hin in Hk.
  - split; [rewrite length_map; simpl in Hlen; lia|].
    split; [exact H1|]. split; [exact H2|]. split; [exact H3|].
    rewrite H4. clear -Hno'.
    induction Hno' as [|a l Hall Hno' IH]; simpl; constructor; [|exact IH].
    rewrite Forall_forall in *. intros s Hs.
    apply in_map_iff in Hs as [b [<- Hb]]. now apply Hall.
Qed.

Lemma extractWithSimulatedBERT_result_witness :
  let result := extractWithSimulatedBERT scienceText [scienceText] 2 in
  (List.length result <= Nat.max 2 1)%nat
  /\ StronglySorted descending result
  /\ (forall k, In k result -> unitScore (kwScore k))
  /\ (forall k, hd_error result = Some k -> kwScore k = Num.Fin 1)
  /\ ForallOrdPairs (fun a b => Js.includes a b = false)
       (map keyword result).
Proof.
  apply (extractWithSimulatedBERT_result scienceText [scienceText] 2).
  - discriminate.
  - vm_compute. reflexivity.
Defined.

(** ** Recommender *)

Section RecommenderFacts.
Import Recommender.
Local Open Scope Q_scope.

Definition knownTask (task : string) : Prop :=
  In task ["summarization"; "translation"; "content_generation";
           "keyword_extraction"]%string.

Lemma tierScore_positive (tier : string) : 0 < tierScore tier.
Proof.
  unfold tierScore.
  repeat match goal with
  | |- context [equals ?a ?b] => destruct (equals a b)
  end; reflexivity.
Qed.

Lemma priorityPoints_nonneg (p : Priority) (algo : Algorithm) :
  0 <= priorityPoints p algo.
Proof.
  destruct p; simpl.
  - destruct (highOrVeryHigh (algoSpeed algo)); discriminate.
  - destruct (highOrVeryHigh (algoQuality algo)); discriminate.
  - pose proof (tierScore_positive (algoSpeed algo)).
    pose proof (tierScore_positive (algoQuality algo)).
    apply Qlt_le_weak.
    apply (Qplus_lt_le_compat 0 _ 0); [assumption | now apply Qlt_le_weak].
Qed.

Lemma lengthPoints_nonneg (len : Z) (algo : Algorithm) :
  0 <= lengthPoints len algo.
Proof.
  unfold lengthPoints.
  repeat match goal with
  | |- context [if ?b then _ else _] => destruct b
  end; discriminate.
Qed.

Lemma complexityPoints_nonneg (c : option Complexity) (algo : Algorithm) :
  0 <= complexityPoints c algo.
Proof.
  unfold complexityPoints. destruct c as [[]|];
    repeat match goal with
    | |- context [if ?b then _ else _] => destruct b
    end; discriminate.
Qed.

Lemma domainPoints_nonneg (d : option string) (algo : Algorithm) :
  0 <= domainPoints d algo.
Proof.
  unfold domainPoints.
  match goal with
  | |- context [if ?b then _ else _] => destruct b
  end; discriminate.
Qed.

Lemma requirementPoints_nonneg (reqs : option (list string))
  (algo : Algorithm) :
  0 <= requirementPoints reqs algo.
Proof.
  unfold requirementPoints. destruct reqs as [rs|]; [|discriminate].
  unfold Qle. simpl. lia.
Qed.

Lemma scoreOf_bound (request : AlgorithmRecommendationRequest)
  (algo : Algorithm) :
  priorityPoints (priorityFactor request) algo <= scoreOf request algo.
Proof.
  unfold scoreOf.
  pose proof (lengthPoints_nonneg (textLength request) algo) as H1.
  pose proof (complexityPoints_nonneg (languageComplexity request) algo) as H2.
  pose proof (domainPoints_nonneg (contentDomain request) algo) as H3.
  pose proof (requirementPoints_nonneg (specialRequirements request) algo)
    as H4.
  set (p := priorityPoints _ _) in *. set (a := lengthPoints _ _) in *.
  set (b := complexityPoints _ _) in *. set (c := domainPoints _ _) in *.
  set (d := requirementPoints _ _) in *.
  assert (H : p + 0 + 0 + 0 + 0 <= p + a + b + c + d).
  { repeat apply Qplus_le_compat; try assumption. apply Qle_refl. }
  eapply Qle_trans; [|exact H]. ring_simplify. apply Qle_refl.
Qed.

(** Every known task type has an algorithm with a positive score, whatever
    the other fields of the request. *)
Lemma some_positive_score (request : AlgorithmRecommendationRequest) :
  knownTask (taskType request) ->
  exists algo,
    In algo (compatibleAlgorithms (taskType request))
    /\ 0 < scoreOf request algo.
Proof.
  intros Hknown.
  assert (Hgoal : exists algo,
             In algo (compatibleAlgorithms (taskType request))
             /\ 0 < priorityPoints (priorityFactor request) algo).
  { unfold knownTask in Hknown. simpl in Hknown.
    destruct Hknown as [<-|[<-|[<-|[<-|[]]]]];
      destruct (priorityFactor request);
      cbv [compatibleAlgorithms algorithms filter has taskTypes existsb
           String.eqb Ascii.eqb Bool.eqb andb orb];
      first
        [ eexists; split; [left; reflexivity | reflexivity]
        | eexists; split; [right; left; reflexivity | reflexivity]
        | eexists; split; [right; right; left; reflexivity | reflexivity] ]. }
  destruct Hgoal as [algo [Hin Hpos]]. exists algo. split; [exact Hin|].
  eapply Qlt_le_trans; [exact Hpos | apply scoreOf_bound].
Qed.

Definition byScore (a b : Scored) : bool :=
  Qle_bool (scoredScore b) (scoredScore a).

Lemma sortScored_sorted (l : list Scored) :
  StronglySorted (fun a b => scoredScore b <= scoredScore a)
    (stableSort byScore l).
Proof.
  apply Sorted_StronglySorted.
  - intros a b c Hab Hbc. eapply Qle_trans; eassumption.
  - apply Sorted_weaken with (P := fun a b => byScore a b = true).
    + intros a b H. now apply Qle_bool_iff.
    + apply stableSort_sorted. intros a b. unfold byScore.
      destruct (Qlt_le_dec (scoredScore a) (scoredScore b)) as [H|H].
      * right. apply Qle_bool_iff. now apply Qlt_le_weak.
      * left. now apply Qle_bool_iff.
Qed.

Lemma maxScoreOf_spec (a : Scored) (l : list Scored) :
  (forall x, In x (a :: l) -> scoredScore x <= maxScoreOf (a :: l))
  /\ exists x, In x (a :: l) /\ maxScoreOf (a :: l) == scoredScore x.
Proof.
  unfold maxScoreOf.
  assert (H : forall (l : list Scored) (m : Q),
             (m <= fold_left (fun m b => Qmax m (scoredScore b)) l m)
             /\ (forall x, In x l ->
                   scoredScore x
                   <= fold_left (fun m b => Qmax m (scoredScore b)) l m)
             /\ (fold_left (fun m b => Qmax m (scoredScore b)) l m == m
                 \/ exists x, In x l
                      /\ fold_left (fun m b => Qmax m (scoredScore b)) l m
                         == scoredScore x)).
  { clear. induction l as [|b l IH]; intros m; simpl.
    - split; [apply Qle_refl|]. split; [intros x []|]. left. reflexivity.
    - destruct (IH (Qmax m (scoredScore b))) as [H1 [H2 H3]].
      split; [eapply Qle_trans; [apply Q.le_max_l | exact H1]|].
      split.
      + intros x [<-|Hx]; [|now apply H2].
        eapply Qle_trans; [apply Q.le_max_r | exact H1].
      + destruct H3 as [H3|[x [Hx H3]]].
        * destruct (Q.max_spec m (scoredScore b)) as [[_ Hm]|[_ Hm]].
          -- right. exists b. split; [now left|].
             now rewrite H3, Hm.
          -- left. now rewrite H3, Hm.
        * right. exists x. split; [now right | exact H3]. }
  destruct (H l (scoredScore a)) as [H1 [H2 H3]]. split.
  - intros x [<-|Hx]; [exact H1 | now apply H2].
  - destruct H3 as [H3|[x [Hx H3]]].
    + exists a. split; [now left | exact H3].
    + exists x. split; [now right | exact H3].
Qed.

(** For each of the four task types [recommendAlgorithm] returns: the
    recommended algorithm is one that lists the task type, it has the
    greatest score, the confidence is 1, and there are at most two
    alternatives, with normalized scores between 0 and 1. *)
Theorem recommendAlgorithm_known_task
  (request : AlgorithmRecommendationRequest) :
  knownTask (taskType request) ->
  exists response,
    recommendAlgorithm request = Returned response
    /\ (exists algo,
          In algo (compatibleAlgorithms (taskType request))
          /\ name algo = recommendedAlgorithm response
          /\ forall other,
               In other (compatibleAlgorithms (taskType request)) ->
               scoreOf request other <= scoreOf request algo)
    /\ confidence response == 1
    /\ (List.length (alternativeAlgorithms response) <= 2)%nat
    /\ forall alt, In alt (alternativeAlgorithms response) ->
         0 <= scoredScore alt <= 1.
Proof.
  intros Hknown.
  destruct (some_positive_score request Hknown) as [good [Hgood Hpos]].
  unfold recommendAlgorithm, recommendBody.
  set (scored := map (scoreAlgorithm request)
                   (compatibleAlgorithms (taskType request))).
  assert (Hsorted := sortScored_sorted scored).
  assert (Hperm := stableSort_perm byScore scored).
  change (scoredAlgorithms request) with (stableSort byScore scored).
  destruct (stableSort byScore scored) as [|best others] eqn:Esort.
  { exfalso. apply Permutation_nil in Hperm.
    assert (Hin : In (scoreAlgorithm request good) scored)
      by now apply in_map.
    rewrite Hperm in Hin. destruct Hin. }
  assert (Hbest : forall x, In x (best :: others) ->
                            scoredScore x <= scoredScore best).
  { inversion Hsorted as [|? ? _ Hall]; subst. intros x [<-|Hx];
      [apply Qle_refl|].
    rewrite Forall_forall in Hall. now apply Hall. }
  destruct (maxScoreOf_spec best others) as [Hmax [top [Htop Heq]]].
  remember (maxScoreOf (best :: others)) as m eqn:Em.
  assert (Hmaxbest : m == scoredScore best).
  { apply Qle_antisym.
    - rewrite Heq. now apply Hbest.
    - apply Hmax. now left. }
  assert (Hbestpos : 0 < scoredScore best).
  { eapply Qlt_le_trans; [exact Hpos|].
    change (scoreOf request good)
      with (scoredScore (scoreAlgorithm request good)).
    apply Hbest. apply (Permutation_in _ (Permutation_sym Hperm)).
    now apply in_map. }
  assert (Hmaxpos : 0 < m) by now rewrite Hmaxbest.
  simpl tryCatchRethrow. eexists. split; [reflexivity|].
  cbn [recommendedAlgorithm confidence alternativeAlgorithms].
  split; [|split; [|split]].
  - assert (Hin : In best scored).
    { apply (Permutation_in _ Hperm). now left. }
    apply in_map_iff in Hin as [algo [Halgo Hin]].
    exists algo. split; [exact Hin|]. split; [now rewrite <- Halgo|].
    intros other Hother.
    change (scoreOf request other)
      with (scoredScore (scoreAlgorithm request other)).
    change (scoreOf request algo)
      with (scoredScore (scoreAlgorithm request algo)).
    rewrite Halgo. apply Hbest.
    apply (Permutation_in _ (Permutation_sym Hperm)). now apply in_map.
  - cbn [normalize scoredScore]. rewrite <- Hmaxbest.
    field. intros H0. rewrite H0 in Hmaxpos. discriminate.
  - destruct (map (normalize m) others) as [|a [|b l]]; simpl; lia.
  - intros alt Halt.
    assert (Hin : In alt (map (normalize m) (best :: others))).
    { clear -Halt. simpl. right.
      destruct (map (normalize m) others) as [|a [|b l]];
        simpl in Halt |- *; tauto. }
    apply in_map_iff in Hin as [x [<- Hx]]. simpl. split.
    + apply Qle_shift_div_l; [exact Hmaxpos|]. rewrite Qmult_0_l.
      destruct (proj1 (in_map_iff _ _ _)
                  (Permutation_in _ Hperm Hx)) as [algo [<- _]].
      simpl. eapply Qle_trans; [|apply scoreOf_bound].
      apply priorityPoints_nonneg.
    + apply Qle_shift_div_r; [exact Hmaxpos|]. rewrite Qmult_1_l.
      now apply Hmax.
Qed.

Lemma recommendAlgorithm_known_task_witness :
  exists response,
    recommendAlgorithm scenario3 = Returned response
    /\ (exists algo,
          In algo (compatibleAlgorithms (taskType scenario3))
          /\ name algo = recommendedAlgorithm response
          /\ forall other,
               In other (compatibleAlgorithms (taskType scenario3)) ->
               scoreOf scenario3 other <= scoreOf scenario3 algo)
    /\ confidence response == 1
    /\ (List.length (alternativeAlgorithms response) <= 2)%nat
    /\ forall alt, In alt (alternativeAlgorithms response) ->
         0 <= scoredScore alt <= 1.
Proof.
  apply (recommendAlgorithm_known_task scenario3).
  unfold knownTask. simpl. tauto.
Defined.

End RecommenderFacts.

(** ** Target count, position and length factors *)

Lemma Qmult_le_l_nonneg (x y z : Q) :
  (0 <= z)%Q -> (x <= y)%Q -> (z * x <= z * y)%Q.
Proof.
  intros Hz Hxy. rewrite !(Qmult_comm z). now apply Qmult_le_compat_r.
Qed.

Lemma ceilTimes_le (n : nat) (q : Q) :
  (0 <= q)%Q -> (q <= 1)%Q -> (ceilTimes n q <= n)%nat.
Proof.
  intros H0 H1. unfold ceilTimes.
  assert (Hle : (Qceiling (inject_Z (Z.of_nat n) * q) <= Z.of_nat n)%Z).
  { rewrite <- (Qceiling_Z (Z.of_nat n)) at 2. apply Qceiling_resp_le.
    rewrite <- (Qmult_1_r (inject_Z (Z.of_nat n))) at 2.
    apply Qmult_le_l_nonneg; [|exact H1].
    unfold Qle. simpl. lia. }
  lia.
Qed.

Lemma ceilTimes_mono (n : nat) (p q : Q) :
  (p <= q)%Q -> (ceilTimes n p <= ceilTimes n q)%nat.
Proof.
  intros Hpq. unfold ceilTimes.
  assert (H : (Qceiling (inject_Z (Z.of_nat n) * p)
               <= Qceiling (inject_Z (Z.of_nat n) * q))%Z).
  { apply Qceiling_resp_le. apply Qmult_le_l_nonneg; [|exact Hpq].
    unfold Qle. simpl. lia. }
  lia.
Qed.

(** The target number of sentences is at least 1, never more than the
    number of sentences of a text that has any, and grows from short to
    medium to long. *)
Theorem numSentencesFor_bounds (length : SummaryLength) (sentenceCount : nat) :
  (1 <= numSentencesFor length sentenceCount)%nat
  /\ (numSentencesFor length sentenceCount <= Nat.max 1 sentenceCount)%nat
  /\ (numSentencesFor short sentenceCount
      <= numSentencesFor medium sentenceCount
      <= numSentencesFor long sentenceCount)%nat.
Proof.
  unfold numSentencesFor. split; [lia|]. split.
  - assert (H : (ceilTimes sentenceCount (lengthRatio length)
                 <= sentenceCount)%nat).
    { apply ceilTimes_le; destruct length; simpl; discriminate. }
    lia.
  - assert (H1 : (ceilTimes sentenceCount (lengthRatio short)
                  <= ceilTimes sentenceCount (lengthRatio medium))%nat)
      by (apply ceilTimes_mono; simpl; discriminate).
    assert (H2 : (ceilTimes sentenceCount (lengthRatio medium)
                  <= ceilTimes sentenceCount (lengthRatio long))%nat)
      by (apply ceilTimes_mono; simpl; discriminate).
    lia.
Qed.

(** In a text of fewer than five sentences every position weighs 1; in a
    longer one the first sentence weighs 1.3 and the last 1.2; and a weight
    is always one of 0.9, 1.0, 1.2 and 1.3. *)
Theorem getEnhancedPositionWeight_values (index total : nat) :
  ((total < 5)%nat -> getEnhancedPositionWeight index total = 1.0)
  /\ ((5 <= total)%nat ->
      getEnhancedPositionWeight 0 total = 1.3
      /\ getEnhancedPositionWeight (total - 1) total = 1.2)
  /\ In (getEnhancedPositionWeight index total) [0.9; 1.0; 1.2; 1.3].
Proof.
  unfold getEnhancedPositionWeight. split; [|split].
  - intros H. apply Nat.ltb_lt in H. now rewrite H.
  - intros H. assert (Hn : (total <? 5)%nat = false) by now apply Nat.ltb_ge.
    rewrite Hn.
    assert (Ht : 5 <= INR total) by (apply le_INR in H; simpl in H; lra).
    split.
    + replace (INR 0 / (INR total - 1)) with 0 by (simpl; field; lra).
      destruct (Rle_dec 0 0.1); [reflexivity | lra].
    + replace (INR (total - 1) / (INR total - 1)) with 1
        by (rewrite minus_INR by lia; simpl; field; lra).
      destruct (Rle_dec 1 0.1); [lra|].
      destruct (Rge_dec 1 0.9); [reflexivity | lra].
  - simpl. destruct (total <? 5)%nat; [tauto|].
    repeat match goal with
    | |- context [Rle_dec ?x ?y] => destruct (Rle_dec x y)
    | |- context [Rge_dec ?x ?y] => destruct (Rge_dec x y)
    end; tauto.
Qed.

Lemma getEnhancedPositionWeight_values_witness :
  getEnhancedPositionWeight 0 7 = 1.3
  /\ getEnhancedPositionWeight (7 - 1) 7 = 1.2.
Proof.
  apply (proj1 (proj2 (getEnhancedPositionWeight_values 0 7))). lia.
Defined.

(** The length factor is one of 0.7, 0.8 and 1.0, and it is 0.7 for every
    sentence that holds no backslash, whatever its number of words: the
    split that counts the words cuts at a backslash followed by the letter
    s. *)
Theorem lengthFactor_values (s : string) :
  In (lengthFactor s) [0.7; 0.8; 1.0]
  /\ (noBackslash s = true -> sentenceLength s = 1%nat /\ lengthFactor s = 0.7).
Proof.
  split.
  - unfold lengthFactor. simpl.
    destruct (sentenceLength s <? 5)%nat; [tauto|].
    destruct (40 <? sentenceLength s)%nat; tauto.
  - intros H. unfold lengthFactor, sentenceLength.
    rewrite splitLiteralBackslashS_none by exact H. split; reflexivity.
Qed.

Lemma lengthFactor_values_witness :
  sentenceLength "One two three four five six seven eight." = 1%nat
  /\ lengthFactor "One two three four five six seven eight." = 0.7.
Proof.
  apply (proj2 (lengthFactor_values
                  "One two three four five six seven eight.")).
  vm_compute. reflexivity.
Defined.

(** ** What [enhancedSummarize] renders when it returns *)

Lemma sorted_distinct_strict (l : list ScoredSentence) :
  StronglySorted (fun a b => (originalIndex a <= originalIndex b)%nat) l ->
  NoDup (map originalIndex l) ->
  StronglySorted (fun a b => (originalIndex a < originalIndex b)%nat) l.
Proof.
  intros Hs. induction Hs as [|a l Hs IH Hall]; simpl; intros Hnd;
    constructor.
  - apply IH. now inversion Hnd.
  - inversion Hnd as [|? ? Hnotin _]; subst.
    rewrite Forall_forall in *. intros b Hb.
    specialize (Hall b Hb).
    assert (originalIndex a <> originalIndex b).
    { intros E. apply Hnotin. rewrite E. now apply in_map. }
    lia.
Qed.

(** When [enhancedSummarize] returns, the summary is the rendering of
    exactly min(number of sentences, target) scored sentences of the text,
    in strictly ascending order of their original index. *)
Theorem enhancedSummarize_on_return
  (format : option SummaryStyle -> list ScoredSentence -> string)
  (fuel : nat) (request : SummarizationRequest)
  (response : SummarizationResponse) :
  enhancedSummarize format fuel request = Returned response ->
  let sentenceCount := List.length (tokenizeSentences (sumText request)) in
  exists ordered,
    summary response = format (sumStyle request) ordered
    /\ List.length ordered
       = Nat.min sentenceCount
           (numSentencesFor (sumLength request) sentenceCount)
    /\ (forall s, In s ordered -> In s (scoredSentencesOf (sumText request)))
    /\ StronglySorted
         (fun a b => (originalIndex a < originalIndex b)%nat) ordered.
Proof.
  intros Hret sentenceCount. unfold enhancedSummarize in Hret.
  set (scored := scoredSentencesOf (sumText request)) in *.
  destruct (scoredSentencesOf_shape (sumText request)) as [_ Hidx].
  fold scored in Hidx. fold sentenceCount in Hidx.
  assert (Hlen : List.length scored = sentenceCount).
  { rewrite <- (length_map originalIndex), Hidx. apply length_seq. }
  rewrite Hlen in Hret.
  set (target := numSentencesFor (sumLength request) sentenceCount) in *.
  destruct (selectSentences fuel target (rank scored)) as [selected|] eqn:Hsel;
    [|discriminate].
  injection Hret as <-. simpl.
  assert (Hperm : Permutation (rank scored) scored)
    by apply stableSort_perm.
  assert (Hnd : NoDup (map originalIndex (rank scored))).
  { eapply Permutation_NoDup;
      [apply Permutation_map; symmetry; exact Hperm|].
    rewrite Hidx. apply seq_NoDup. }
  unfold selectSentences in Hsel.
  destruct (selectDiverse_shape target (rank scored) [] [])
    as [picked [Heq [Hin [Hlp [Hcap Hndp]]]]].
  rewrite Heq in Hsel. simpl in Hsel, Hcap.
  apply backfill_result in Hsel;
    [|repeat split; [apply Hcap; lia | exact Hlp | exact Hin
                    | now apply Hndp]].
  destruct Hsel as [[_ [_ [Hin' Hnd']]] Hlength].
  assert (Hord : Permutation (inReadingOrder selected) selected)
    by apply stableSort_perm.
  exists (inReadingOrder selected). split; [reflexivity|]. split; [|split].
  - rewrite (Permutation_length Hord), Hlength.
    rewrite (Permutation_length Hperm), Hlen. apply Nat.min_comm.
  - intros s Hs. apply (Permutation_in _ Hperm). apply Hin'.
    now apply (Permutation_in _ Hord).
  - apply sorted_distinct_strict.
    + apply Sorted_StronglySorted; [intros a b c; lia|].
      apply Sorted_weaken
        with (P := fun a b =>
                     (originalIndex a <=? originalIndex b)%nat = true).
      * intros a b H. now apply Nat.leb_le.
      * apply stableSort_sorted. intros a b.
        destruct (Nat.le_ge_cases (originalIndex a) (originalIndex b));
          [left | right]; now apply Nat.leb_le.
    + eapply Permutation_NoDup;
        [apply Permutation_map; symmetry; exact Hord | exact Hnd'].
Qed.

Definition catsRequest : SummarizationRequest :=
  {| sumText := "The cat sat. The dog ran. Cats and dogs are pets.";
     sumLength := short;
     sumStyle := Some simplified |}.

Lemma catsRequest_returns (format : option SummaryStyle ->
                                    list ScoredSentence -> string) :
  exists response, enhancedSummarize format 0 catsRequest = Returned response.
Proof.
  unfold enhancedSummarize.
  set (scored := scoredSentencesOf (sumText catsRequest)).
  assert (Hlen : List.length scored = 3%nat).
  { unfold scored. rewrite <- (length_map sentence).
    rewrite (proj1 (scoredSentencesOf_shape _)). vm_compute. reflexivity. }
  rewrite Hlen.
  replace (numSentencesFor (sumLength catsRequest) 3) with 1%nat
    by (vm_compute; reflexivity).
  assert (Hrank : List.length (rank scored) = 3%nat)
    by (unfold rank; now rewrite stableSort_length).
  destruct (rank scored) as [|a [|b [|c rest]]]; try discriminate.
  unfold selectSentences. cbn [selectDiverse List.length Nat.leb].
  unfold hasCluster. cbn [existsb andb app List.length Nat.leb backfill
                          backfillStep Nat.ltb].
  eexists. reflexivity.
Qed.

Lemma enhancedSummarize_on_return_witness :
  exists (response : SummarizationResponse) (ordered : list ScoredSentence),
    summary response = "" /\ List.length ordered = 1%nat.
Proof.
  destruct (catsRequest_returns (fun _ _ => "")) as [response Hret].
  destruct (enhancedSummarize_on_return _ _ _ _ Hret)
    as [ordered [Hsum [Hlen _]]].
  exists response, ordered. split; [exact Hsum|].
  rewrite Hlen. vm_compute. reflexivity.
Defined.

(** ** Phrases *)

Lemma chars_append (a b : string) :
  Js.chars (a ++ b) = Js.chars a ++ Js.chars b.
Proof.
  unfold Js.chars. induction a as [|c a IH]; simpl; [reflexivity|].
  now rewrite IH.
Qed.

Lemma join_chars (sep : string) (pieces : list string) (c : ascii) :
  In c (Js.chars (Js.join sep pieces)) ->
  In c (Js.chars sep) \/ exists p, In p pieces /\ In c (Js.chars p).
Proof.
  induction pieces as [|p rest IH]; simpl; [intros []|].
  destruct rest as [|q rest'].
  - intros H. right. exists p. split; [now left | exact H].
  - rewrite !chars_append. intros H.
    apply in_app_or in H as [H|H]; [right; exists p; split; [now left|exact H]|].
    apply in_app_or in H as [H|H]; [now left|].
    destruct (IH H) as [Hs|[x [Hx Hc]]]; [now left|].
    right. exists x. split; [now right | exact Hc].
Qed.

Lemma windows_In (n : nat) (ws w : list string) (x : string) :
  In w (windows n ws) -> In x w -> In x ws.
Proof.
  induction ws as [|a rest IH]; [intros []|].
  cbn [windows]. destruct (n <=? List.length (a :: rest))%nat; [|intros []].
  intros [<-|Hw] Hx.
  - now apply (firstn_subset n (a :: rest)).
  - right. now apply IH.
Qed.

Lemma countPhrases_key (ws : list string) (k : string) (n : nat) :
  In (k, n) (countPhrases ws) -> In k ws.
Proof.
  intros Hin. apply countPhrases_spec in Hin as [Hn Hpos].
  apply (count_occ_In string_dec). lia.
Qed.

Lemma extractPhrases_no_backslash (text : string) (n : nat) (phrase : string)
  (count : nat) :
  In (phrase, count) (extractPhrases text n) -> noBackslash phrase = true.
Proof.
  unfold extractPhrases. intros Hin.
  apply countPhrases_key, in_map_iff in Hin as [w [<- Hw]].
  unfold noBackslash. apply forallb_forall. intros c Hc.
  apply negb_true_iff.
  apply join_chars in Hc as [Hc|[p [Hp Hc]]].
  - destruct Hc as [<-|[]]. reflexivity.
  - apply tokenChar_not_backslash.
    apply (tokenizeWords_chars text p); [|exact Hc].
    apply (windows_In n _ w p Hw) in Hp. now apply filter_In in Hp.
Qed.

Lemma get_rev_NoDup {V} (r : Rec.t V) (k : string) :
  NoDup (Rec.keys r) -> Rec.get (rev r) k = Rec.get r k.
Proof.
  intros Hnd. destruct (Rec.get r k) as [v|] eqn:E.
  - apply In_get.
    + unfold Rec.keys. rewrite map_rev.
      apply (Permutation_NoDup (Permutation_rev _)). exact Hnd.
    + apply in_rev. rewrite rev_involutive. now apply get_In.
  - apply get_None_keys. apply get_None_keys in E.
    unfold Rec.keys in *. rewrite map_rev. intros H. apply E.
    now apply in_rev.
Qed.

Lemma NoDup_keys_filter_map {V W} (p : string * V -> bool)
  (f : string * V -> W) (r : Rec.t V) :
  NoDup (Rec.keys r) ->
  NoDup (Rec.keys (map (fun kv => (fst kv, f kv)) (filter p r))).
Proof.
  unfold Rec.keys. rewrite map_map. simpl.
  induction r as [|[k v] r IH]; simpl; intros Hnd; [constructor|].
  inversion Hnd as [|? ? Hnotin Hnd']; subst.
  destruct (p (k, v)); simpl; [|now apply IH].
  constructor; [|now apply IH].
  intros Hin. apply Hnotin. apply in_map_iff in Hin as [[k' v'] [<- Hin]].
  apply filter_In in Hin as [Hin _]. now apply (in_map fst) in Hin.
Qed.

(** Whatever the text, a three-word phrase counted more than once enters
    the keyword scores of the summarizer with the weight
    count / documents * 1.5: the phrase multiplier is always 1, because the
    words of the phrase are counted with [split(/\\s+/)] and a phrase holds
    no backslash. *)
Theorem keywordScores_phrase_weight (text : string) (sentences : list string)
  (phrase : string) (count : nat) :
  Rec.get (extractPhrases text 3) phrase = Some count ->
  (1 < count)%nat ->
  phraseWordCount phrase = 1%nat
  /\ Rec.get (keywordScoresOf text sentences) phrase
     = Some (Num.Fin
               (INR count
                / INR (List.length (documentsOf text sentences)) * 1.5)).
Proof.
  intros Hget Hcount.
  assert (Hin : In (phrase, count) (extractPhrases text 3))
    by now apply get_In.
  pose proof (extractPhrases_no_backslash _ _ _ _ Hin) as Hnb.
  split.
  - unfold phraseWordCount.
    now rewrite splitLiteralBackslashS_none by exact Hnb.
  - unfold keywordScoresOf. rewrite get_assign.
    set (D := List.length (documentsOf text sentences)).
    assert (Hnd : NoDup (Rec.keys (extractPhrases text 3))).
    { unfold extractPhrases, countPhrases. apply NoDup_keys_bumps. constructor. }
    unfold phraseEntries.
    rewrite get_rev_NoDup
      by (apply (NoDup_keys_filter_map
                   (fun pc => (1 <? snd pc)%nat)
                   (fun pc => Num.Fin (phraseWeight D (fst pc) (snd pc))));
          exact Hnd).
    assert (Hentry :
              Rec.get
                (map (fun pc =>
                        (fst pc, Num.Fin (phraseWeight D (fst pc) (snd pc))))
                   (filter (fun pc => (1 <? snd pc)%nat)
                      (extractPhrases text 3))) phrase
              = Some (Num.Fin (phraseWeight D phrase count))).
    { apply In_get.
      - apply (NoDup_keys_filter_map
                 (fun pc => (1 <? snd pc)%nat)
                 (fun pc => Num.Fin (phraseWeight D (fst pc) (snd pc)))).
        exact Hnd.
      - apply in_map_iff. exists (phrase, count). split; [reflexivity|].
        apply filter_In. split; [exact Hin|]. now apply Nat.ltb_lt. }
    rewrite Hentry. do 2 f_equal.
    now apply phraseWeight_no_backslash.
Qed.

Lemma keywordScores_phrase_weight_witness :
  phraseWordCount "machine learning models" = 1%nat
  /\ Rec.get (keywordScoresOf modelsText (tokenizeSentences modelsText))
       "machine learning models"
     = Some (Num.Fin
               (INR 2
                / INR (List.length
                         (documentsOf modelsText
                            (tokenizeSentences modelsText)))
                * 1.5)).
Proof.
  apply (keywordScores_phrase_weight modelsText
           (tokenizeSentences modelsText) "machine learning models" 2).
  - vm_compute. reflexivity.
  - lia.
Defined.

(** ** The document set and the weights of the summarizer *)

Lemma sentences_of_nonblank (text : string) :
  Js.isEmpty (Js.trim text) = false -> tokenizeSentences text <> [].
Proof.
  intros Hblank Hnil.
  assert (Hvis : visible (List.concat (map Js.chars (tokenizeSentences text)))
                 = visible (Js.chars text)).
  { unfold tokenizeSentences, Js.splitLines.
    rewrite nonblank_filter_visible, splitAtChar_concat. simpl.
    now rewrite visible_without_newlines, prepare_visible. }
  rewrite Hnil in Hvis. simpl in Hvis. symmetry in Hvis.
  apply visible_nil_spaces, trim_empty_iff in Hvis. congruence.
Qed.

(** For a text that is not blank, the document set of the summarizer and of
    the keyword extractor (the paragraphs when there are several, else the
    sentences) has at least one document and no blank one. *)
Theorem documentsOf_nonempty (text : string) :
  Js.isEmpty (Js.trim text) = false ->
  let documents := documentsOf text (tokenizeSentences text) in
  documents <> []
  /\ forall doc, In doc documents -> Js.isEmpty (Js.trim doc) = false.
Proof.
  intros Hblank documents. unfold documents, documentsOf.
  destruct (Nat.ltb_spec 1 (List.length (paragraphsOf text))) as [Hmany|Hone].
  - split.
    + destruct (paragraphsOf text); [simpl in Hmany; lia | discriminate].
    + intros doc Hdoc. unfold paragraphsOf in Hdoc.
      apply filter_In in Hdoc as [_ Hdoc]. unfold Js.isEmpty.
      apply Nat.ltb_lt in Hdoc. apply Nat.eqb_neq. lia.
  - split; [now apply sentences_of_nonblank|].
    intros doc Hdoc. unfold tokenizeSentences in Hdoc.
    apply filter_In in Hdoc as [_ Hdoc]. unfold Js.isEmpty.
    apply Nat.ltb_lt in Hdoc. apply Nat.eqb_neq. lia.
Qed.

Lemma documentsOf_nonempty_witness :
  let documents := documentsOf modelsText (tokenizeSentences modelsText) in
  documents <> []
  /\ forall doc, In doc documents -> Js.isEmpty (Js.trim doc) = false.
Proof.
  apply (documentsOf_nonempty modelsText). vm_compute. reflexivity.
Defined.

Lemma wordInDocCount_counted (documents : list string) :
  NoDup (Rec.keys (wordInDocCount documents))
  /\ counted (fun w => frequencyIn tokenizeWords w documents)
       (wordInDocCount documents).
Proof. exact (counters_counted tokenizeWords documents). Qed.

(** The weight [idf[w] || 1] the summarizer gives a token other than
    "constructor" and "__proto__" is a positive number. *)
Lemma smoothed_weight (text w : string) (documents : list string) :
  In w (tokenizeWords text) -> w <> "constructor" -> w <> "__proto__" ->
  positive (orElse (Rec.lookup (calculateIDFWithSmoothing documents) w) 1).
Proof.
  intros Hin Hc Hp.
  assert (Hinh : Rec.inherited w = false).
  { rewrite (kept_inherited text w Hin Hp). now apply String.eqb_neq. }
  unfold Rec.lookup.
  destruct (Rec.get (calculateIDFWithSmoothing documents) w) as [v|] eqn:E.
  - apply get_In in E. unfold calculateIDFWithSmoothing in E.
    apply in_map_iff in E as [[w' c] [Heq E]]. simpl in Heq.
    injection Heq as -> <-.
    destruct (wordInDocCount_counted documents) as [Hnd Hcount].
    apply (In_get _ _ _ Hnd) in E.
    destruct (counted_get _ _ _ _ Hcount E) as [_ [_ ->]].
    rewrite Hinh. simpl.
    set (df := frequencyIn tokenizeWords w documents).
    assert (Hln : 0 < ln ((INR (List.length documents) + 1) / (INR df + 1)
                          + 1)).
    { assert (Hratio : 0 < (INR (List.length documents) + 1)
                           / (INR df + 1)).
      { apply Rdiv_lt_0_compat.
        - pose proof (pos_INR (List.length documents)). lra.
        - pose proof (pos_INR df). lra. }
      rewrite <- ln_1. apply ln_increasing; lra. }
    destruct (Req_dec_T _ 0) as [E0|_]; [fold df in E0; lra|].
    eexists. split; [reflexivity | exact Hln].
  - rewrite Hinh. exists 1. split; [reflexivity | lra].
Qed.

(** The TF-IDF map of the summarizer (term frequency times smoothed IDF,
    or times 1 for a word without IDF) has the keys of the term frequency
    map, in the same order.  The weight of "constructor" is NaN; every
    other weight is a positive number: the smoothing leaves no zero
    weight. *)
Theorem summarizer_tfidf_positive (text : string) (documents : list string) :
  let tfidf :=
    calculateTFIDF (calculateTF text) (calculateIDFWithSmoothing documents) in
  Rec.keys tfidf = Rec.keys (calculateTF text)
  /\ forall w v, In (w, v) tfidf ->
       keepWord w = true
       /\ w <> "__proto__"
       /\ (w = "constructor" -> v = Num.NaN)
       /\ (w <> "constructor" -> positive v).
Proof.
  intros tfidf. split.
  - unfold tfidf, calculateTFIDF, Rec.keys. rewrite map_map. reflexivity.
  - intros w v Hin. unfold tfidf, calculateTFIDF in Hin.
    apply in_map_iff in Hin as [[w' x] [Heq Hin]]. simpl in Heq.
    injection Heq as -> <-.
    apply calculateTF_entry in Hin as [Hkeep [Hw [Hp [Hocc Hx]]]].
    split; [exact Hkeep|]. split; [exact Hp|]. split.
    + intros ->. rewrite Hx. reflexivity.
    + intros Hc. apply String.eqb_neq in Hc as Hc'. rewrite Hc' in Hx.
      subst x.
      destruct (smoothed_weight text w documents Hw Hc Hp) as [y [-> Hy]].
      eexists. split; [reflexivity|].
      apply Rmult_lt_0_compat; [|exact Hy]. now apply ratio_in_unit.
Qed.

Lemma summarizer_tfidf_positive_witness :
  positive (Num.Fin (INR 1 / INR 4 * ln ((INR 1 + 1) / (INR 1 + 1) + 1))).
Proof.
  destruct (summarizer_tfidf_positive patternText [patternText])
    as [_ Hentries].
  destruct (Hentries "pattern"
              (Num.Fin (INR 1 / INR 4 * ln ((INR 1 + 1) / (INR 1 + 1) + 1))))
    as [_ [_ [_ Hpos]]].
  - unfold calculateTFIDF, calculateTF, calculateIDFWithSmoothing.
    replace (countWords (filter keepWord (tokenizeWords patternText)))
      with [("constructor", Rec.Garbled); ("pattern", Rec.Times 1)]
      by (vm_compute; reflexivity).
    replace (List.length (tokenizeWords patternText)) with 4%nat
      by (vm_compute; reflexivity).
    replace (wordInDocCount [patternText])
      with [("constructor", Rec.Garbled); ("pattern", Rec.Times 1);
            ("the", Rec.Times 1)]
      by (vm_compute; reflexivity).
    right. left. cbn [map fst snd List.length].
    replace (Rec.lookup _ "pattern")
      with (Rec.Own (Num.Fin (ln ((INR 1 + 1) / (INR 1 + 1) + 1))))
      by reflexivity.
    unfold orElse, Num.truthy.
    destruct (Req_dec_T _ 0) as [E|_]; [|reflexivity].
    exfalso. assert (0 < ln ((INR 1 + 1) / (INR 1 + 1) + 1)); [|lra].
    rewrite <- ln_1. apply ln_increasing; simpl; lra.
  - apply Hpos. discriminate.
Defined.

(** ** The shape of a phrase *)












(** ** Translation *)

Section TranslationFacts.
Import Translation.

Definition tagOf (language : string) : option string :=
  if String.eqb language "German" then Some "DE"
  else if String.eqb language "Chinese" then Some "ZH"
  else if String.eqb language "Russian" then Some "RU"
  else if String.eqb language "English" then Some "EN"
  else None.

(** [translateText] towards German, Chinese, Russian or English, the
    languages with a prefix and no dictionary: a blank text is refused with
    "No text provided for translation"; any other text comes back unchanged
    behind the tag [DE], [ZH], [RU] or [EN], with its length as character
    count. *)
Theorem translateText_tagged (request : TranslationRequest) (tag : string) :
  tagOf (targetLanguage request) = Some tag ->
  translateText request
  = if Js.isEmpty (Js.trim (text request))
    then Thrown "No text provided for translation"
    else Returned
           {| translatedText := String.append "[" (String.append tag
                                  (String.append "] " (text request)));
              characterCount := String.length (text request) |}.
Proof.
  unfold tagOf, translateText. intros Htag.
  destruct (Js.isEmpty (Js.trim (text request))); [reflexivity|].
  unfold simulateTranslation, prefixOf, languagePrefixes. simpl.
  destruct (String.eqb (targetLanguage request) "German") eqn:EG.
  { apply String.eqb_eq in EG. rewrite EG. injection Htag as <-. reflexivity. }
  destruct (String.eqb (targetLanguage request) "Chinese") eqn:EC.
  { apply String.eqb_eq in EC. rewrite EC. injection Htag as <-. reflexivity. }
  destruct (String.eqb (targetLanguage request) "Russian") eqn:ER.
  { apply String.eqb_eq in ER. rewrite ER. injection Htag as <-. reflexivity. }
  destruct (String.eqb (targetLanguage request) "English") eqn:EE.
  { apply String.eqb_eq in EE. rewrite EE. injection Htag as <-. reflexivity. }
  discriminate.
Qed.

Definition germanRequest : TranslationRequest :=
  {| text := "Good morning";
     sourceLanguage := "English";
     targetLanguage := "German";
     formality := None;
     domain := None |}.

Lemma translateText_tagged_witness :
  tagOf (targetLanguage germanRequest) = Some "DE"
  /\ translateText germanRequest
     = Returned {| translatedText := "[DE] Good morning";
                   characterCount := 12 |}.
Proof.
  split; [reflexivity|].
  exact (translateText_tagged germanRequest "DE" eq_refl).
Defined.

(** The dictionary branch on a short greeting: known words are replaced and
    keep their capital, runs of white space become single spaces. *)
Example translateText_spanish_greeting :
  translateText {| text := "Hello   world, thank you";
                   sourceLanguage := "English";
                   targetLanguage := "Spanish";
                   formality := None;
                   domain := None |}
  = Returned {| translatedText :=
                  String.append "Hola world, gracias t" (unit 250);
                characterCount := 24 |}.
Proof. vm_compute. reflexivity. Qed.

End TranslationFacts.

(** ** Inherited members in the frequency engine *)

(** Every entry of [calculateIDF] belongs to a word other than "__proto__"
    that is kept in df documents of the D given, 1 <= df <= D.  The entry of
    a word that names an inherited member ("constructor") is NaN; every
    other entry is log10((D+1)/(df+1)) + 1, which is at least 1. *)
Theorem calculateIDF_values (documents : list string) (w : string)
  (v : Num.t) :
  In (w, v) (calculateIDF documents) ->
  let D := List.length documents in
  let df := documentFrequency w documents in
  w <> "__proto__"
  /\ (1 <= df <= D)%nat
  /\ (Rec.inherited w = true -> v = Num.NaN)
  /\ (Rec.inherited w = false ->
      v = Num.Fin (log10 ((INR D + 1) / (INR df + 1)) + 1)
      /\ 1 <= log10 ((INR D + 1) / (INR df + 1)) + 1).
Proof.
  intros Hin D df.
  destruct (calculateIDF_entry documents w v Hin) as [Hp [Hdf Hv]].
  fold D df in Hdf, Hv.
  split; [exact Hp|]. split; [exact Hdf|]. split.
  - intros Hinh. now rewrite Hinh in Hv.
  - intros Hinh. rewrite Hinh in Hv. split; [exact Hv|].
    apply idf_ge_1. lia.
Qed.

Lemma calculateIDF_values_witness :
  1 <= log10 ((INR 1 + 1) / (INR 1 + 1)) + 1.
Proof.
  assert (Hin : In ("objects", Num.Fin (log10 ((1 + 1) / (1 + 1)) + 1))
                  (calculateIDF [constructorText])).
  { unfold calculateIDF.
    replace (documentCounts [constructorText])
      with [ ("every", Rec.Times 1); ("constructor", Rec.Garbled);
             ("builds", Rec.Times 1); ("objects", Rec.Times 1) ]
      by (vm_compute; reflexivity).
    right. right. right. left. reflexivity. }
  destruct (calculateIDF_values [constructorText] "objects" _ Hin)
    as [_ [_ [_ Hreg]]].
  destruct (Hreg eq_refl) as [_ Hge].
  replace (documentFrequency "objects" [constructorText]) with 1%nat in Hge
    by (vm_compute; reflexivity).
  exact Hge.
Defined.

Lemma add_truthy (score v : Num.t) :
  Num.truthy v = true -> (Num.add score v = Num.NaN <-> score = Num.NaN).
Proof.
  destruct v as [x|]; [|discriminate]. intros _.
  destruct score; simpl; split; congruence.
Qed.

Lemma score_fold_nan (keywords : Rec.t Num.t) (words : list string)
  (score : Num.t) :
  fold_left
    (fun score word =>
       match Rec.lookup keywords word with
       | Rec.Own v => if Num.truthy v then Num.add score v else score
       | Rec.Inherited => Num.NaN
       | Rec.Missing => score
       end)
    words score = Num.NaN
  <-> score = Num.NaN
      \/ exists w, In w words /\ Rec.lookup keywords w = Rec.Inherited.
Proof.
  revert score. induction words as [|w ws IH]; intros score; simpl.
  - split; [now left | intros [H|[w [[] _]]]; exact H].
  - rewrite IH. destruct (Rec.lookup keywords w) as [v| |] eqn:E.
    + destruct (Num.truthy v) eqn:Hv.
      * rewrite (add_truthy score v Hv). split.
        -- intros [H|[x [Hx Hl]]]; [now left | right; exists x; auto].
        -- intros [H|[x [[<-|Hx] Hl]]]; [now left | congruence |].
           right. now exists x.
      * split.
        -- intros [H|[x [Hx Hl]]]; [now left | right; exists x; auto].
        -- intros [H|[x [[<-|Hx] Hl]]]; [now left | congruence |].
           right. now exists x.
    + split; [|now left]. intros _. right. exists w. auto.
    + split.
      * intros [H|[x [Hx Hl]]]; [now left | right; exists x; auto].
      * intros [H|[x [[<-|Hx] Hl]]]; [now left | congruence |].
        right. now exists x.
Qed.

(** The score of a sentence is NaN exactly when one of its tokens names a
    member of [Object.prototype] that the keyword map does not hold itself;
    in particular a sentence with the token "__proto__" scores NaN against
    every map that has no such entry. *)
Theorem scoreSentence_nan (keywords : Rec.t Num.t) (sentence : string) :
  (scoreSentence keywords sentence = Num.NaN
   <-> exists w, In w (tokenizeWords sentence)
                 /\ Rec.get keywords w = None /\ Rec.inherited w = true)
  /\ (Rec.get keywords "__proto__" = None ->
      In "__proto__" (tokenizeWords sentence) ->
      scoreSentence keywords sentence = Num.NaN).
Proof.
  assert (Hiff : scoreSentence keywords sentence = Num.NaN
                 <-> exists w, In w (tokenizeWords sentence)
                     /\ Rec.get keywords w = None /\ Rec.inherited w = true).
  { unfold scoreSentence.
    set (score := fold_left _ _ _).
    assert (Hdiv : Num.div score
                     (Num.Fin (INR (List.length (tokenizeWords sentence))
                               + 0.1)) = Num.NaN
                   <-> score = Num.NaN)
      by (destruct score; simpl; split; congruence).
    rewrite Hdiv. unfold score. rewrite score_fold_nan. split.
    - intros [H|[w [Hw Hl]]]; [discriminate|]. exists w. split; [exact Hw|].
      unfold Rec.lookup in Hl.
      destruct (Rec.get keywords w); [discriminate|].
      destruct (Rec.inherited w); [auto | discriminate].
    - intros [w [Hw [Hget Hinh]]]. right. exists w. split; [exact Hw|].
      unfold Rec.lookup. now rewrite Hget, Hinh. }
  split; [exact Hiff|].
  intros Hget Hin. apply Hiff. exists "__proto__". auto.
Qed.

Lemma scoreSentence_nan_witness :
  scoreSentence [("works", Num.Fin 0.5)] "__proto__ works here." = Num.NaN.
Proof.
  apply (scoreSentence_nan [("works", Num.Fin 0.5)] "__proto__ works here.").
  - reflexivity.
  - vm_compute. left. reflexivity.
Defined.

(** ** Sentence similarity on word counts *)

Definition timesOf (c : Rec.Counter) : nat :=
  match c with
  | Rec.Times n => n
  | Rec.Garbled => O
  end.

Definition countsOf (r : Rec.t Rec.Counter) : Rec.t nat :=
  map (fun wc => (fst wc, timesOf (snd wc))) r.

Fixpoint total (c : Rec.t nat) : nat :=
  match c with
  | [] => O
  | (_, n) :: c' => (n + total c')%nat
  end.

(** m / (sqrt m * sqrt m) as [cosineSimilarity] computes it for a vector
    whose squares add up to the whole number [m]. *)
Definition selfCosine (m : Z) : Double.t :=
  let x := Double.ofZ m in
  let r := Double.sqrt x in
  if Double.isZero r then Double.zero else Double.div x (Double.mul r r).

(** [selfCosine m > 0.5] for the [n] whole numbers from [from] on. *)
Fixpoint allAbove (n : nat) (from : Z) : bool :=
  match n with
  | O => true
  | S n' => Double.gt (selfCosine from) Double.half && allAbove n' (from + 1)
  end.

Lemma allAbove_spec (n : nat) (from m : Z) :
  allAbove n from = true -> (from <= m < from + Z.of_nat n)%Z ->
  Double.gt (selfCosine m) Double.half = true.
Proof.
  revert from. induction n as [|n IH]; intros from Hall Hm; [lia|].
  simpl in Hall. apply andb_prop in Hall as [Hhere Hrest].
  destruct (Z.eq_dec m from) as [->|Hne]; [exact Hhere|].
  apply (IH (from + 1)%Z Hrest). lia.
Qed.

(** Checked by evaluation for every sum of squares up to 200 * 200. *)
Lemma selfCosine_above_half (m : Z) :
  (1 <= m <= 40000)%Z -> Double.gt (selfCosine m) Double.half = true.
Proof.
  intros Hm. apply (allAbove_spec (Z.to_nat 40000) 1); [|lia].
  vm_compute. reflexivity.
Qed.

Lemma keys_countsOf (r : Rec.t Rec.Counter) :
  Rec.keys (countsOf r) = Rec.keys r.
Proof. unfold Rec.keys, countsOf. rewrite map_map. now apply map_ext. Qed.

Lemma total_set (r : Rec.t Rec.Counter) (k : string) (v : Rec.Counter) :
  (total (countsOf (Rec.set r k v))
   + match Rec.get r k with Some c => timesOf c | None => 0 end
   = total (countsOf r) + timesOf v)%nat.
Proof.
  induction r as [|[k' v'] r IH]; simpl; [lia|].
  destruct (String.eqb k k'); simpl; lia.
Qed.

Lemma total_increment (r : Rec.t Rec.Counter) (k : string) :
  (total (countsOf (Rec.increment r k)) <= S (total (countsOf r)))%nat.
Proof.
  unfold Rec.increment. destruct (String.eqb k "__proto__"); [lia|].
  unfold Rec.lookup.
  pose proof (fun v => total_set r k v) as Hset.
  destruct (Rec.get r k) as [[n|]|].
  - specialize (Hset (Rec.Times (S n))). simpl in Hset. lia.
  - specialize (Hset Rec.Garbled). simpl in Hset. lia.
  - destruct (Rec.inherited k).
    + specialize (Hset Rec.Garbled). simpl in Hset. lia.
    + specialize (Hset (Rec.Times 1)). simpl in Hset. lia.
Qed.

Lemma total_increments (ws : list string) (r : Rec.t Rec.Counter) :
  (total (countsOf (fold_left Rec.increment ws r))
   <= total (countsOf r) + List.length ws)%nat.
Proof.
  revert r. induction ws as [|w ws IH]; intros r; simpl; [lia|].
  pose proof (IH (Rec.increment r w)). pose proof (total_increment r w). lia.
Qed.

(** The counts of a sentence add up to no more than its tokens. *)
Lemma total_countWords (ws : list string) :
  (total (countsOf (countWords ws)) <= List.length ws)%nat.
Proof. apply (total_increments ws []). Qed.

Lemma weight_le_total (d : Rec.t nat) (k : string) :
  (weight d k <= Z.of_nat (total d))%Z.
Proof.
  induction d as [|[k' n] d IH]; [unfold weight; simpl; lia|].
  rewrite weight_cons. simpl. destruct (String.eqb k k'); lia.
Qed.

Lemma inner_le_totals (c d : Rec.t nat) :
  (inner c d <= Z.of_nat (total c) * Z.of_nat (total d))%Z.
Proof.
  induction c as [|[k n] c IH]; simpl; [lia|].
  pose proof (weight_le_total d k). pose proof (weight_nonneg d k). nia.
Qed.

Lemma entry_le_total (c : Rec.t nat) (k : string) (n : nat) :
  In (k, n) c -> (n <= total c)%nat.
Proof.
  induction c as [|[k' n'] c IH]; simpl; [intros []|].
  intros [[= -> ->]|Hin]; [lia|]. specialize (IH Hin). lia.
Qed.

Lemma inner_ge_entry (c d : Rec.t nat) (k : string) (n : nat) :
  In (k, n) c -> (Z.of_nat n * weight d k <= inner c d)%Z.
Proof.
  induction c as [|[k' n'] c IH]; simpl; [intros []|].
  pose proof (inner_nonneg c d). pose proof (weight_nonneg d k').
  intros [[= -> ->]|Hin]; [nia|]. specialize (IH Hin). nia.
Qed.

Lemma numbers_ofCounts (c : Rec.t nat) :
  wholeCounts c -> (Z.of_nat (total c) < 2 ^ 53)%Z -> numbers (ofCounts c).
Proof.
  intros [Hnd Hc] Hsmall. split; [now rewrite keys_ofCounts|].
  intros k x Hin. apply in_map_iff in Hin as [[k' n] [[= <- <-] Hin]].
  exists (Double.ofNat n). split; [reflexivity|].
  destruct (Hc k' n Hin) as [Hn _]. pose proof (entry_le_total c k' n Hin).
  destruct (ofZ_finite (Z.of_nat n)) as [mantissa [exponent Hfin]]; [lia|].
  unfold Double.ofNat. now rewrite Hfin.
Qed.

(** The similarity of a vector of counts with itself. *)
Lemma cosineSimilarity_counts_self (c : Rec.t nat) :
  wholeCounts c ->
  (Z.of_nat (total c) * Z.of_nat (total c) < 2 ^ 53)%Z ->
  cosineSimilarity (ofCounts c) (ofCounts c) = selfCosine (inner c c).
Proof.
  intros Hc Hsmall.
  pose proof (inner_le_totals c c) as Hle.
  assert (Hnum : numbers (ofCounts c)) by (apply numbers_ofCounts; [easy|nia]).
  pose proof (dotProduct_self (ofCounts c) Hnum) as Hself.
  rewrite (dotProduct_counts c c Hc Hc) in Hself by lia.
  unfold cosineSimilarity, selfCosine.
  rewrite (dotProduct_counts c c Hc Hc) by lia.
  rewrite <- Hself. now rewrite orb_diag.
Qed.

(** The vector of a sentence without the token "constructor" is a vector of
    counts. *)
Lemma wordVector_counts (sentence : string) :
  noConstructor sentence ->
  let c := countsOf (countWords (tokenizeWords sentence)) in
  wordVector sentence = ofCounts c /\ wholeCounts c.
Proof.
  intros Hno c.
  assert (Hentry : forall w v,
             In (w, v) (countWords (tokenizeWords sentence)) ->
             Rec.inherited w = false
             /\ exists n, v = Rec.Times n /\ (1 <= n)%nat).
  { intros w v Hin.
    destruct (countWords_entry _ w v Hin) as [Hproto [Hocc Hv]].
    assert (Hw : In w (tokenizeWords sentence)).
    { apply (count_occ_In string_dec). lia. }
    assert (Hplain : Rec.inherited w = false).
    { destruct (Rec.inherited w) eqn:E; [|reflexivity].
      destruct (token_inherited sentence w Hw E) as [-> | ->];
        [|congruence].
      exfalso. now apply (noConstructor_token sentence "constructor"). }
    split; [exact Hplain|]. rewrite Hplain in Hv. eauto. }
  split.
  - unfold wordVector, c, ofCounts, countsOf. rewrite map_map.
    apply map_ext_in. intros [w v] Hin.
    destruct (Hentry w v Hin) as [_ [n [-> _]]]. reflexivity.
  - split.
    + unfold c. rewrite keys_countsOf. apply countWords_NoDup.
    + intros k n Hin. apply in_map_iff in Hin as [[w v] [[= <- <-] Hin]].
      destruct (Hentry w v Hin) as [Hplain [n [-> Hn]]]. now split.
Qed.

(** On sentences without the token "constructor" whose numbers of
    tokens multiply to less than 2^53, [calculateSentenceSimilarity] gives
    the same number for the two orders of its arguments. *)
Theorem calculateSentenceSimilarity_comm (sentA sentB : string) :
  noConstructor sentA -> noConstructor sentB ->
  (Z.of_nat (List.length (tokenizeWords sentA))
   * Z.of_nat (List.length (tokenizeWords sentB)) < 2 ^ 53)%Z ->
  calculateSentenceSimilarity sentA sentB
  = calculateSentenceSimilarity sentB sentA.
Proof.
  intros Ha Hb Hsmall. unfold calculateSentenceSimilarity.
  destruct (wordVector_counts sentA Ha) as [-> Hca].
  destruct (wordVector_counts sentB Hb) as [-> Hcb].
  apply cosineSimilarity_counts_comm; try assumption.
  pose proof (inner_le_totals
                (countsOf (countWords (tokenizeWords sentA)))
                (countsOf (countWords (tokenizeWords sentB)))) as Hle.
  pose proof (total_countWords (tokenizeWords sentA)).
  pose proof (total_countWords (tokenizeWords sentB)).
  nia.
Qed.

Lemma calculateSentenceSimilarity_comm_witness :
  calculateSentenceSimilarity "Cats purr." "Purr, cats, purr!"
  = calculateSentenceSimilarity "Purr, cats, purr!" "Cats purr.".
Proof.
  apply calculateSentenceSimilarity_comm;
    [reflexivity | reflexivity | vm_compute; reflexivity].
Defined.

(** A sentence of at most 200 tokens, none of them "constructor" and
    one of them other than "__proto__", has a similarity above 0.5 with
    itself. *)
Theorem similar_to_itself (sentence : string) :
  let words := tokenizeWords sentence in
  noConstructor sentence ->
  (exists w, In w words /\ w <> "__proto__") ->
  (List.length words <= 200)%nat ->
  similar sentence sentence = true.
Proof.
  intros words Hno [w [Hw Hproto]] Hlen.
  unfold similar, calculateSentenceSimilarity.
  destruct (wordVector_counts sentence Hno) as [-> Hc].
  fold words in Hc |- *.
  set (c := countsOf (countWords words)) in *.
  pose proof (total_countWords words) as Htotal. fold c in Htotal.
  pose proof (inner_le_totals c c) as Hle.
  rewrite cosineSimilarity_counts_self by (try assumption; nia).
  apply selfCosine_above_half. split; [|nia].
  assert (Hget : Rec.get (countWords words) w
                 = Some (Rec.Times (count_occ string_dec words w))).
  { rewrite (countWords_counted words w).
    apply String.eqb_neq in Hproto. rewrite Hproto.
    assert (Hplain : Rec.inherited w = false).
    { destruct (Rec.inherited w) eqn:E; [|reflexivity].
      apply String.eqb_neq in Hproto.
      destruct (token_inherited sentence w Hw E) as [-> | ->];
        [|congruence].
      exfalso. now apply (noConstructor_token sentence "constructor"). }
    rewrite Hplain.
    pose proof (proj1 (count_occ_In string_dec words w) Hw) as Hocc.
    destruct (count_occ string_dec words w); [lia | reflexivity]. }
  pose proof (proj1 (count_occ_In string_dec words w) Hw) as Hocc.
  assert (Hin : In (w, count_occ string_dec words w) c).
  { unfold c, countsOf. apply in_map_iff.
    exists (w, Rec.Times (count_occ string_dec words w)).
    split; [reflexivity | now apply get_In]. }
  pose proof (inner_ge_entry c c _ _ Hin) as Hge.
  assert (Hweight : weight c w = Z.of_nat (count_occ string_dec words w)).
  { unfold weight. now rewrite (In_get c _ _ (proj1 Hc) Hin). }
  rewrite Hweight in Hge. nia.
Qed.

Lemma similar_to_itself_witness : similar "Cats purr." "Cats purr." = true.
Proof.
  apply similar_to_itself.
  - reflexivity.
  - exists "cats". split; [vm_compute; auto | discriminate].
  - vm_compute. lia.
Defined.
